(** * VM translator: a shallow embedding of [vm_tr.py]

    The script turns Hack VM commands into Hack assembly.  Class
    [Translator] keeps four class attributes (the pattern table, the
    dispatch table, the assembly text produced so far and the comparison
    counters); they are the [state] threaded through every function below.
    Python exceptions abort the run, so every function that can raise
    returns a [result]. *)

From Stdlib Require Import Ascii String ZArith Lia.
From stdpp Require Import base option strings list gmap pretty sorting.

Local Open Scope string_scope.
Local Open Scope Z_scope.

(** ** Exceptions *)

(** The exceptions the script can raise.  [RecursionError] is Python's answer
    to a call stack that grows past its limit; [NotModelled] marks the inputs
    of a builtin ([str.format] with conversions, format specifications or
    attribute access) that this development does not describe. *)
Inductive exn : Set :=
  | KeyError | IndexError | ValueError | AttributeError | TypeError
  | RecursionError | NotModelled.

Inductive result (A : Type) : Type :=
  | Ok (a : A)
  | Err (e : exn).
Arguments Ok {A} a.
Arguments Err {A} e.

#[global] Instance exn_eq_dec : EqDecision exn.
Proof. solve_decision. Defined.

#[global] Instance result_ret : MRet result := @Ok.
#[global] Instance result_bind : MBind result := λ A B f m,
  match m with Ok a => f a | Err e => Err e end.
#[global] Instance result_fmap : FMap result := λ A B f m,
  match m with Ok a => Ok (f a) | Err e => Err e end.

(** [d[k]] and [l[i]]: a missing key or index raises. *)
Definition or_raise {A} (e : exn) (o : option A) : result A :=
  match o with Some a => Ok a | None => Err e end.

Definition is_ok {A} (r : result A) : bool :=
  match r with Ok _ => true | Err _ => false end.

(** ** Python strings *)

(** A Python string is kept as the bytes of its UTF-8 encoding: an ASCII
    character is one byte, any other character two to four bytes, none of
    them an ASCII byte. *)

(** The ASCII characters [str.split()] treats as white space. *)
Definition is_py_space (c : ascii) : bool :=
  let n := nat_of_ascii c in
  ((9 <=? n)%nat && (n <=? 13)%nat) || ((28 <=? n)%nat && (n <=? 32)%nat).

(** The ASCII characters [int()] skips around a number: those of C's
    [isspace], which leaves out the separators 28 to 31. *)
Definition is_int_space (c : ascii) : bool :=
  let n := nat_of_ascii c in
  ((9 <=? n)%nat && (n <=? 13)%nat) || (n =? 32)%nat.

Fixpoint lstrip (s : string) : string :=
  match s with
  | String c s' => if is_int_space c then lstrip s' else s
  | EmptyString => EmptyString
  end.

Definition strip (s : string) : string :=
  String.rev (lstrip (String.rev (lstrip s))).

Definition digit_val (c : ascii) : option Z :=
  Z.of_nat <$> Ascii.is_nat c.

(** Digits after the first one: single underscores may separate digits. *)
Fixpoint int_digits (acc : Z) (after_underscore : bool) (s : string) : option Z :=
  match s with
  | EmptyString => if after_underscore then None else Some acc
  | String c s' =>
      if decide (c = "_"%char) then
        if after_underscore then None else int_digits acc true s'
      else
        match digit_val c with
        | Some d => int_digits (10 * acc + d) false s'
        | None => None
        end
  end.

Definition int_unsigned (s : string) : option Z :=
  match s with
  | String c s' =>
      match digit_val c with
      | Some d => int_digits d false s'
      | None => None
      end
  | EmptyString => None
  end.

(** The payload of a continuation byte of UTF-8. *)
Definition continuation (c : ascii) : option N :=
  let n := N_of_ascii c in
  if ((128 <=? n) && (n <? 192))%N then Some (n - 128)%N else None.

(** The white space beyond ASCII. *)
Definition unicode_spaces : list N :=
  [133; 160; 5760; 8192; 8193; 8194; 8195; 8196; 8197; 8198; 8199; 8200;
   8201; 8202; 8232; 8233; 8239; 8287; 12288]%N.

(** The digits zero of the decimal digits beyond ASCII; the nine code
    points after each are its digits one to nine (Unicode 14, the version
    of CPython 3.11). *)
Definition decimal_zeros : list N :=
  [1632; 1776; 1984; 2406; 2534; 2662; 2790; 2918; 3046; 3174; 3302; 3430;
   3558; 3664; 3792; 3872; 4160; 4240; 6112; 6160; 6470; 6608; 6784; 6800;
   6992; 7088; 7232; 7248; 42528; 43216; 43264; 43472; 43504; 43600; 44016;
   65296; 66720; 68912; 69734; 69872; 69942; 70096; 70384; 70736; 70864;
   71248; 71360; 71472; 71904; 72016; 72784; 73040; 73120; 92768; 92864;
   93008; 120782; 120792; 120802; 120812; 120822; 123200; 123632; 125264;
   130032]%N.

Definition unicode_decimal (cp : N) : option N :=
  (λ zero, cp - zero)%N
    <$> List.find (λ zero, (zero <=? cp) && (cp <? zero + 10))%N decimal_zeros.

(** What [int()] reads a character beyond ASCII as: a blank for white
    space, the ASCII digit for a decimal digit, nothing otherwise. *)
Definition to_ascii (cp : N) : option ascii :=
  if bool_decide (cp ∈ unicode_spaces) then Some " "%char
  else (λ d, ascii_of_N (48 + d)) <$> unicode_decimal cp.

(** The first step of [int()] on a string: ASCII characters are kept, the
    others are read by [to_ascii]; [None] when one of them is neither white
    space nor a digit (or the bytes are no UTF-8), which ends in a
    [ValueError]. *)
Fixpoint decimal_and_space_to_ascii (s : string) : option string :=
  match s with
  | EmptyString => Some EmptyString
  | String b0 s1 =>
      let n0 := N_of_ascii b0 in
      if (n0 <? 128)%N then String b0 <$> decimal_and_space_to_ascii s1
      else if (n0 <? 192)%N then None
      else if (n0 <? 224)%N then
        match s1 with
        | String b1 s2 =>
            c1 ← continuation b1;
            a ← to_ascii ((n0 - 192) * 64 + c1)%N;
            String a <$> decimal_and_space_to_ascii s2
        | _ => None
        end
      else if (n0 <? 240)%N then
        match s1 with
        | String b1 (String b2 s3) =>
            c1 ← continuation b1;
            c2 ← continuation b2;
            a ← to_ascii ((n0 - 224) * 4096 + c1 * 64 + c2)%N;
            String a <$> decimal_and_space_to_ascii s3
        | _ => None
        end
      else
        match s1 with
        | String b1 (String b2 (String b3 s4)) =>
            c1 ← continuation b1;
            c2 ← continuation b2;
            c3 ← continuation b3;
            a ← to_ascii ((n0 - 240) * 262144 + c1 * 4096 + c2 * 64 + c3)%N;
            String a <$> decimal_and_space_to_ascii s4
        | _ => None
        end
  end.

(** How many digits the text of a number has. *)
Definition count_digits (s : string) : Z :=
  Z.of_nat (length (List.filter (λ c, bool_decide (is_Some (Ascii.is_nat c)))
                      (list_ascii_of_string s))).

(** [sys.get_int_max_str_digits()], which the script leaves at its default. *)
Definition max_str_digits : Z := 4300.

(** [int(s)]: [None] stands for [ValueError].  White space around the number
    is skipped, a sign may come first, single underscores may separate the
    digits, and a number of more than [max_str_digits] digits is refused. *)
Definition py_int (s : string) : option Z :=
  t ← decimal_and_space_to_ascii s;
  if bool_decide (max_str_digits < count_digits t) then None
  else
    match strip t with
    | String "-" r => Z.opp <$> int_unsigned r
    | String "+" r => int_unsigned r
    | u => int_unsigned u
    end.

(** The string holds 7-bit characters only. *)
Definition is_ascii (s : string) : bool :=
  forallb (λ c, (nat_of_ascii c <? 128)%nat) (list_ascii_of_string s).

(** The bytes left of a character after its first one. *)
Fixpoint drop_continuation (s : string) : string :=
  match s with
  | String c s' =>
      match continuation c with
      | Some _ => drop_continuation s'
      | None => s
      end
  | EmptyString => EmptyString
  end.

(** [s[1:]]: the string without its first character. *)
Definition tail_str (s : string) : string :=
  match s with
  | String c s' =>
      if (N_of_ascii c <? 192)%N then s' else drop_continuation s'
  | EmptyString => EmptyString
  end.

Definition upper_ascii (c : ascii) : ascii :=
  let n := nat_of_ascii c in
  if ((97 <=? n)%nat && (n <=? 122)%nat) then ascii_of_nat (n - 32) else c.

(** [s.upper()] *)
Fixpoint upper (s : string) : string :=
  match s with
  | String c s' => String (upper_ascii c) (upper s')
  | EmptyString => EmptyString
  end.

(** [str(x)] for a value that is a string or [None]. *)
Definition str_opt (o : option string) : string := default "None" o.

(** ** [str.format] with keyword arguments

    A template is scanned left to right.  ["{{"] and ["}}"] are escaped
    braces, ["{name}"] is replaced by the keyword argument [name]
    ([KeyError] when absent), ["{}"] asks for a positional argument the
    script never passes ([IndexError]), a lone brace is a [ValueError]. *)
Inductive fmt_mode : Set :=
  | FText                       (* outside a replacement field *)
  | FOpen                       (* just read an opening brace *)
  | FField (rev_name : string)  (* inside a field, name read so far, reversed *)
  | FClose.                     (* just read a closing brace, outside a field *)

Definition kwargs := list (string * string).

Fixpoint kw_lookup (name : string) (kw : kwargs) : option string :=
  match kw with
  | [] => None
  | (k, v) :: kw' => if decide (k = name) then Some v else kw_lookup name kw'
  end.

Definition field_special (c : ascii) : bool :=
  bool_decide (c ∈ ["!"; ":"; "."; "["; "]"; "{"]%char).

Definition all_digits (s : string) : bool :=
  forallb (λ c, bool_decide (is_Some (Ascii.is_nat c))) (list_ascii_of_string s).

Fixpoint format_go (kw : kwargs) (mode : fmt_mode) (s : string) : result string :=
  match s with
  | EmptyString =>
      match mode with
      | FText => Ok EmptyString
      | _ => Err ValueError
      end
  | String c s' =>
      match mode with
      | FText =>
          if decide (c = "{"%char) then format_go kw FOpen s'
          else if decide (c = "}"%char) then format_go kw FClose s'
          else String c <$> format_go kw FText s'
      | FOpen =>
          if decide (c = "{"%char) then String c <$> format_go kw FText s'
          else if decide (c = "}"%char) then Err IndexError
          else if field_special c then Err NotModelled
          else format_go kw (FField (String c EmptyString)) s'
      | FClose =>
          if decide (c = "}"%char) then String c <$> format_go kw FText s'
          else Err ValueError
      | FField rev_name =>
          if decide (c = "}"%char) then
            let name := String.rev rev_name in
            if all_digits name then Err IndexError
            else
              v ← or_raise KeyError (kw_lookup name kw);
              rest ← format_go kw FText s';
              Ok (v +:+ rest)
          else if field_special c then Err NotModelled
          else format_go kw (FField (String c rev_name)) s'
      end
  end.

(** [raw_code.format] called with the keyword arguments [kw] *)
Definition format (raw_code : string) (kw : kwargs) : result string :=
  format_go kw FText raw_code.

(** [sep.join(l)] *)
Definition join (sep : string) (l : list string) : string := String.concat sep l.

(** [needle in hay] *)
Fixpoint contains (needle hay : string) : bool :=
  String.prefix needle hay ||
  match hay with
  | String _ hay' => contains needle hay'
  | EmptyString => false
  end.

(** Cut a string at every character that satisfies [p]; [cur] is the piece
    being read, reversed. *)
Fixpoint split_go (p : ascii → bool) (cur : string) (s : string) : list string :=
  match s with
  | EmptyString => [String.rev cur]
  | String c s' =>
      if p c then String.rev cur :: split_go p EmptyString s'
      else split_go p (String c cur) s'
  end.

Definition nonempty (s : string) : bool :=
  match s with EmptyString => false | _ => true end.

(** [s.split(c)] *)
Definition split_char (c : ascii) (s : string) : list string :=
  split_go (λ x, bool_decide (x = c)) EmptyString s.

(** [s.split()] *)
Definition split_ws (s : string) : list string :=
  List.filter nonempty (split_go is_py_space EmptyString s).

(** [s.replace(" ", "")] *)
Fixpoint remove_spaces (s : string) : string :=
  match s with
  | EmptyString => EmptyString
  | String c s' =>
      if decide (c = " "%char) then remove_spaces s' else String c (remove_spaces s')
  end.

(** [s.endswith(suffix)] *)
Definition endswith (s suffix : string) : bool :=
  String.prefix (String.rev suffix) (String.rev s).

(** [os.path.splitext(filename)[0]] for a file name that ends in [.txt]:
    the name without the extension, unless only dots precede the last dot,
    in which case [splitext] finds no extension at all. *)
Definition splitext_root (filename : string) : string :=
  let stem := String.substring 0 (String.length filename - 4) filename in
  if forallb (λ c, bool_decide (c = "."%char)) (list_ascii_of_string stem)
  then filename else stem.

(** ** The class attributes *)

(** What [getattr(Translator, name)] can give back: one of the eight
    translating functions, another method of the class, or one of its four
    data attributes. *)
Inductive attr : Set :=
  | A_pop_push
  | A_add_sub_or_and
  | A_neg_not
  | A_lt_eq_gt
  | A_label_goto_if_goto
  | A_function
  | A_call
  | A_return
  | A_method (name : string)
  | A_data (name : string).

#[global] Instance attr_eq_dec : EqDecision attr.
Proof. solve_decision. Defined.

(** [_pop_push_expr]: the three strings [_pop_push_helper] prepares, each of
    which may be [None]. *)
Definition pop_push_expr : Type := option string * option string * option string.

Record state : Type := State {
  _code_patterns : gmap string string;
  _func_mappings : gmap string attr;
  _asm_code : string;
  _lt_eq_gt_counter : gmap string Z
}.

(** The class body's initial values. *)
Definition class_init : state :=
  {| _code_patterns := ∅;
     _func_mappings := ∅;
     _asm_code := "";
     _lt_eq_gt_counter := {[ "lt" := 0; "eq" := 0; "gt" := 0 ]} |}.

Definition emit (code : string) (st : state) : state :=
  {| _code_patterns := _code_patterns st;
     _func_mappings := _func_mappings st;
     _asm_code := _asm_code st +:+ code;
     _lt_eq_gt_counter := _lt_eq_gt_counter st |}.

Definition set_counter (c : gmap string Z) (st : state) : state :=
  {| _code_patterns := _code_patterns st;
     _func_mappings := _func_mappings st;
     _asm_code := _asm_code st;
     _lt_eq_gt_counter := c |}.

(** An instance of [Translator].  [_pop_push_expr] starts as the empty
    string, which has no element to index: that is [None] here. *)
Record Translator : Type := MkTranslator {
  _line : list string;
  _class_name : string;
  _cmd : string;
  _idx : Z;
  _pop_push_expr : option pop_push_expr
}.

(** [Translator(line_lst, class_name, idx)] *)
Definition __init__ (line_lst : list string) (class_name : string) (idx : Z)
  : result Translator :=
  cmd ← or_raise IndexError (line_lst !! 0%nat);
  Ok {| _line := line_lst; _class_name := class_name; _cmd := cmd;
        _idx := idx; _pop_push_expr := None |}.

Definition set_pop_push_expr (e : pop_push_expr) (self : Translator) : Translator :=
  {| _line := _line self; _class_name := _class_name self; _cmd := _cmd self;
     _idx := _idx self; _pop_push_expr := Some e |}.

(** ** Comments and segment expressions *)

(** [_make_comm]: the command, as a comment, goes to the output. *)
Definition _make_comm (self : Translator) (st : state) : state :=
  let comm_str := join " " (_line self) in
  let comm_str := "// " +:+ comm_str +:+ "
" in
  emit comm_str st.

Definition loc_dict : gmap string Z :=
  {[ "local" := 1; "argument" := 2; "this" := 3; "that" := 4 ]}.

Definition pointer_dict (is_neg : bool) : string :=
  if is_neg then "-" else "+".

(** [is_neg]: [int(i) < 0], and [False] when [int] raises [ValueError]. *)
Definition is_neg_token (i : string) : bool :=
  match py_int i with
  | Some z => bool_decide (z < 0)
  | None => false
  end.

(** [_pop_push_helper]: the strings that fill a push or pop pattern. *)
Definition _pop_push_helper (self : Translator) : result Translator :=
  mem_segm ← or_raise IndexError (_line self !! 1%nat);
  i ← or_raise IndexError (_line self !! 2%nat);
  let is_neg := is_neg_token i in
  let i := if is_neg then tail_str i else i in
  let static_expr : pop_push_expr := (Some (_class_name self), Some i, None) in
  let temp_expr : pop_push_expr := (Some i, None, None) in
  let pointer_expr : pop_push_expr := (Some i, Some (pointer_dict is_neg), None) in
  let loc_expr : pop_push_expr :=
    (Some (str_opt (pretty <$> loc_dict !! mem_segm)), Some i,
     Some (pointer_dict is_neg)) in
  let const_expr : pop_push_expr := (Some i, None, None) in
  let op_dict : gmap string pop_push_expr :=
    {[ "static" := static_expr; "temp" := temp_expr; "pointer" := pointer_expr;
       "local" := loc_expr; "argument" := loc_expr; "this" := loc_expr;
       "that" := loc_expr; "constant" := const_expr ]} in
  e ← or_raise KeyError (op_dict !! mem_segm);
  Ok (set_pop_push_expr e self).

(** ** The translating functions that fill one pattern *)

Definition newline : string := "
".

Definition _pop_push (self : Translator) (raw_code : string) : result string :=
  e ← or_raise IndexError (_pop_push_expr self);
  let variables : kwargs :=
    [("var_1", str_opt e.1.1); ("var_2", str_opt e.1.2); ("var_3", str_opt e.2)] in
  formatted_code ← format raw_code variables;
  Ok (formatted_code +:+ newline).

Definition _add_sub_or_and (self : Translator) (raw_code : string) : result string :=
  let op_dict : gmap string string :=
    {[ "add" := "+"; "sub" := "-"; "or" := "|"; "and" := "&" ]} in
  op ← or_raise KeyError (op_dict !! _cmd self);
  formatted_code ← format raw_code [("var_1", op)];
  Ok (formatted_code +:+ newline).

Definition _neg_not (self : Translator) (raw_code : string) : result string :=
  let op_dict : gmap string string := {[ "neg" := "-"; "not" := "!" ]} in
  op ← or_raise KeyError (op_dict !! _cmd self);
  formatted_code ← format raw_code [("var_1", op)];
  Ok (formatted_code +:+ newline).

(** The keyword arguments [_lt_eq_gt] passes to [format], given the jump
    mnemonic and the value of the command's counter after its increment. *)
Definition lt_eq_gt_kwargs (cmd jump : string) (counter : Z) : kwargs :=
  [("var_1", upper cmd); ("var_2", jump); ("var_3", pretty (counter - 1))].

Definition _lt_eq_gt (self : Translator) (raw_code : string) (st : state)
  : result (state * string) :=
  let op_dict : gmap string string :=
    {[ "lt" := "JGT"; "eq" := "JEQ"; "gt" := "JLT" ]} in
  (* increment the global counter *)
  n ← or_raise KeyError (_lt_eq_gt_counter st !! _cmd self);
  let st := set_counter (<[ _cmd self := n + 1 ]> (_lt_eq_gt_counter st)) st in
  jump ← or_raise KeyError (op_dict !! _cmd self);
  counter ← or_raise KeyError (_lt_eq_gt_counter st !! _cmd self);
  formatted_code ← format raw_code (lt_eq_gt_kwargs (_cmd self) jump counter);
  Ok (st, formatted_code +:+ newline).

Definition _label_goto_if_goto (self : Translator) (raw_code : string)
  : result string :=
  lbl_name ← or_raise IndexError (_line self !! 1%nat);
  formatted_code ← format raw_code [("var_1", lbl_name)];
  Ok (formatted_code +:+ newline).

(** ** The translating functions that expand into other commands *)

(** The loop that closes [_function], [_call] and [_return]: every line of
    [cmd_lst] gets a [Translator] of its own, with the default class name and
    index, and is translated by [tr]. *)
Fixpoint translate_lines (tr : state → Translator → result state)
    (cmd_lst : list (list string)) (st : state) : result state :=
  match cmd_lst with
  | [] => Ok st
  | line :: cmd_lst' =>
      line_translator ← __init__ line "" 0;
      st' ← tr st line_translator;
      translate_lines tr cmd_lst' st'
  end.

(** [cmd_lst] of [_function] *)
Definition function_cmd_lst (self : Translator) : result (list (list string)) :=
  tok ← or_raise IndexError (_line self !! 2%nat);
  i ← or_raise ValueError (py_int tok);
  func_name ← or_raise IndexError (_line self !! 1%nat);
  Ok (["label"; func_name] :: replicate (Z.to_nat i) ["push"; "constant"; "0"]).

Definition _function (tr : state → Translator → result state)
    (self : Translator) (st : state) : result (state * string) :=
  cmd_lst ← function_cmd_lst self;
  st' ← translate_lines tr cmd_lst st;
  Ok (st', "").

(** [cmd_lst] of [_call] *)
Definition call_cmd_lst (self : Translator) : result (list (list string)) :=
  func_name ← or_raise IndexError (_line self !! 1%nat);
  num_args ← or_raise IndexError (_line self !! 2%nat);
  let return_idx := _idx self + 1 in
  Ok ([["push"; "constant"; "RETURN_" +:+ pretty return_idx]]
      (* push local, argument, this, that *)
      ++ ((λ i : Z, ["push"; "pointer"; pretty i]) <$> seqZ (-2) 4)
      (* argument = SP - 5 - <num_args> *)
      ++ [["push"; "pointer"; "-3"];
          ["push"; "constant"; "5"];
          ["sub"];
          ["push"; "constant"; num_args];
          ["sub"];
          ["pop"; "pointer"; "-1"]]
      (* local = SP *)
      ++ [["push"; "pointer"; "-3"];
          ["pop"; "pointer"; "-2"]]
      ++ [["goto"; func_name]]
      ++ [["label"; "RETURN_" +:+ pretty return_idx]])%list.

Definition _call (tr : state → Translator → result state)
    (self : Translator) (st : state) : result (state * string) :=
  cmd_lst ← call_cmd_lst self;
  st' ← translate_lines tr cmd_lst st;
  Ok (st', "").

Definition sp_addr : Z := 14.
Definition ret_addr : Z := 15.

(** [cmd_lst] of [_return] *)
Definition return_cmd_lst : list (list string) :=
  (* R<ret_addr> = *(local - 5) *)
  ([["push"; "local"; "-5"];
   ["pop"; "pointer"; pretty (ret_addr - 3)]]
  (* *argument = pop() *)
  ++ [["pop"; "argument"; "0"]]
  (* R<sp_addr> = argument + 1 *)
  ++ [["push"; "pointer"; "-1"];
      ["push"; "constant"; "1"];
      ["add"];
      ["pop"; "pointer"; pretty (sp_addr - 3)]]
  (* that = *(local - 1) *)
  ++ [["push"; "local"; "-1"];
      ["pop"; "pointer"; "1"]]
  (* this = *(local - 2) *)
  ++ [["push"; "local"; "-2"];
      ["pop"; "pointer"; "0"]]
  (* argument = *(local - 3) *)
  ++ [["push"; "local"; "-3"];
      ["pop"; "pointer"; "-1"]]
  (* local = *(local - 4) *)
  ++ [["push"; "local"; "-4"];
      ["pop"; "pointer"; "-2"]]
  (* SP = R<sp_addr> *)
  ++ [["push"; "pointer"; pretty (sp_addr - 3)];
      ["pop"; "pointer"; "-3"]])%list.

Definition _return (tr : state → Translator → result state)
    (self : Translator) (raw_code : string) (st : state) : result (state * string) :=
  st' ← translate_lines tr return_cmd_lst st;
  formatted_code ← format raw_code [("var_1", pretty ret_addr)];
  Ok (st', formatted_code +:+ newline).

(** ** Dispatch *)

(** [op_func.__name__]: a data attribute (a string or a dictionary) has no
    name. *)
Definition attr_name (a : attr) : result string :=
  match a with
  | A_pop_push => Ok "_pop_push"
  | A_add_sub_or_and => Ok "_add_sub_or_and"
  | A_neg_not => Ok "_neg_not"
  | A_lt_eq_gt => Ok "_lt_eq_gt"
  | A_label_goto_if_goto => Ok "_label_goto_if_goto"
  | A_function => Ok "_function"
  | A_call => Ok "_call"
  | A_return => Ok "_return"
  | A_method name => Ok name
  | A_data _ => Err AttributeError
  end.

Definition no_state (st : state) (r : result string) : result (state * string) :=
  code ← r; Ok (st, code).

(** [op_func(self, raw_code)].  The methods that are not translating
    functions do not take these arguments ([TypeError]); [__init__] takes
    them, indexes [raw_code] and returns [None], which the caller cannot
    append to the output. *)
Definition call_attr (tr : state → Translator → result state) (op_func : attr)
    (self : Translator) (raw_code : string) (st : state) : result (state * string) :=
  match op_func with
  | A_pop_push => no_state st (_pop_push self raw_code)
  | A_add_sub_or_and => no_state st (_add_sub_or_and self raw_code)
  | A_neg_not => no_state st (_neg_not self raw_code)
  | A_lt_eq_gt => _lt_eq_gt self raw_code st
  | A_label_goto_if_goto => no_state st (_label_goto_if_goto self raw_code)
  | A_function => _function tr self st
  | A_call => _call tr self st
  | A_return => _return tr self raw_code st
  | A_method name =>
      if decide (name = "__init__") then
        if decide (raw_code = "") then Err IndexError else Err TypeError
      else Err TypeError
  | A_data _ => Err TypeError
  end.

Definition loc_segments : list string := ["local"; "argument"; "this"; "that"].

(** The pattern a command is translated with. *)
Definition pattern_name_of (self : Translator) (func_name : string) : result string :=
  if bool_decide (_cmd self ∈ ["pop"; "push"]) then
    segm ← or_raise IndexError (_line self !! 1%nat);
    Ok (if bool_decide (segm ∉ loc_segments)
        then "_" +:+ _cmd self +:+ " " +:+ segm
        else "_" +:+ _cmd self +:+ " loc")
  else if bool_decide (_cmd self ∈ ["label"; "goto"; "if-goto"]) then
    Ok ("_" +:+ _cmd self)
  else Ok func_name.

(** The body of [translate], with [tr] standing for the calls of [translate]
    made by [_function], [_call] and [_return]. *)
Definition translate_body (tr : state → Translator → result state)
    (st : state) (self : Translator) : result state :=
  (* creating a comment *)
  let st := if bool_decide (_cmd self ≠ "label") then _make_comm self st else st in
  (* determine the right function for the current command *)
  op_func ← or_raise KeyError (_func_mappings st !! _cmd self);
  func_name ← attr_name op_func;
  (* getting corresponding pattern name *)
  pattern_name ← pattern_name_of self func_name;
  (* getting specific strings for pop and push operations *)
  self ← (if bool_decide (_cmd self ∈ ["pop"; "push"])
          then _pop_push_helper self else Ok self);
  (* loading code from the pattern *)
  raw_code ← or_raise KeyError (_code_patterns st !! pattern_name);
  (* getting translation from the function *)
  r ← call_attr tr op_func self raw_code st;
  (* updating output *)
  Ok (emit r.2 r.1).

(** [translate].  [depth] bounds how deeply calls of [translate] may nest,
    as Python's recursion limit does. *)
Fixpoint translate (depth : nat) (st : state) (self : Translator) : result state :=
  match depth with
  | O => Err RecursionError
  | S depth' => translate_body (translate depth') st self
  end.

(** ** The driver *)

(** [name.split('.')[0]] *)
Fixpoint before_dot (name : string) : string :=
  match name with
  | EmptyString => EmptyString
  | String c name' =>
      if decide (c = "."%char) then EmptyString else String c (before_dot name')
  end.

(** [enumerate(l)], counting from [idx]. *)
Fixpoint enumerate_from {A} (idx : Z) (l : list A) : list (Z * A) :=
  match l with
  | [] => []
  | x :: l' => (idx, x) :: enumerate_from (idx + 1) l'
  end.

Definition enumerate {A} (l : list A) : list (Z * A) := enumerate_from 0 l.

(** The loop of [main] over [enumerate(parsed_vm)]. *)
Fixpoint main_loop (depth : nat) (st : state) (curr_class : string)
    (lines : list (Z * list string)) : result state :=
  match lines with
  | [] => Ok st
  | (idx, line) :: lines' =>
      cmd ← or_raise IndexError (line !! 0%nat);
      curr_class ← (if decide (cmd = "function")
                    then before_dot <$> or_raise IndexError (line !! 1%nat)
                    else Ok curr_class);
      line_translator ← __init__ line curr_class idx;
      st' ← translate depth st line_translator;
      main_loop depth st' curr_class lines'
  end.

(** [main] from the parsed commands on: the bootstrap jump, the loop, and
    the text that is written to the output file. *)
Definition main (depth : nat) (st : state) (parsed_vm : list (list string))
    (has_init : bool) : result string :=
  let parsed_vm := if has_init then ["goto"; "Sys.init"] :: parsed_vm else parsed_vm in
  let curr_class := if has_init then "Sys" else "" in
  st' ← main_loop depth st curr_class (enumerate parsed_vm);
  Ok (_asm_code st').

(** ** Loading the patterns *)

(** [getattr(cls, name)] for the names the class body defines.  The names
    [Translator] inherits from [object] are not pattern names; for them, as
    for every other name, the answer here is [AttributeError]. *)
Definition getattr (name : string) : result attr :=
  if decide (name = "_pop_push") then Ok A_pop_push
  else if decide (name = "_add_sub_or_and") then Ok A_add_sub_or_and
  else if decide (name = "_neg_not") then Ok A_neg_not
  else if decide (name = "_lt_eq_gt") then Ok A_lt_eq_gt
  else if decide (name = "_label_goto_if_goto") then Ok A_label_goto_if_goto
  else if decide (name = "_function") then Ok A_function
  else if decide (name = "_call") then Ok A_call
  else if decide (name = "_return") then Ok A_return
  else if bool_decide (name ∈ ["__init__"; "create_mappings"; "get_output";
                               "report_state"; "translate"; "_make_comm";
                               "_pop_push_helper"])
  then Ok (A_method name)
  else if bool_decide (name ∈ ["_code_patterns"; "_func_mappings"; "_asm_code";
                               "_lt_eq_gt_counter"])
  then Ok (A_data name)
  else Err AttributeError.

(** The lines of a pattern file that are kept, without their blanks. *)
Fixpoint read_pattern (file : list string) : result string :=
  match file with
  | [] => Ok ""
  | line :: file' =>
      c ← or_raise IndexError (head (list_ascii_of_string line));
      rest ← read_pattern file';
      Ok (if bool_decide (c ∉ ["/"; "010"; " "]%char)
          then remove_spaces line +:+ rest else rest)
  end.

(** The function a pattern belongs to and the commands it serves. *)
Definition pattern_commands (pattern_name : string) : result (string * list string) :=
  if existsb (λ cmd, contains cmd pattern_name) ["pop"; "push"] then
    w ← or_raise IndexError (head (split_ws pattern_name));
    Ok ("_pop_push", [tail_str w])
  else if existsb (λ cmd, contains cmd pattern_name) ["label"; "goto"; "if-goto"] then
    Ok ("_label_goto_if_goto", [tail_str pattern_name])
  else
    Ok (pattern_name, List.filter nonempty (split_char "_" pattern_name)).

(** linking all the detected commands to their function *)
Fixpoint link_commands (func_name : string) (cmd_lst : list string)
    (m : gmap string attr) : result (gmap string attr) :=
  match cmd_lst with
  | [] => Ok m
  | command :: cmd_lst' =>
      f ← getattr func_name;
      link_commands func_name cmd_lst' (<[ command := f ]> m)
  end.

(** [create_mappings] over the listing of the pattern directory: each entry
    is a file name with the lines of the file, every line ending with its
    line break as Python hands it out. *)
Fixpoint create_mappings (dir : list (string * list string)) (st : state)
  : result state :=
  match dir with
  | [] => Ok st
  | (filename, file) :: dir' =>
      if endswith filename ".txt" then
        pattern_code ← read_pattern file;
        let pattern_name := splitext_root filename in
        let patterns := <[ pattern_name := pattern_code ]> (_code_patterns st) in
        pc ← pattern_commands pattern_name;
        mappings ← link_commands pc.1 pc.2 (_func_mappings st);
        create_mappings dir'
          {| _code_patterns := patterns; _func_mappings := mappings;
             _asm_code := _asm_code st;
             _lt_eq_gt_counter := _lt_eq_gt_counter st |}
      else create_mappings dir' st
  end.

(** ** A pattern directory

    Modelled from the spec: the pattern files of the repository (directory
    [patterns/]) are not part of the sources at hand.  The spec describes
    them as text blocks with at most three named placeholders, whose comment
    and blank lines are ignored.  [pattern_dir] is such a directory, one
    file per pattern name that [translate] can ask for, written for the Hack
    platform the way the translating functions fill the placeholders.  It
    serves as the concrete table of the examples; the general statements
    below hold for every table. *)

(** The lines of a file, each with its line break. *)
Definition file_lines (ls : list string) : list string :=
  (λ l, l +:+ newline) <$> ls.

Definition push_D : list string :=
  ["@SP"; "A=M"; "M=D"; "@SP"; "M=M+1"].

Definition pop_to_R13_address : list string :=
  ["@R13"; "M=D"; "@SP"; "AM=M-1"; "D=M"; "@R13"; "A=M"; "M=D"].

Definition pattern_dir : list (string * list string) :=
  [ ("_push constant.txt",
     file_lines (["// push constant <var_1>"; "@{var_1}"; "D=A"] ++ push_D));
    ("_push loc.txt",
     file_lines (["@{var_1}"; "D=M"; "@{var_2}"; "A=D{var_3}A"; "D=M"] ++ push_D));
    ("_pop loc.txt",
     file_lines (["@{var_1}"; "D=M"; "@{var_2}"; "D=D{var_3}A"] ++ pop_to_R13_address));
    ("_push pointer.txt",
     file_lines (["@3"; "D=A"; "@{var_1}"; "A=D{var_2}A"; "D=M"] ++ push_D));
    ("_pop pointer.txt",
     file_lines (["@3"; "D=A"; "@{var_1}"; "D=D{var_2}A"] ++ pop_to_R13_address));
    ("_push temp.txt",
     file_lines (["@5"; "D=A"; "@{var_1}"; "A=D+A"; "D=M"] ++ push_D));
    ("_pop temp.txt",
     file_lines (["@5"; "D=A"; "@{var_1}"; "D=D+A"] ++ pop_to_R13_address));
    ("_push static.txt",
     file_lines (["@{var_1}.{var_2}"; "D=M"] ++ push_D));
    ("_pop static.txt",
     file_lines ["@SP"; "AM=M-1"; "D=M"; "@{var_1}.{var_2}"; "M=D"]);
    ("_add_sub_or_and.txt",
     file_lines ["@SP"; "AM=M-1"; "D=M"; "A=A-1"; "M=M{var_1}D"]);
    ("_neg_not.txt",
     file_lines ["@SP"; "A=M-1"; "M={var_1}M"]);
    ("_lt_eq_gt.txt",
     file_lines ["@SP"; "AM=M-1"; "D=M"; "A=A-1"; "D=D-M";
                 "@{var_1}_TRUE_{var_3}"; "D;{var_2}";
                 "@SP"; "A=M-1"; "M=0";
                 "@{var_1}_END_{var_3}"; "0;JMP";
                 "({var_1}_TRUE_{var_3})";
                 "@SP"; "A=M-1"; "M=-1";
                 "({var_1}_END_{var_3})"]);
    ("_label.txt", file_lines ["({var_1})"]);
    ("_goto.txt", file_lines ["@{var_1}"; "0;JMP"]);
    ("_if-goto.txt", file_lines ["@SP"; "AM=M-1"; "D=M"; "@{var_1}"; "D;JNE"]);
    ("_function.txt", file_lines ["// expanded into label and push commands"]);
    ("_call.txt", file_lines ["// expanded into push, pop, sub, goto and label commands"]);
    ("_return.txt", file_lines ["@R{var_1}"; "A=M"; "0;JMP"]);
    ("README.md", file_lines ["not a pattern"]) ]%list.

(** The class after [create_mappings] has read [pattern_dir]. *)
Definition loaded : state :=
  match create_mappings pattern_dir class_init with
  | Ok st => st
  | Err _ => class_init
  end.

(** ** What the claims speak about *)

(** The run of [main]'s loop, remembered: every [Translator] the loop
    builds, with the class state its [translate] leaves behind. *)
Fixpoint main_trace (depth : nat) (st : state) (curr_class : string)
    (lines : list (Z * list string)) : result (list (Translator * state)) :=
  match lines with
  | [] => Ok []
  | (idx, line) :: lines' =>
      cmd ← or_raise IndexError (line !! 0%nat);
      curr_class ← (if decide (cmd = "function")
                    then before_dot <$> or_raise IndexError (line !! 1%nat)
                    else Ok curr_class);
      line_translator ← __init__ line curr_class idx;
      st' ← translate depth st line_translator;
      rest ← main_trace depth st' curr_class lines';
      Ok ((line_translator, st') :: rest)
  end.

Definition comparisons : list string := ["lt"; "eq"; "gt"].

(** The number each comparison of a run puts into its labels: [var_3] of
    [_lt_eq_gt], the command's counter after the increment, less one. *)
Definition label_indices (trace : list (Translator * state)) : list Z :=
  omap (λ p : Translator * state,
          if bool_decide (_cmd p.1 ∈ comparisons)
          then (λ n, n - 1) <$> _lt_eq_gt_counter p.2 !! _cmd p.1
          else None) trace.

(** How often [cmd] is the command of a line. *)
Definition occurrences (cmd : string) (lines : list (list string)) : Z :=
  Z.of_nat (length (List.filter (λ l, bool_decide (head l = Some cmd)) lines)).

(** The call sites of a program: its [call] lines with their index. *)
Definition call_sites (parsed_vm : list (list string)) : list (Z * list string) :=
  List.filter (λ p : Z * list string, bool_decide (head p.2 = Some "call"))
    (enumerate parsed_vm).

(** How many lines of the text [out] are the line [line]. *)
Definition count_lines (line out : string) : nat :=
  length (List.filter (λ l, bool_decide (l = line)) (split_char "010" out)).

(** The class state with other text in [_asm_code]. *)
Definition with_asm (a : string) (st : state) : state :=
  {| _code_patterns := _code_patterns st;
     _func_mappings := _func_mappings st;
     _asm_code := a;
     _lt_eq_gt_counter := _lt_eq_gt_counter st |}.

(** The text one command adds: its translation onto an empty output. *)
Definition block (depth : nat) (st : state) (self : Translator) : result string :=
  _asm_code <$> translate depth (with_asm "" st) self.

(** The text a list of synthesized commands adds, one after the other. *)
Definition blocks (depth : nat) (st : state) (cmd_lst : list (list string))
  : result string :=
  _asm_code <$> translate_lines (translate depth) cmd_lst (with_asm "" st).

(** The [variables] that a function which fills one pattern passes to
    [format], for the instance [self] and the class state [st] it is called
    with. *)
Definition pattern_kwargs (f : attr) (self : Translator) (st : state)
  : result kwargs :=
  match f with
  | A_pop_push =>
      e ← or_raise IndexError (_pop_push_expr self);
      Ok [("var_1", str_opt e.1.1); ("var_2", str_opt e.1.2);
          ("var_3", str_opt e.2)]
  | A_add_sub_or_and =>
      let op_dict : gmap string string :=
        {[ "add" := "+"; "sub" := "-"; "or" := "|"; "and" := "&" ]} in
      op ← or_raise KeyError (op_dict !! _cmd self);
      Ok [("var_1", op)]
  | A_neg_not =>
      let op_dict : gmap string string := {[ "neg" := "-"; "not" := "!" ]} in
      op ← or_raise KeyError (op_dict !! _cmd self);
      Ok [("var_1", op)]
  | A_lt_eq_gt =>
      let op_dict : gmap string string :=
        {[ "lt" := "JGT"; "eq" := "JEQ"; "gt" := "JLT" ]} in
      n ← or_raise KeyError (_lt_eq_gt_counter st !! _cmd self);
      jump ← or_raise KeyError (op_dict !! _cmd self);
      Ok (lt_eq_gt_kwargs (_cmd self) jump (n + 1))
  | A_label_goto_if_goto =>
      lbl_name ← or_raise IndexError (_line self !! 1%nat);
      Ok [("var_1", lbl_name)]
  | _ => Err TypeError
  end.

(** The comment line [translate] starts with. *)
Definition comment_of (self : Translator) : string :=
  if bool_decide (_cmd self ≠ "label")
  then "// " +:+ join " " (_line self) +:+ newline else "".

(** *** Registers

    [_return] keeps the return address in register [ret_addr] and reaches
    it as [pointer <ret_addr - 3>]: the [pointer] patterns count from
    register 3, adding the offset [var_1] with the sign [var_2].  The
    stack pointer is register 0 ([pointer -3]), and [loc_dict] names the
    registers that hold the bases of [local], [argument], [this] and
    [that]. *)
Definition pointer_base : Z := 3.

Definition signed (sign : string) (n : Z) : option Z :=
  if decide (sign = "+") then Some n
  else if decide (sign = "-") then Some (- n) else None.

(** The register a [pointer] command with this expression reaches. *)
Definition pointer_register (e : pop_push_expr) : option Z :=
  match e with
  | (Some i, Some sign, _) => n ← py_int i; d ← signed sign n; Some (pointer_base + d)
  | _ => None
  end.

(** The expression [_pop_push_helper] prepares for a synthesized command. *)
Definition helper_expr (line : list string) : option pop_push_expr :=
  match __init__ line "" 0 ≫= _pop_push_helper with
  | Ok self => _pop_push_expr self
  | Err _ => None
  end.

(** The register whose value a synthesized command pushes. *)
Definition pushed_register (line : list string) : option Z :=
  match line with
  | ["push"; "pointer"; _] => helper_expr line ≫= pointer_register
  | _ => None
  end.

(** The register a synthesized command pops the top of the stack into. *)
Definition popped_register (line : list string) : option Z :=
  match line with
  | ["pop"; "pointer"; _] => helper_expr line ≫= pointer_register
  | _ => None
  end.

(** For a push from [local], [argument], [this] or [that]: the register
    that holds the base and the displacement from it. *)
Definition pushed_cell (line : list string) : option (Z * Z) :=
  match line with
  | ["push"; segm; _] =>
      match helper_expr line with
      | Some (Some _, Some i, Some sign) =>
          base ← loc_dict !! segm; n ← py_int i; d ← signed sign n; Some (base, d)
      | _ => None
      end
  | _ => None
  end.

(** *** Expansion *)

Definition expanding (a : attr) : bool :=
  match a with
  | A_function | A_call | A_return => true
  | _ => false
  end.

Definition primitive_opcodes : list string :=
  ["label"; "push"; "pop"; "goto"; "add"; "sub"].

Definition primitive (line : list string) : Prop :=
  ∃ cmd, head line = Some cmd ∧ cmd ∈ primitive_opcodes.

(** The dispatch table sends no primitive command to an expanding
    function. *)
Definition dispatch_ok (m : gmap string attr) : Prop :=
  ∀ cmd f, cmd ∈ primitive_opcodes → m !! cmd = Some f → expanding f = false.

(** Two class states with the same pattern and dispatch tables. *)
Definition same_tables (st st' : state) : Prop :=
  _code_patterns st' = _code_patterns st ∧ _func_mappings st' = _func_mappings st.

(** The class state with [a] put in front of its output. *)
Definition prepend (a : string) (st : state) : state :=
  with_asm (a +:+ _asm_code st) st.

(** [tr] treats the output as text to append to, and nothing else. *)
Definition appends_only (tr : state → Translator → result state) : Prop :=
  ∀ a st self, tr (prepend a st) self = prepend a <$> tr st self.

(** The result is not the exhaustion of the nesting depth. *)
Definition shallow {A} (r : result A) : Prop := r ≠ Err RecursionError.

(** The pattern of a push or pop on segment [segm]. *)
Definition pop_push_pattern (cmd segm : string) : string :=
  if bool_decide (segm ∉ loc_segments)
  then "_" +:+ cmd +:+ " " +:+ segm
  else "_" +:+ cmd +:+ " loc".

(** The positions of the commands of [cmd_lst] that satisfy [p]. *)
Definition positions (p : list string → bool) (cmd_lst : list (list string))
  : list nat :=
  fst <$> List.filter (λ x : nat * list string, p x.2) (imap pair cmd_lst).

(** The command pops into register [reg]. *)
Definition writes_register (reg : option Z) (line : list string) : bool :=
  bool_decide (is_Some reg ∧ popped_register line = reg).

(** The command pushes the value of register [reg]. *)
Definition copies_register (reg : option Z) (line : list string) : bool :=
  bool_decide (is_Some reg ∧ pushed_register line = reg).

(** The command pushes a cell that it finds from the base in register
    [reg]. *)
Definition reads_through (reg : option Z) (line : list string) : bool :=
  bool_decide (is_Some reg ∧ fst <$> pushed_cell line = reg).

(** The comparisons are sent to [_lt_eq_gt], and only comparisons are
    counted. *)
Definition counting_ok (st : state) : Prop :=
  (∀ c, c ∈ comparisons → _func_mappings st !! c = Some A_lt_eq_gt)
  ∧ (∀ c, is_Some (_lt_eq_gt_counter st !! c) → c ∈ comparisons).

(** ** The parser *)

(** [Parser._remove_comm_]: the line up to its first slash. *)
Fixpoint _remove_comm_ (line : string) : string :=
  match line with
  | EmptyString => EmptyString
  | String c line' =>
      if decide (c = "/"%char) then EmptyString
      else String c (_remove_comm_ line')
  end.

(** [Parser.parse], and what [Parser.output] then gives. *)
Definition parse (line_str : string) : list string :=
  split_ws (_remove_comm_ line_str).

(** The body of the loop of [vm_parser] over the lines of a file: [acc] is
    the pair of [parsed_vm] and [has_init]. *)
Definition vm_parser_line (line : string) (acc : list (list string) * bool)
  : result (list (list string) * bool) :=
  let parsed_line := parse line in
  (* if it is an instruction, add it to the output *)
  if bool_decide (0 < length parsed_line)%nat then
    let parsed_vm := (acc.1 ++ [parsed_line])%list in
    (* put a flag if .init function is detected *)
    first ← or_raise IndexError (parsed_line !! 0%nat);
    if decide (first = "function") then
      second ← or_raise IndexError (parsed_line !! 1%nat);
      Ok (parsed_vm, if decide (second = "Sys.init") then true else acc.2)
    else Ok (parsed_vm, acc.2)
  else Ok acc.

Fixpoint vm_parser_file (file : list string) (acc : list (list string) * bool)
  : result (list (list string) * bool) :=
  match file with
  | [] => Ok acc
  | line :: file' =>
      acc' ← vm_parser_line line acc;
      vm_parser_file file' acc'
  end.

(** The loop of [vm_parser] over the listing of the directory: an entry is
    a name with, when it is a regular file, the lines of the file. *)
Fixpoint vm_parser_dir (dir : list (string * option (list string)))
    (acc : list (list string) * bool) : result (list (list string) * bool) :=
  match dir with
  | [] => Ok acc
  | (_, Some file) :: dir' =>
      acc' ← vm_parser_file file acc;
      vm_parser_dir dir' acc'
  | (_, None) :: dir' => vm_parser_dir dir' acc
  end.

(** [vm_parser] *)
Definition vm_parser (dir : list (string * option (list string)))
  : result (list (list string) * bool) :=
  vm_parser_dir dir ([], false).

(** [main], from the two directories to the text of the output file. *)
Definition main_script (depth : nat) (patterns : list (string * list string))
    (vm_dir : list (string * option (list string))) : result string :=
  st ← create_mappings patterns class_init;
  parsed ← vm_parser vm_dir;
  main depth st parsed.1 parsed.2.

(** Every character of [s] satisfies [r]. *)
Definition all_chars (r : ascii → bool) (s : string) : bool :=
  forallb r (list_ascii_of_string s).

Definition not_space (c : ascii) : bool := negb (is_py_space c).

Definition not_slash (c : ascii) : bool := negb (bool_decide (c = "/"%char)).

(** A word as the parser hands it out: not empty, without white space and
    without a slash. *)
Definition clean_token (t : string) : bool :=
  nonempty t && all_chars not_space t && all_chars not_slash t.

(** The line declares the entry function. *)
Definition declares_init (line : list string) : bool :=
  bool_decide (take 2 line = ["function"; "Sys.init"]).


(** What holds of [parsed_vm] and [has_init] all along [vm_parser]. *)
Definition parsed_ok (acc : list (list string) * bool) : Prop :=
  Forall (λ l, l ≠ [] ∧ Forall (λ t, clean_token t = true) l
               ∧ (head l = Some "function" → is_Some (l !! 1%nat))) acc.1
  ∧ acc.2 = existsb declares_init acc.1.

(** The lines of the regular files of a directory, in the order of the
    listing. *)
Definition all_lines (dir : list (string * option (list string))) : list string :=
  mjoin ((λ e : string * option (list string), default [] e.2) <$> dir).

(** [curr_class] of [main] after the loop has gone through [lines]: the
    class of the last line that starts with [function], and the class the
    loop started with when there is none. *)
Fixpoint class_after (curr_class : string) (lines : list (list string)) : string :=
  match lines with
  | [] => curr_class
  | line :: lines' =>
      class_after
        (if decide (head line = Some "function")
         then default curr_class (before_dot <$> line !! 1%nat)
         else curr_class)
        lines'
  end.

(** *** Templates *)




(** * Properties

    Helper lemmas first (the monad, the tables, the output, nesting depth),
    then one theorem per claim of the specification, named C1 to C10 in the
    comment that precedes it. *)

(** ** Strings and results *)

Lemma append_assoc (a b c : string) : (a +:+ b) +:+ c = a +:+ (b +:+ c).
Proof.
  induction a as [|x a IH]; [done|].
  unfold String.app in *. simpl. by rewrite IH.
Qed.

Lemma append_nil_r (a : string) : a +:+ "" = a.
Proof.
  induction a as [|x a IH]; [done|].
  unfold String.app in *. simpl. by rewrite IH.
Qed.

Lemma append_cons c (a b : string) : String c a +:+ b = String c (a +:+ b).
Proof. done. Qed.

Lemma all_chars_cons r c s : all_chars r (String c s) = r c && all_chars r s.
Proof. done. Qed.

Lemma bind_Ok {A B} (m : result A) (f : A → result B) (b : B) :
  m ≫= f = Ok b ↔ ∃ a, m = Ok a ∧ f a = Ok b.
Proof.
  destruct m as [a|e]; simpl; split.
  - intros H. by exists a.
  - by intros (? & [= <-] & ?).
  - done.
  - by intros (? & ? & ?).
Qed.

Lemma fmap_Ok {A B} (m : result A) (f : A → B) (b : B) :
  f <$> m = Ok b ↔ ∃ a, m = Ok a ∧ b = f a.
Proof.
  destruct m as [a|e]; simpl; split.
  - intros [= <-]. by exists a.
  - by intros (? & [= <-] & ->).
  - done.
  - by intros (? & ? & ?).
Qed.

Lemma bind_Ok_l {A B} (a : A) (f : A → result B) : Ok a ≫= f = f a.
Proof. done. Qed.

Lemma bind_Err_l {A B} (e : exn) (f : A → result B) : Err e ≫= f = Err e.
Proof. done. Qed.

Lemma translate_S depth st self :
  translate (S depth) st self = translate_body (translate depth) st self.
Proof. done. Qed.

Lemma translate_lines_cons tr line cmd_lst st :
  translate_lines tr (line :: cmd_lst) st
  = (line_translator ← __init__ line "" 0;
     st' ← tr st line_translator;
     translate_lines tr cmd_lst st').
Proof. done. Qed.

Lemma or_raise_Ok {A} (e : exn) (o : option A) (a : A) :
  or_raise e o = Ok a ↔ o = Some a.
Proof. destruct o; simpl; split; congruence. Qed.

(** Peel the successful steps off a hypothesis [m ≫= f = Ok b]. *)
Ltac ok_steps H :=
  repeat lazymatch type of H with
  | mbind _ _ = Ok _ =>
      let x := fresh "x" in
      let E := fresh "E" in
      apply bind_Ok in H as (x & E & H)
  | fmap _ _ = Ok _ =>
      let x := fresh "x" in
      let E := fresh "E" in
      apply fmap_Ok in H as (x & E & H)
  | Ok _ = Ok _ => injection H as H
  end.

(** The same, for every hypothesis of the context. *)
Ltac ok_all :=
  repeat match goal with
  | H : mbind _ _ = Ok _ |- _ =>
      let x := fresh "x" in
      let E := fresh "E" in
      apply bind_Ok in H as (x & E & H)
  | H : fmap _ _ = Ok _ |- _ =>
      let x := fresh "x" in
      let E := fresh "E" in
      apply fmap_Ok in H as (x & E & H)
  | H : Ok _ = Ok _ |- _ => injection H as H
  end.

(** ** The tables are never written *)

Lemma emit_tables c st : same_tables st (emit c st).
Proof. done. Qed.

Lemma same_tables_trans st1 st2 st3 :
  same_tables st1 st2 → same_tables st2 st3 → same_tables st1 st3.
Proof. unfold same_tables. intros [-> ->] [-> ->]. done. Qed.

Lemma translate_lines_tables tr :
  (∀ st self st', tr st self = Ok st' → same_tables st st') →
  ∀ cmd_lst st st', translate_lines tr cmd_lst st = Ok st' → same_tables st st'.
Proof.
  intros Htr. induction cmd_lst as [|line cmd_lst IH]; intros st st' H; simpl in H.
  - injection H as <-. done.
  - ok_steps H. eapply same_tables_trans; eauto.
Qed.

Lemma call_attr_tables tr op_func self raw_code st r :
  (∀ st self st', tr st self = Ok st' → same_tables st st') →
  call_attr tr op_func self raw_code st = Ok r → same_tables st r.1.
Proof.
  intros Htr H. destruct op_func; simpl in H;
    unfold no_state, _lt_eq_gt, _function, _call, _return in H;
    try (ok_steps H; subst r; simpl;
         eauto using translate_lines_tables; done).
  - repeat case_decide; discriminate.
  - discriminate.
Qed.

Lemma translate_body_tables tr :
  (∀ st self st', tr st self = Ok st' → same_tables st st') →
  ∀ st self st', translate_body tr st self = Ok st' → same_tables st st'.
Proof.
  intros Htr st self st' H. unfold translate_body in H. ok_steps H.
  subst st'.
  match goal with
  | E : call_attr _ _ _ _ _ = Ok _ |- _ => apply call_attr_tables in E; [|done]
  end.
  eapply same_tables_trans; [|eapply same_tables_trans; [eassumption|apply emit_tables]].
  case_bool_decide; done.
Qed.

Lemma translate_tables depth st self st' :
  translate depth st self = Ok st' → same_tables st st'.
Proof.
  revert st self st'. induction depth as [|depth IH]; intros st self st' H.
  - discriminate.
  - simpl in H. eapply translate_body_tables; eauto.
Qed.

(** ** The output is appended to *)

Lemma prepend_emit a c st : prepend a (emit c st) = emit c (prepend a st).
Proof. unfold prepend, emit, with_asm. simpl. by rewrite append_assoc. Qed.

Lemma prepend_with_asm a st : prepend a (with_asm "" st) = with_asm a st.
Proof. unfold prepend, with_asm. simpl. by rewrite append_nil_r. Qed.

Lemma with_asm_id st : with_asm (_asm_code st) st = st.
Proof. by destruct st. Qed.

Lemma emit_empty st : emit "" st = st.
Proof. destruct st. unfold emit. simpl. by rewrite append_nil_r. Qed.


(** Case analysis on the steps of a computation in the goal. *)
Ltac step_cases :=
  repeat match goal with
  | |- context [mbind _ ?m] => destruct m eqn:?; simpl; try done
  end.

Lemma translate_lines_appends tr :
  appends_only tr →
  ∀ cmd_lst a st,
    translate_lines tr cmd_lst (prepend a st)
    = prepend a <$> translate_lines tr cmd_lst st.
Proof.
  intros Htr. induction cmd_lst as [|line cmd_lst IH]; intros a st; simpl; [done|].
  destruct (__init__ line "" 0) as [t|]; simpl; [|done].
  rewrite Htr. destruct (tr st t) as [st'|]; simpl; [|done]. apply IH.
Qed.

Lemma call_attr_appends tr op_func self raw_code a st :
  appends_only tr →
  call_attr tr op_func self raw_code (prepend a st)
  = (λ r, (prepend a r.1, r.2)) <$> call_attr tr op_func self raw_code st.
Proof.
  intros Htr.
  destruct op_func; unfold call_attr;
    unfold no_state, _lt_eq_gt, _function, _call, _return.
  1-5: simpl; by step_cases.
  - destruct (function_cmd_lst self) as [cmd_lst|]; simpl; [|done].
    rewrite (translate_lines_appends tr Htr).
    by destruct (translate_lines tr cmd_lst st).
  - destruct (call_cmd_lst self) as [cmd_lst|]; simpl; [|done].
    rewrite (translate_lines_appends tr Htr).
    by destruct (translate_lines tr cmd_lst st).
  - rewrite (translate_lines_appends tr Htr).
    destruct (translate_lines tr return_cmd_lst st); simpl; [|done].
    by step_cases.
  - repeat case_decide; done.
  - done.
Qed.

Lemma translate_body_appends tr :
  appends_only tr → appends_only (translate_body tr).
Proof.
  intros Htr a st self. unfold translate_body.
  assert ((if bool_decide (_cmd self ≠ "label")
           then _make_comm self (prepend a st) else prepend a st)
          = prepend a (if bool_decide (_cmd self ≠ "label")
                       then _make_comm self st else st)) as ->.
  { case_bool_decide; [|done]. unfold _make_comm. by rewrite prepend_emit. }
  set (st1 := if bool_decide (_cmd self ≠ "label") then _make_comm self st else st).
  change (_func_mappings (prepend a st1)) with (_func_mappings st1).
  change (_code_patterns (prepend a st1)) with (_code_patterns st1).
  destruct (or_raise KeyError (_func_mappings st1 !! _cmd self)) as [f|]; simpl; [|done].
  destruct (attr_name f) as [func_name|]; simpl; [|done].
  destruct (pattern_name_of self func_name) as [pattern_name|]; simpl; [|done].
  destruct (if bool_decide (_cmd self ∈ ["pop"; "push"])
            then _pop_push_helper self else Ok self) as [self'|]; simpl; [|done].
  destruct (or_raise KeyError (_code_patterns st1 !! pattern_name)) as [raw|];
    simpl; [|done].
  rewrite call_attr_appends by done.
  destruct (call_attr tr f self' raw st1) as [r|]; simpl; [|done].
  by rewrite prepend_emit.
Qed.

Lemma translate_appends depth : appends_only (translate depth).
Proof.
  induction depth as [|depth IH]; [done|].
  simpl. by apply translate_body_appends.
Qed.

(** A translation adds its block to the output it finds. *)
Lemma translate_block depth st self :
  translate depth st self
  = (λ st', with_asm (_asm_code st +:+ _asm_code st') st')
      <$> translate depth (with_asm "" st) self.
Proof.
  rewrite <-(with_asm_id st) at 1. rewrite <-prepend_with_asm.
  rewrite translate_appends.
  destruct (translate depth (with_asm "" st) self); done.
Qed.

Lemma translate_lines_block depth cmd_lst st :
  translate_lines (translate depth) cmd_lst st
  = (λ st', with_asm (_asm_code st +:+ _asm_code st') st')
      <$> translate_lines (translate depth) cmd_lst (with_asm "" st).
Proof.
  rewrite <-(with_asm_id st) at 1. rewrite <-prepend_with_asm.
  rewrite (translate_lines_appends _ (translate_appends depth)).
  destruct (translate_lines _ cmd_lst (with_asm "" st)); done.
Qed.

(** ** Expansions are made of primitive commands *)

Ltac solve_elem := apply (bool_decide_unpack _); by vm_compute.

Lemma primitive_intro cmd args :
  cmd ∈ primitive_opcodes → primitive (cmd :: args).
Proof. intros H. by exists cmd. Qed.

Lemma call_cmd_lst_eq self func_name num_args rest :
  _line self = _cmd self :: func_name :: num_args :: rest →
  call_cmd_lst self
  = Ok [["push"; "constant"; "RETURN_" +:+ pretty (_idx self + 1)];
        ["push"; "pointer"; "-2"];
        ["push"; "pointer"; "-1"];
        ["push"; "pointer"; "0"];
        ["push"; "pointer"; "1"];
        ["push"; "pointer"; "-3"];
        ["push"; "constant"; "5"];
        ["sub"];
        ["push"; "constant"; num_args];
        ["sub"];
        ["pop"; "pointer"; "-1"];
        ["push"; "pointer"; "-3"];
        ["pop"; "pointer"; "-2"];
        ["goto"; func_name];
        ["label"; "RETURN_" +:+ pretty (_idx self + 1)]].
Proof. intros H. unfold call_cmd_lst. rewrite H. reflexivity. Qed.

Lemma call_cmd_lst_Ok self cmd_lst :
  call_cmd_lst self = Ok cmd_lst →
  ∃ c func_name num_args rest, _line self = c :: func_name :: num_args :: rest.
Proof.
  unfold call_cmd_lst. intros H.
  destruct (_line self) as [|c [|f [|n rest]]]; try discriminate.
  by exists c, f, n, rest.
Qed.

Lemma function_primitive self cmd_lst :
  function_cmd_lst self = Ok cmd_lst → Forall primitive cmd_lst.
Proof.
  unfold function_cmd_lst. intros H. ok_steps H. subst cmd_lst.
  constructor.
  - apply primitive_intro. solve_elem.
  - apply Forall_replicate, primitive_intro. solve_elem.
Qed.

Lemma call_primitive self cmd_lst :
  call_cmd_lst self = Ok cmd_lst → Forall primitive cmd_lst.
Proof.
  unfold call_cmd_lst. intros H. ok_steps H. subst cmd_lst.
  repeat (apply Forall_cons; split; [apply primitive_intro; solve_elem|]).
  apply Forall_nil_2.
Qed.

Lemma return_primitive : Forall primitive return_cmd_lst.
Proof.
  repeat (apply Forall_cons; split; [apply primitive_intro; solve_elem|]).
  apply Forall_nil_2.
Qed.

(** ** Nesting depth *)

Lemma shallow_bind {A B} (m : result A) (f : A → result B) :
  shallow m → (∀ a, m = Ok a → shallow (f a)) → shallow (m ≫= f).
Proof.
  destruct m as [a|e]; intros Hm Hf; [by apply Hf|].
  unfold shallow in *. simpl. congruence.
Qed.

Lemma shallow_fmap {A B} (m : result A) (f : A → B) :
  shallow m → shallow (f <$> m).
Proof. destruct m; simpl; [done|]. unfold shallow. congruence. Qed.

Lemma shallow_or_raise {A} e (o : option A) :
  e ≠ RecursionError → shallow (or_raise e o).
Proof. destruct o; simpl; unfold shallow; congruence. Qed.

Lemma shallow_Ok {A} (a : A) : shallow (Ok a).
Proof. done. Qed.

Lemma format_go_shallow kw s : ∀ mode, shallow (format_go kw mode s).
Proof.
  induction s as [|c s IH]; intros mode; simpl.
  - destruct mode; done.
  - destruct mode; repeat case_decide; repeat case_match;
      try done; try apply shallow_fmap; try apply IH.
    apply shallow_bind; [by apply shallow_or_raise|]. intros v _.
    apply shallow_bind; [apply IH|]. done.
Qed.

Lemma format_shallow raw_code kw : shallow (format raw_code kw).
Proof. apply format_go_shallow. Qed.

(** Goals [shallow m] for a computation [m] that calls no [translate]. *)
Ltac shallow_steps :=
  repeat first
    [ apply shallow_Ok
    | apply format_shallow
    | apply shallow_or_raise; discriminate
    | apply shallow_fmap
    | apply shallow_bind; [|intros ? _] ].

Lemma call_attr_flat tr1 tr2 f self raw_code st :
  expanding f = false →
  call_attr tr1 f self raw_code st = call_attr tr2 f self raw_code st.
Proof. by destruct f. Qed.

Lemma call_attr_flat_shallow tr f self raw_code st :
  expanding f = false → shallow (call_attr tr f self raw_code st).
Proof.
  destruct f; try discriminate; intros _; simpl;
    unfold no_state, _pop_push, _add_sub_or_and, _neg_not, _lt_eq_gt,
      _label_goto_if_goto;
    try (repeat case_decide; done);
    shallow_steps.
Qed.

Lemma init_cmd line class_name idx self :
  __init__ line class_name idx = Ok self →
  head line = Some (_cmd self) ∧ _line self = line
  ∧ _class_name self = class_name ∧ _idx self = idx
  ∧ _pop_push_expr self = None.
Proof.
  unfold __init__. intros H. ok_steps H. subst self. simpl.
  apply or_raise_Ok in E. by destruct line; simplify_eq/=.
Qed.

Lemma init_shallow line class_name idx : shallow (__init__ line class_name idx).
Proof. unfold __init__. shallow_steps. Qed.

Lemma helper_shallow self : shallow (_pop_push_helper self).
Proof. unfold _pop_push_helper. shallow_steps. Qed.

(** A command whose function does not expand is translated without any
    nested call of [translate]. *)
Lemma translate_body_flat tr1 tr2 st self :
  (∀ f, _func_mappings st !! _cmd self = Some f → expanding f = false) →
  translate_body tr1 st self = translate_body tr2 st self
  ∧ shallow (translate_body tr1 st self).
Proof.
  intros Hflat. unfold translate_body.
  set (st1 := if bool_decide (_cmd self ≠ "label") then _make_comm self st else st).
  assert (_func_mappings st1 = _func_mappings st) as Hm.
  { unfold st1. by case_bool_decide. }
  rewrite Hm.
  destruct (_func_mappings st !! _cmd self) as [f|] eqn:Hf; simpl; [|done].
  specialize (Hflat f eq_refl).
  split.
  - destruct (attr_name f) as [func_name|]; simpl; [|done].
    destruct (pattern_name_of self func_name) as [pattern_name|]; simpl; [|done].
    destruct (if bool_decide (_cmd self ∈ ["pop"; "push"])
              then _pop_push_helper self else Ok self) as [self'|]; simpl; [|done].
    destruct (or_raise KeyError (_code_patterns st1 !! pattern_name)) as [raw|];
      simpl; [|done].
    by rewrite (call_attr_flat tr1 tr2).
  - apply shallow_bind; [destruct f; done|]. intros func_name _.
    apply shallow_bind.
    { unfold pattern_name_of. repeat case_bool_decide; shallow_steps. }
    intros pattern_name _.
    apply shallow_bind; [case_bool_decide; [apply helper_shallow|done]|].
    intros self' _. apply shallow_bind; [shallow_steps|]. intros raw _.
    apply shallow_bind; [by apply call_attr_flat_shallow|]. done.
Qed.

Lemma dispatch_ok_same st st' :
  same_tables st st' → dispatch_ok (_func_mappings st) →
  dispatch_ok (_func_mappings st').
Proof. intros [_ ->]. done. Qed.

(** The commands of an expansion need one level of [translate] each. *)
Lemma translate_lines_depth depth cmd_lst :
  Forall primitive cmd_lst →
  ∀ st, dispatch_ok (_func_mappings st) →
    translate_lines (translate (S depth)) cmd_lst st
    = translate_lines (translate 1) cmd_lst st
    ∧ shallow (translate_lines (translate 1) cmd_lst st).
Proof.
  induction 1 as [|line cmd_lst Hline _ IH]; intros st Hok; [done|].
  rewrite !translate_lines_cons.
  destruct (__init__ line "" 0) as [t|e] eqn:Hinit; rewrite ?bind_Ok_l, ?bind_Err_l.
  2: { split; [done|]. pose proof (init_shallow line "" 0) as Hs.
       rewrite Hinit in Hs. unfold shallow in *. congruence. }
  apply init_cmd in Hinit as (Hhead & _).
  destruct Hline as (cmd & Hcmd & Hprim).
  assert (cmd = _cmd t) as -> by congruence.
  assert (∀ f, _func_mappings st !! _cmd t = Some f → expanding f = false)
    as Hflat by (intros f; by apply Hok).
  rewrite !translate_S.
  destruct (translate_body_flat (translate depth) (translate 0) st t Hflat)
    as [Heq Hsh].
  rewrite Heq.
  destruct (translate_body (translate 0) st t) as [st'|e] eqn:Hst;
    rewrite ?bind_Ok_l, ?bind_Err_l.
  - apply IH. eapply dispatch_ok_same; [|exact Hok].
    apply (translate_tables 1 st t). exact Hst.
  - split; [done|]. rewrite Heq in Hsh. unfold shallow in *. congruence.
Qed.

Lemma call_attr_depth depth f self raw_code st :
  dispatch_ok (_func_mappings st) →
  call_attr (translate (S depth)) f self raw_code st
  = call_attr (translate 1) f self raw_code st
  ∧ shallow (call_attr (translate 1) f self raw_code st).
Proof.
  intros Hok. destruct (expanding f) eqn:Hf.
  2: { split; [by apply call_attr_flat|by apply call_attr_flat_shallow]. }
  destruct f; try discriminate; unfold call_attr, _function, _call, _return.
  - destruct (function_cmd_lst self) as [cmd_lst|e] eqn:Hc;
      rewrite ?bind_Ok_l, ?bind_Err_l.
    + destruct (translate_lines_depth depth cmd_lst
                  (function_primitive _ _ Hc) st Hok) as [-> Hsh].
      split; [done|]. apply shallow_bind; [done|]. done.
    + split; [done|]. unfold function_cmd_lst in Hc.
      assert (shallow (@Err (list (list string)) e)) as Hs.
      { rewrite <-Hc. shallow_steps. }
      unfold shallow in *. congruence.
  - destruct (call_cmd_lst self) as [cmd_lst|e] eqn:Hc;
      rewrite ?bind_Ok_l, ?bind_Err_l.
    + destruct (translate_lines_depth depth cmd_lst
                  (call_primitive _ _ Hc) st Hok) as [-> Hsh].
      split; [done|]. apply shallow_bind; [done|]. done.
    + split; [done|]. unfold call_cmd_lst in Hc.
      assert (shallow (@Err (list (list string)) e)) as Hs.
      { rewrite <-Hc. shallow_steps. }
      unfold shallow in *. congruence.
  - destruct (translate_lines_depth depth return_cmd_lst
                return_primitive st Hok) as [-> Hsh].
    split; [done|]. apply shallow_bind; [done|]. intros st' _. shallow_steps.
Qed.

(** Two levels of [translate] are all that any command needs. *)
Lemma translate_depth depth st self :
  dispatch_ok (_func_mappings st) →
  translate (S (S depth)) st self = translate 2 st self
  ∧ shallow (translate 2 st self).
Proof.
  intros Hok.
  change (translate (S (S depth)) st self)
    with (translate_body (translate (S depth)) st self).
  change (translate 2 st self) with (translate_body (translate 1) st self).
  unfold translate_body.
  set (st1 := if bool_decide (_cmd self ≠ "label") then _make_comm self st else st).
  assert (_func_mappings st1 = _func_mappings st) as Hm.
  { unfold st1. by case_bool_decide. }
  assert (dispatch_ok (_func_mappings st1)) as Hok1 by by rewrite Hm.
  destruct (or_raise KeyError (_func_mappings st1 !! _cmd self)) as [f|e] eqn:Hf;
    rewrite ?bind_Ok_l, ?bind_Err_l.
  2: { split; [done|]. destruct (_func_mappings st1 !! _cmd self); simplify_eq/=.
       done. }
  destruct (attr_name f) as [func_name|e] eqn:Hn;
    rewrite ?bind_Ok_l, ?bind_Err_l.
  2: { split; [done|]. destruct f; simplify_eq/=. done. }
  destruct (pattern_name_of self func_name) as [pattern_name|e] eqn:Hp;
    rewrite ?bind_Ok_l, ?bind_Err_l.
  2: { split; [done|].
       assert (shallow (pattern_name_of self func_name)) as Hs.
       { unfold pattern_name_of. repeat case_bool_decide; shallow_steps. }
       rewrite Hp in Hs. unfold shallow in *. congruence. }
  destruct (if bool_decide (_cmd self ∈ ["pop"; "push"])
            then _pop_push_helper self else Ok self) as [self'|e] eqn:Hh;
    rewrite ?bind_Ok_l, ?bind_Err_l.
  2: { split; [done|]. case_bool_decide; [|done].
       pose proof (helper_shallow self) as Hs. rewrite Hh in Hs.
       unfold shallow in *. congruence. }
  destruct (or_raise KeyError (_code_patterns st1 !! pattern_name)) as [raw|e] eqn:Hr;
    rewrite ?bind_Ok_l, ?bind_Err_l.
  2: { split; [done|]. destruct (_code_patterns st1 !! pattern_name); simplify_eq/=.
       done. }
  destruct (call_attr_depth depth f self' raw st1 Hok1) as [-> Hsh].
  split; [done|]. apply shallow_bind; [done|]. done.
Qed.

(** ** The dispatch table that [create_mappings] builds *)

Lemma getattr_expanding name f :
  getattr name = Ok f → expanding f = true →
  name = "_function" ∨ name = "_call" ∨ name = "_return".
Proof.
  unfold getattr. intros H Hf.
  repeat (case_decide; [simplify_eq/=; by auto|]).
  repeat (case_bool_decide; [by simplify_eq/=|]). done.
Qed.

Lemma insert_dispatch_ok command f m :
  dispatch_ok m →
  (expanding f = true → command ∉ primitive_opcodes) →
  dispatch_ok (<[ command := f ]> m).
Proof.
  intros Hm Hf cmd g Hcmd Hg.
  destruct (decide (command = cmd)) as [->|Hne].
  - rewrite lookup_insert_eq in Hg. injection Hg as <-.
    destruct (expanding f) eqn:E; [|done]. by destruct Hf.
  - rewrite lookup_insert_ne in Hg by done. eauto.
Qed.

Lemma link_commands_dispatch_ok func_name cmd_lst :
  (∀ f, getattr func_name = Ok f → expanding f = true →
        Forall (λ c, c ∉ primitive_opcodes) cmd_lst) →
  ∀ m m', dispatch_ok m → link_commands func_name cmd_lst m = Ok m' →
          dispatch_ok m'.
Proof.
  induction cmd_lst as [|command cmd_lst IH]; intros Hf m m' Hm H; simpl in H.
  - by injection H as <-.
  - ok_steps H. eapply IH; [| |exact H].
    + intros f Hg He. specialize (Hf f Hg He). by inversion Hf.
    + apply insert_dispatch_ok; [done|]. intros He.
      specialize (Hf _ E He). by inversion Hf.
Qed.

Lemma pattern_commands_expanding pattern_name pc f :
  pattern_commands pattern_name = Ok pc →
  getattr pc.1 = Ok f → expanding f = true →
  Forall (λ c, c ∉ primitive_opcodes) pc.2.
Proof.
  unfold pattern_commands. intros H Hg He.
  destruct (existsb _ ["pop"; "push"]).
  { ok_steps H. subst pc. vm_compute in Hg. by simplify_eq. }
  destruct (existsb _ ["label"; "goto"; "if-goto"]).
  { ok_steps H. subst pc. vm_compute in Hg. by simplify_eq. }
  ok_steps H. subst pc. simpl in *.
  destruct (getattr_expanding _ _ Hg He) as [->|[->| ->]];
    (apply Forall_cons; split; [|apply Forall_nil_2]);
    intros Hin; apply (bool_decide_pack _) in Hin; by vm_compute in Hin.
Qed.

(** Whatever the directory holds, the table [create_mappings] builds sends
    the primitive commands to functions that do not expand. *)
Lemma create_mappings_dispatch_ok dir :
  ∀ st st', dispatch_ok (_func_mappings st) →
            create_mappings dir st = Ok st' →
            dispatch_ok (_func_mappings st').
Proof.
  induction dir as [|[filename file] dir IH]; intros st st' Hst H; simpl in H.
  - by injection H as <-.
  - destruct (endswith filename ".txt"); [|eauto].
    ok_steps H. eapply IH; [|exact H]. simpl.
    eapply link_commands_dispatch_ok; [|exact Hst|eassumption].
    intros f. by eapply pattern_commands_expanding.
Qed.

Lemma loaded_eq : create_mappings pattern_dir class_init = Ok loaded.
Proof. by vm_compute. Qed.

(** ** C9 *)

(** C9. Every command that [_function], [_call] or [_return] synthesizes is
    a primitive one (label, push, pop, goto, add, sub), hence none of
    function, call, return; and with a dispatch table that sends the
    primitive commands to functions that do not expand (the only kind of
    table [create_mappings] builds, see [create_mappings_dispatch_ok]),
    [translate] nests at most one level below the command it is called on:
    two levels give the result of any greater depth, and that result is
    never the exhaustion of the depth. *)
Theorem expansion_nesting (st : state) :
  dispatch_ok (_func_mappings st) →
  (∀ self cmd_lst,
     function_cmd_lst self = Ok cmd_lst ∨ call_cmd_lst self = Ok cmd_lst
     ∨ cmd_lst = return_cmd_lst →
     Forall (λ line, ∃ cmd, head line = Some cmd
                            ∧ cmd ∈ ["label"; "push"; "pop"; "goto"; "add"; "sub"]
                            ∧ cmd ∉ ["function"; "call"; "return"]) cmd_lst)
  ∧ (∀ depth self,
       translate (2 + depth) st self = translate 2 st self
       ∧ translate 2 st self ≠ Err RecursionError).
Proof.
  intros Hok. split.
  - intros self cmd_lst H.
    assert (Forall primitive cmd_lst) as Hp.
    { destruct H as [H|[H| ->]];
        eauto using function_primitive, call_primitive, return_primitive. }
    eapply Forall_impl; [exact Hp|].
    intros line (cmd & Hhead & Hcmd). exists cmd. split; [done|].
    split; [exact Hcmd|].
    unfold primitive_opcodes in Hcmd.
    repeat (apply elem_of_cons in Hcmd as [->|Hcmd];
            [intros Hin; apply (bool_decide_pack _) in Hin; by vm_compute in Hin|]).
    by apply elem_of_nil in Hcmd.
  - intros depth self. by apply translate_depth.
Qed.

Lemma expansion_nesting_witness :
  dispatch_ok (_func_mappings loaded)
  ∧ translate (2 + 3) loaded
      (MkTranslator ["call"; "Main.f"; "2"] "Main" "call" 7 None)
    = translate 2 loaded
        (MkTranslator ["call"; "Main.f"; "2"] "Main" "call" 7 None).
Proof.
  assert (dispatch_ok (_func_mappings loaded)) as Hok.
  { intros cmd f Hcmd Hf. unfold primitive_opcodes in Hcmd.
    repeat (apply elem_of_cons in Hcmd as [->|Hcmd];
            [vm_compute in Hf; by injection Hf as <-|]).
    destruct (proj1 (elem_of_nil cmd) Hcmd). }
  split; [exact Hok|].
  exact (proj1 (proj2 (expansion_nesting loaded Hok) 3%nat _)).
Defined.

(** ** [translate], command by command *)

(** From [x ∈ l], one case per element of the list [l]. *)
Ltac elem_cases H :=
  repeat (apply elem_of_cons in H as [H|H]);
  [..|destruct (proj1 (elem_of_nil _) H)].

(** [x ∉ l] and [x ≠ y] from [Hnot : x ∉ l'], for lists of literals. *)
Ltac not_elem Hnot :=
  let Hin := fresh "Hin" in
  intros Hin; apply Hnot;
  first [ rewrite Hin; solve_elem
        | elem_cases Hin; rewrite Hin; solve_elem ].

(** A command that is neither a push or pop nor a label, goto or if-goto:
    the pattern is named after the function. *)
Lemma translate_body_plain tr st self f func_name raw_code :
  _cmd self ∉ ["pop"; "push"; "label"; "goto"; "if-goto"] →
  _func_mappings st !! _cmd self = Some f →
  attr_name f = Ok func_name →
  _code_patterns st !! func_name = Some raw_code →
  translate_body tr st self
  = (r ← call_attr tr f self raw_code (_make_comm self st); Ok (emit r.2 r.1)).
Proof.
  intros Hcmd Hf Hn Hraw. unfold translate_body, pattern_name_of.
  rewrite (bool_decide_eq_true_2 (_cmd self ≠ "label")) by not_elem Hcmd.
  rewrite (bool_decide_eq_false_2 (_cmd self ∈ ["pop"; "push"])) by not_elem Hcmd.
  rewrite (bool_decide_eq_false_2 (_cmd self ∈ ["label"; "goto"; "if-goto"]))
    by not_elem Hcmd.
  change (_func_mappings (_make_comm self st)) with (_func_mappings st).
  change (_code_patterns (_make_comm self st)) with (_code_patterns st).
  rewrite Hf. simpl. rewrite Hn. simpl. rewrite Hraw. done.
Qed.

(** A push or pop. *)
Lemma translate_body_pop_push tr st self segm :
  _cmd self ∈ ["pop"; "push"] →
  _line self !! 1%nat = Some segm →
  _func_mappings st !! _cmd self = Some A_pop_push →
  translate_body tr st self
  = (self' ← _pop_push_helper self;
     raw_code ← or_raise KeyError
                  (_code_patterns st !! pop_push_pattern (_cmd self) segm);
     code ← _pop_push self' raw_code;
     Ok (emit code (_make_comm self st))).
Proof.
  intros Hcmd Hsegm Hf. unfold translate_body, pattern_name_of.
  rewrite (bool_decide_eq_true_2 (_cmd self ≠ "label"))
    by (intros E; rewrite E in Hcmd; elem_cases Hcmd; discriminate).
  rewrite (bool_decide_eq_true_2 (_cmd self ∈ ["pop"; "push"])) by done.
  change (_func_mappings (_make_comm self st)) with (_func_mappings st).
  change (_code_patterns (_make_comm self st)) with (_code_patterns st).
  rewrite Hf, Hsegm. simpl. fold (pop_push_pattern (_cmd self) segm).
  destruct (_pop_push_helper self) as [self'|]; simpl; [|done].
  destruct (_code_patterns st !! _) as [raw_code|]; simpl; [|done].
  unfold no_state. by destruct (_pop_push self' raw_code).
Qed.

(** ** C1 *)

Lemma foldl_Err {A} (f : result state → A → result state) e l :
  (∀ x, f (Err e) x = Err e) → foldl f (Err e) l = Err e.
Proof. intros Hf. induction l as [|x l IH]; simpl; [done|]. by rewrite Hf. Qed.

(** The loop of an expansion is a fold of [tr] over the commands, each
    with a [Translator] of its own. *)
Lemma translate_lines_foldl tr cmd_lst :
  ∀ st,
    translate_lines tr cmd_lst st
    = foldl (λ (acc : result state) (line : list string),
               st0 ← acc;
               line_translator ← __init__ line "" 0;
               tr st0 line_translator)
        (Ok st) cmd_lst.
Proof.
  induction cmd_lst as [|line cmd_lst IH]; intros st; [done|].
  rewrite translate_lines_cons. cbn [foldl]. rewrite bind_Ok_l.
  destruct (__init__ line "" 0) as [t|e];
    [|rewrite !bind_Err_l, foldl_Err; [reflexivity|intros; reflexivity]].
  rewrite !bind_Ok_l.
  destruct (tr st t) as [st'|e];
    [|rewrite !bind_Err_l, foldl_Err; [reflexivity|intros; reflexivity]].
  rewrite bind_Ok_l. apply IH.
Qed.

(** C1. A [call F n] expands, in this order, into: the push of the
    return-label token [RETURN_<idx + 1>] built from the index of the call
    site; the pushes of the registers that hold the bases of local,
    argument, this and that; the computation of the stack pointer less 5
    less [n], stored as the argument base; the stack pointer stored as the
    local base; the jump to [F]; the declaration of the return label.
    Every step is a push, pop, sub, goto or label command, and the
    translation of the call is, after its comment, the translation of these
    commands one by one, from the first to the last, each by [translate]
    itself on a [Translator] built for it, the output of one being the
    input of the next; the first that fails ends the translation. *)
Theorem call_expansion (depth : nat) (st : state) (self : Translator)
    (func_name num_args : string) (rest : list string) (raw_code : string) :
  _cmd self = "call" →
  _line self = "call" :: func_name :: num_args :: rest →
  _func_mappings st !! "call" = Some A_call →
  _code_patterns st !! "_call" = Some raw_code →
  let return_label := "RETURN_" +:+ pretty (_idx self + 1) in
  let push_bases :=
    [["push"; "pointer"; "-2"]; ["push"; "pointer"; "-1"];
     ["push"; "pointer"; "0"]; ["push"; "pointer"; "1"]] in
  let new_argument :=
    [["push"; "pointer"; "-3"]; ["push"; "constant"; "5"]; ["sub"];
     ["push"; "constant"; num_args]; ["sub"]; ["pop"; "pointer"; "-1"]] in
  let new_local := [["push"; "pointer"; "-3"]; ["pop"; "pointer"; "-2"]] in
  let cmd_lst :=
    ([["push"; "constant"; return_label]] ++ push_bases ++ new_argument
     ++ new_local ++ [["goto"; func_name]] ++ [["label"; return_label]])%list in
  call_cmd_lst self = Ok cmd_lst
  ∧ pushed_register <$> push_bases
    = [loc_dict !! "local"; loc_dict !! "argument";
       loc_dict !! "this"; loc_dict !! "that"]
  ∧ pushed_register ["push"; "pointer"; "-3"] = Some 0
  ∧ popped_register ["pop"; "pointer"; "-1"] = loc_dict !! "argument"
  ∧ popped_register ["pop"; "pointer"; "-2"] = loc_dict !! "local"
  ∧ Forall (λ line, ∃ cmd, head line = Some cmd
                           ∧ cmd ∈ ["push"; "pop"; "sub"; "goto"; "label"]) cmd_lst
  ∧ translate (S depth) st self
    = translate_lines (translate depth) cmd_lst (_make_comm self st)
  ∧ translate (S depth) st self
    = foldl (λ (acc : result state) (line : list string),
               st0 ← acc;
               line_translator ← __init__ line "" 0;
               translate depth st0 line_translator)
        (Ok (_make_comm self st)) cmd_lst.
Proof.
  intros Hcmd Hline Hf Hraw return_label push_bases new_argument new_local cmd_lst.
  assert (call_cmd_lst self = Ok cmd_lst) as Hlst.
  { apply call_cmd_lst_eq with rest. by rewrite Hcmd. }
  split; [exact Hlst|].
  split; [by vm_compute|]. split; [by vm_compute|].
  split; [by vm_compute|]. split; [by vm_compute|].
  split.
  { unfold cmd_lst, push_bases, new_argument, new_local.
    repeat (apply Forall_cons; split;
            [eexists; split; [reflexivity|solve_elem]|]).
    apply Forall_nil_2. }
  assert (translate (S depth) st self
          = translate_lines (translate depth) cmd_lst (_make_comm self st))
    as Htr.
  { rewrite translate_S.
    rewrite (translate_body_plain _ st self A_call "_call" raw_code);
      [|rewrite Hcmd; intros Hin; apply (bool_decide_pack _) in Hin;
        by vm_compute in Hin
       |by rewrite Hcmd|done|done].
    unfold call_attr, _call. rewrite Hlst, bind_Ok_l.
    destruct (translate_lines (translate depth) cmd_lst (_make_comm self st))
      as [st'|e]; [|done].
    rewrite !bind_Ok_l. simpl. by rewrite emit_empty. }
  split; [exact Htr|]. rewrite Htr. apply translate_lines_foldl.
Qed.

Lemma call_expansion_witness :
  _asm_code
    <$> translate 2 loaded (MkTranslator ["call"; "Main.f"; "2"] "Main" "call" 7 None)
  = Ok (join newline
          ["// call Main.f 2";
           "// push constant RETURN_8"; "@RETURN_8"; "D=A"; "@SP"; "A=M";
           "M=D"; "@SP"; "M=M+1"; "";
           "// push pointer -2"; "@3"; "D=A"; "@2"; "A=D-A"; "D=M"; "@SP";
           "A=M"; "M=D"; "@SP"; "M=M+1"; "";
           "// push pointer -1"; "@3"; "D=A"; "@1"; "A=D-A"; "D=M"; "@SP";
           "A=M"; "M=D"; "@SP"; "M=M+1"; "";
           "// push pointer 0"; "@3"; "D=A"; "@0"; "A=D+A"; "D=M"; "@SP";
           "A=M"; "M=D"; "@SP"; "M=M+1"; "";
           "// push pointer 1"; "@3"; "D=A"; "@1"; "A=D+A"; "D=M"; "@SP";
           "A=M"; "M=D"; "@SP"; "M=M+1"; "";
           "// push pointer -3"; "@3"; "D=A"; "@3"; "A=D-A"; "D=M"; "@SP";
           "A=M"; "M=D"; "@SP"; "M=M+1"; "";
           "// push constant 5"; "@5"; "D=A"; "@SP"; "A=M"; "M=D"; "@SP";
           "M=M+1"; "";
           "// sub"; "@SP"; "AM=M-1"; "D=M"; "A=A-1"; "M=M-D"; "";
           "// push constant 2"; "@2"; "D=A"; "@SP"; "A=M"; "M=D"; "@SP";
           "M=M+1"; "";
           "// sub"; "@SP"; "AM=M-1"; "D=M"; "A=A-1"; "M=M-D"; "";
           "// pop pointer -1"; "@3"; "D=A"; "@1"; "D=D-A"; "@R13"; "M=D";
           "@SP"; "AM=M-1"; "D=M"; "@R13"; "A=M"; "M=D"; "";
           "// push pointer -3"; "@3"; "D=A"; "@3"; "A=D-A"; "D=M"; "@SP";
           "A=M"; "M=D"; "@SP"; "M=M+1"; "";
           "// pop pointer -2"; "@3"; "D=A"; "@2"; "D=D-A"; "@R13"; "M=D";
           "@SP"; "AM=M-1"; "D=M"; "@R13"; "A=M"; "M=D"; "";
           "// goto Main.f"; "@Main.f"; "0;JMP"; "";
           "(RETURN_8)"; ""; ""]).
Proof.
  refine (eq_trans (f_equal (fmap _asm_code)
    (proj2 (proj2 (proj2 (proj2 (proj2 (proj2 (proj2
      (call_expansion 1 loaded
         (MkTranslator ["call"; "Main.f"; "2"] "Main" "call" 7 None)
         "Main.f" "2" [] "" _ _ _ _))))))))) _);
    vm_compute; reflexivity.
Defined.

(** ** The segment expressions *)

Lemma or_raise_Some {A} e (a : A) : or_raise e (Some a) = Ok a.
Proof. done. Qed.

(** Unfold [_pop_push_helper] on a line with a segment and an offset,
    keeping the sign test and the offset abstract. *)
Ltac helper_unfold H :=
  unfold _pop_push_helper; rewrite H;
  match goal with
  | |- context [(?c :: ?s :: ?i :: ?r) !! 1%nat] =>
      change ((c :: s :: i :: r) !! 1%nat) with (Some s);
      change ((c :: s :: i :: r) !! 2%nat) with (Some i)
  end;
  rewrite !or_raise_Some, !bind_Ok_l; cbv zeta.

Lemma helper_pointer self cmd i rest :
  _line self = cmd :: "pointer" :: i :: rest →
  _pop_push_helper self
  = Ok (set_pop_push_expr
          (Some (if is_neg_token i then tail_str i else i),
           Some (pointer_dict (is_neg_token i)), None) self).
Proof.
  intros H. helper_unfold H.
  generalize (is_neg_token i). intros b.
  generalize (if b then tail_str i else i). intros j.
  by simplify_map_eq.
Qed.

Lemma helper_constant_temp self cmd segm i rest :
  _line self = cmd :: segm :: i :: rest →
  segm ∈ ["constant"; "temp"] →
  _pop_push_helper self
  = Ok (set_pop_push_expr
          (Some (if is_neg_token i then tail_str i else i), None, None) self).
Proof.
  intros H Hs. helper_unfold H.
  generalize (is_neg_token i). intros b.
  generalize (if b then tail_str i else i). intros j.
  elem_cases Hs; subst segm; by simplify_map_eq.
Qed.

Lemma helper_loc self cmd segm i rest :
  _line self = cmd :: segm :: i :: rest →
  segm ∈ loc_segments →
  ∃ reg, loc_dict !! segm = Some reg ∧
    _pop_push_helper self
    = Ok (set_pop_push_expr
            (Some (pretty reg),
             Some (if is_neg_token i then tail_str i else i),
             Some (pointer_dict (is_neg_token i))) self).
Proof.
  intros H Hs. helper_unfold H.
  generalize (is_neg_token i). intros b.
  generalize (if b then tail_str i else i). intros j.
  unfold loc_segments in Hs.
  elem_cases Hs; subst segm; eexists; (split; [by vm_compute|]);
    by simplify_map_eq.
Qed.

Lemma helper_static self cmd i rest :
  _line self = cmd :: "static" :: i :: rest →
  _pop_push_helper self
  = Ok (set_pop_push_expr
          (Some (_class_name self),
           Some (if is_neg_token i then tail_str i else i), None) self).
Proof.
  intros H. helper_unfold H.
  generalize (is_neg_token i). intros b.
  generalize (if b then tail_str i else i). intros j.
  by simplify_map_eq.
Qed.

(** ** C2 *)

(** C2 (amended). The expansion of [return] restores that, this, argument
    and local, in this order; each restore pushes the cell at the fixed
    displacement -1, -2, -3, -4 from the base held in the local register
    and pops it into the register of the pointer it restores.  No command
    of the expansion copies the local register: there is no snapshot.  The
    local register is written once, by the last restore, after every read
    that goes through it, so each restore reads its source before the base
    it depends on is overwritten. *)
Theorem return_restores_pointers :
  let restores :=
    [["push"; "local"; "-1"]; ["pop"; "pointer"; "1"];
     ["push"; "local"; "-2"]; ["pop"; "pointer"; "0"];
     ["push"; "local"; "-3"]; ["pop"; "pointer"; "-1"];
     ["push"; "local"; "-4"]; ["pop"; "pointer"; "-2"]] in
  let local := loc_dict !! "local" in
  return_cmd_lst
  = (take 7 return_cmd_lst ++ restores ++ drop 15 return_cmd_lst)%list
  ∧ pushed_cell <$> [["push"; "local"; "-1"]; ["push"; "local"; "-2"];
                     ["push"; "local"; "-3"]; ["push"; "local"; "-4"]]
    = (λ d, reg ← local; Some (reg, d)) <$> [-1; -2; -3; -4]
  ∧ popped_register <$> [["pop"; "pointer"; "1"]; ["pop"; "pointer"; "0"];
                         ["pop"; "pointer"; "-1"]; ["pop"; "pointer"; "-2"]]
    = [loc_dict !! "that"; loc_dict !! "this";
       loc_dict !! "argument"; loc_dict !! "local"]
  ∧ positions (copies_register local) return_cmd_lst = []
  ∧ positions (writes_register local) return_cmd_lst = [14%nat]
  ∧ positions (reads_through local) return_cmd_lst
    = [0; 7; 9; 11; 13]%nat
  ∧ ∀ tr self raw_code st,
      _return tr self raw_code st
      = (st' ← translate_lines tr return_cmd_lst st;
         formatted_code ← format raw_code [("var_1", pretty ret_addr)];
         Ok (st', formatted_code +:+ newline)).
Proof. repeat split; by vm_compute. Qed.

(** The claim as stated fails: no command of the expansion pushes the
    local register, so the local base is never saved. *)
Lemma return_takes_no_snapshot :
  ¬ ∃ line, line ∈ return_cmd_lst
            ∧ pushed_register line = loc_dict !! "local".
Proof.
  intros (line & Hin & H). vm_compute in Hin.
  elem_cases Hin; subst line; by vm_compute in H.
Qed.

(** ** C6 *)

Lemma translate_pop_push depth st self segm e :
  _cmd self ∈ ["pop"; "push"] →
  _line self !! 1%nat = Some segm →
  _func_mappings st !! _cmd self = Some A_pop_push →
  _pop_push_helper self = Ok (set_pop_push_expr e self) →
  translate (S depth) st self
  = (raw_code ← or_raise KeyError
                  (_code_patterns st !! pop_push_pattern (_cmd self) segm);
     code ← format raw_code
              [("var_1", str_opt e.1.1); ("var_2", str_opt e.1.2);
               ("var_3", str_opt e.2)];
     Ok (emit (code +:+ newline) (_make_comm self st))).
Proof.
  intros Hcmd Hsegm Hf Hh.
  rewrite translate_S, (translate_body_pop_push _ st self segm) by done.
  rewrite Hh, bind_Ok_l.
  destruct (or_raise KeyError _) as [raw_code|]; [|done].
  rewrite !bind_Ok_l. unfold _pop_push. simpl.
  by destruct (format raw_code _).
Qed.

(** C6 (amended). The scratch locations of the [return] expansion are the
    fixed registers 14 (the saved stack pointer) and 15 (the saved return
    address), which the expansion reaches as [pointer 11] and [pointer 12].
    They are not reserved: [_pop_push_helper] checks no offset range, for
    [temp] or for [pointer], and a push or pop on [pointer], of any offset
    and from any source-level [Translator], is translated exactly as the
    synthesized command with the same words. *)
Theorem scratch_registers_reachable (depth : nat) (st : state)
    (cmd i class_name : string) (idx : Z) :
  cmd ∈ ["pop"; "push"] →
  _func_mappings st !! cmd = Some A_pop_push →
  let source := MkTranslator [cmd; "pointer"; i] class_name cmd idx None in
  let synthesized := MkTranslator [cmd; "pointer"; i] "" cmd 0 None in
  (sp_addr, ret_addr) = (14, 15)
  ∧ return_cmd_lst !! 1%nat = Some ["pop"; "pointer"; "12"]
  ∧ return_cmd_lst !! 6%nat = Some ["pop"; "pointer"; "11"]
  ∧ return_cmd_lst !! 15%nat = Some ["push"; "pointer"; "11"]
  ∧ positions (writes_register (Some ret_addr)) return_cmd_lst = [1%nat]
  ∧ positions (writes_register (Some sp_addr)) return_cmd_lst = [6%nat]
  ∧ positions (copies_register (Some sp_addr)) return_cmd_lst = [15%nat]
  ∧ translate depth st source = translate depth st synthesized
  ∧ (∀ self segm j rest,
       segm ∈ ["pointer"; "temp"] → _line self = cmd :: segm :: j :: rest →
       is_ok (_pop_push_helper self) = true).
Proof.
  intros Hcmd Hf source synthesized.
  do 7 (split; [by vm_compute|]).
  split.
  - destruct depth as [|depth]; [done|].
    rewrite (translate_pop_push depth st source "pointer" _ Hcmd eq_refl Hf
               (helper_pointer source cmd i [] eq_refl)).
    rewrite (translate_pop_push depth st synthesized "pointer" _ Hcmd eq_refl Hf
               (helper_pointer synthesized cmd i [] eq_refl)).
    done.
  - intros self segm j rest Hs Hl. elem_cases Hs; subst segm.
    + by rewrite (helper_pointer self cmd j rest Hl).
    + rewrite (helper_constant_temp self cmd "temp" j rest Hl); [done|].
      solve_elem.
Qed.

Lemma scratch_registers_reachable_witness :
  translate 2 loaded (MkTranslator ["pop"; "pointer"; "12"] "Main" "pop" 3 None)
  = translate 2 loaded (MkTranslator ["pop"; "pointer"; "12"] "" "pop" 0 None).
Proof.
  refine (proj1 (proj2 (proj2 (proj2 (proj2 (proj2 (proj2 (proj2
    (scratch_registers_reachable 2 loaded "pop" "12" "Main" 3 _ _))))))))).
  - solve_elem.
  - by vm_compute.
Defined.

(** The claim as stated fails: [pop pointer 12], read from the source
    program, is translated and writes register 15, where [return] keeps
    the return address. *)
Lemma source_pop_reaches_return_address :
  popped_register ["pop"; "pointer"; "12"] = Some ret_addr
  ∧ ["pop"; "pointer"; "12"] ∈ return_cmd_lst
  ∧ main 2 loaded [["pop"; "pointer"; "12"]] false
    = block 1 loaded (MkTranslator ["pop"; "pointer"; "12"] "" "pop" 0 None)
  ∧ is_ok (main 2 loaded [["pop"; "pointer"; "12"]] false) = true.
Proof.
  split; [by vm_compute|]. split; [solve_elem|]. split; by vm_compute.
Qed.

(** ** C5 *)

Lemma is_neg_token_true i z : py_int i = Some z → z < 0 → is_neg_token i = true.
Proof.
  intros H Hz. unfold is_neg_token. rewrite H. by apply bool_decide_eq_true_2.
Qed.

Lemma pop_push_pattern_loc cmd segm :
  segm ∈ loc_segments → pop_push_pattern cmd segm = "_" +:+ cmd +:+ " loc".
Proof.
  intros H. unfold pop_push_pattern.
  rewrite bool_decide_eq_false_2; [done|]. intros Hn. by apply Hn.
Qed.

(** C5 (amended). A push or pop on local, argument, this or that with a
    negative offset is never rejected for its offset: [_pop_push_helper]
    drops the sign and selects the operator [-], whoever built the command,
    and [translate] fills the [loc] pattern of the command with the base
    register, the offset without its sign and [-].  The only failures are a
    missing pattern and a pattern that [format] cannot fill; there is no
    [InvalidSegmentOffset].  The source-level command is translated exactly
    as the synthesized command with the same words. *)
Theorem negative_offset_accepted (depth : nat) (st : state)
    (cmd segm i : string) (z : Z) (rest : list string)
    (class_name : string) (idx : Z) :
  cmd ∈ ["pop"; "push"] →
  segm ∈ loc_segments →
  py_int i = Some z → z < 0 →
  _func_mappings st !! cmd = Some A_pop_push →
  let source := MkTranslator (cmd :: segm :: i :: rest) class_name cmd idx None in
  let synthesized := MkTranslator (cmd :: segm :: i :: rest) "" cmd 0 None in
  ∃ reg, loc_dict !! segm = Some reg
    ∧ _pop_push_expr <$> _pop_push_helper source
      = Ok (Some (Some (pretty reg), Some (tail_str i), Some "-"))
    ∧ translate (S depth) st source
      = (raw_code ← or_raise KeyError
                      (_code_patterns st !! ("_" +:+ cmd +:+ " loc"));
         code ← format raw_code
                  [("var_1", pretty reg); ("var_2", tail_str i); ("var_3", "-")];
         Ok (emit (code +:+ newline) (_make_comm source st)))
    ∧ translate (S depth) st source = translate (S depth) st synthesized.
Proof.
  intros Hcmd Hsegm Hi Hz Hf source synthesized.
  destruct (helper_loc source cmd segm i rest eq_refl Hsegm) as (reg & Hreg & Hh).
  destruct (helper_loc synthesized cmd segm i rest eq_refl Hsegm)
    as (reg' & Hreg' & Hh').
  assert (reg' = reg) as -> by congruence.
  rewrite (is_neg_token_true i z Hi Hz) in Hh, Hh'.
  exists reg. split; [done|]. split; [by rewrite Hh|].
  rewrite (translate_pop_push depth st source segm _ Hcmd eq_refl Hf Hh).
  rewrite (translate_pop_push depth st synthesized segm _ Hcmd eq_refl Hf Hh').
  simpl. by rewrite pop_push_pattern_loc.
Qed.

Lemma negative_offset_accepted_witness :
  translate 2 loaded (MkTranslator ["pop"; "local"; "-1"] "Main" "pop" 3 None)
  = Ok (emit (join newline
                ["// pop local -1"; "@1"; "D=M"; "@1"; "D=D-A"; "@R13"; "M=D";
                 "@SP"; "AM=M-1"; "D=M"; "@R13"; "A=M"; "M=D"; ""; ""])
          loaded)
  ∧ translate 2 loaded (MkTranslator ["pop"; "local"; "-1"] "Main" "pop" 3 None)
    = translate 2 loaded (MkTranslator ["pop"; "local"; "-1"] "" "pop" 0 None).
Proof.
  destruct (negative_offset_accepted 1 loaded "pop" "local" "-1" (-1) []
              "Main" 3) as (reg & Hreg & _ & Htr & H).
  - solve_elem.
  - solve_elem.
  - vm_compute. reflexivity.
  - lia.
  - vm_compute. reflexivity.
  - split; [|exact H]. rewrite Htr.
    vm_compute in Hreg. injection Hreg as <-. vm_compute. reflexivity.
Defined.

(** The claim as stated fails: [pop local -1], read from the source
    program, is translated, to the same text as the synthesized command. *)
Lemma source_pop_local_minus_one_accepted :
  is_ok (main 2 loaded [["pop"; "local"; "-1"]] false) = true
  ∧ main 2 loaded [["pop"; "local"; "-1"]] false
    = Ok (join newline
            ["// pop local -1"; "@1"; "D=M"; "@1"; "D=D-A"; "@R13"; "M=D";
             "@SP"; "AM=M-1"; "D=M"; "@R13"; "A=M"; "M=D"; ""; ""])
  ∧ main 2 loaded [["pop"; "local"; "-1"]] false
    = block 1 loaded (MkTranslator ["pop"; "local"; "-1"] "" "pop" 0 None).
Proof. split; [|split]; vm_compute; reflexivity. Qed.

(** ** C10 *)

















(** ** C8 *)

(** What a function that fills one pattern returns: the pattern filled with
    its [variables], and a line break; the output itself is left to the
    caller. *)
Lemma call_attr_flat_code tr f self raw_code st r :
  expanding f = false →
  call_attr tr f self raw_code st = Ok r →
  _asm_code r.1 = _asm_code st
  ∧ ∃ kw code,
      pattern_kwargs f self st = Ok kw
      ∧ format raw_code kw = Ok code ∧ r.2 = code +:+ newline.
Proof.
  intros Hf H. destruct f; try discriminate; unfold call_attr in H.
  - unfold no_state, _pop_push in H. unfold pattern_kwargs.
    destruct (or_raise IndexError (_pop_push_expr self)) as [e|]; [|discriminate].
    rewrite !bind_Ok_l in *.
    destruct (format raw_code _) as [code|] eqn:Hfmt; [|discriminate].
    rewrite !bind_Ok_l in H. injection H as <-. split; [done|].
    eexists _, code. split; [reflexivity|]. by split.
  - unfold no_state, _add_sub_or_and in H. unfold pattern_kwargs.
    destruct (or_raise KeyError (_ !! _cmd self)) as [op|]; [|discriminate].
    rewrite !bind_Ok_l in *.
    destruct (format raw_code _) as [code|] eqn:Hfmt; [|discriminate].
    rewrite !bind_Ok_l in H. injection H as <-. split; [done|].
    eexists _, code. split; [reflexivity|]. by split.
  - unfold no_state, _neg_not in H. unfold pattern_kwargs.
    destruct (or_raise KeyError (_ !! _cmd self)) as [op|]; [|discriminate].
    rewrite !bind_Ok_l in *.
    destruct (format raw_code _) as [code|] eqn:Hfmt; [|discriminate].
    rewrite !bind_Ok_l in H. injection H as <-. split; [done|].
    eexists _, code. split; [reflexivity|]. by split.
  - unfold _lt_eq_gt in H. unfold pattern_kwargs. cbv zeta in *.
    destruct (_lt_eq_gt_counter st !! _cmd self) as [n|]; [|discriminate H].
    rewrite or_raise_Some, !bind_Ok_l in *.
    apply bind_Ok in H as (jump & Hj & H). rewrite Hj, bind_Ok_l.
    change (_lt_eq_gt_counter (set_counter ?c st)) with c in H.
    rewrite lookup_insert_eq, or_raise_Some, bind_Ok_l in H.
    apply bind_Ok in H as (code & Hfmt & H). injection H as <-.
    split; [done|]. eexists _, code. split; [reflexivity|]. by split.
  - unfold no_state, _label_goto_if_goto in H. unfold pattern_kwargs.
    destruct (or_raise IndexError (_line self !! 1%nat)) as [lbl|]; [|discriminate].
    rewrite !bind_Ok_l in *.
    destruct (format raw_code _) as [code|] eqn:Hfmt; [|discriminate].
    rewrite !bind_Ok_l in H. injection H as <-. split; [done|].
    eexists _, code. split; [reflexivity|]. by split.
  - repeat case_decide; discriminate.
Qed.

Lemma pattern_kwargs_comm f self self' st :
  pattern_kwargs f self'
    (if bool_decide (_cmd self ≠ "label") then _make_comm self st else st)
  = pattern_kwargs f self' st.
Proof. by case_bool_decide. Qed.

Lemma make_comm_asm self st :
  _asm_code (if bool_decide (_cmd self ≠ "label") then _make_comm self st else st)
  = _asm_code st +:+ comment_of self.
Proof.
  unfold comment_of. case_bool_decide; simpl; [done|]. by rewrite append_nil_r.
Qed.

Lemma make_comm_with_asm self st :
  with_asm "" (if bool_decide (_cmd self ≠ "label")
               then _make_comm self st else st)
  = with_asm "" st.
Proof. by case_bool_decide. Qed.

(** The text of a list of synthesized commands, on any output. *)
Lemma translate_lines_blocks depth cmd_lst st st' :
  translate_lines (translate depth) cmd_lst st = Ok st' →
  ∃ body, blocks depth st cmd_lst = Ok body
          ∧ _asm_code st' = _asm_code st +:+ body.
Proof.
  rewrite translate_lines_block. unfold blocks. intros H.
  apply fmap_Ok in H as (s & -> & ->). by exists (_asm_code s).
Qed.

(** The blocks of a list of commands are the block of the first followed
    by the blocks of the others. *)
Lemma blocks_cons depth st line cmd_lst :
  blocks depth st (line :: cmd_lst)
  = (line_translator ← __init__ line "" 0;
     st1 ← translate depth (with_asm "" st) line_translator;
     rest ← blocks depth st1 cmd_lst;
     Ok (_asm_code st1 +:+ rest)).
Proof.
  unfold blocks. rewrite translate_lines_cons.
  destruct (__init__ line "" 0) as [t|]; [|done]. rewrite !bind_Ok_l.
  destruct (translate depth (with_asm "" st) t) as [st1|]; [|done].
  rewrite !bind_Ok_l, translate_lines_block.
  by destruct (translate_lines (translate depth) cmd_lst (with_asm "" st1)).
Qed.

Lemma helper_same self self' :
  (if bool_decide (_cmd self ∈ ["pop"; "push"])
   then _pop_push_helper self else Ok self) = Ok self' →
  _line self' = _line self ∧ _idx self' = _idx self.
Proof.
  destruct (bool_decide _); [|by intros [= <-]].
  unfold _pop_push_helper. intros H. ok_steps H. by subst self'.
Qed.

Lemma function_cmd_lst_ext self self' :
  _line self' = _line self → function_cmd_lst self' = function_cmd_lst self.
Proof. unfold function_cmd_lst. by intros ->. Qed.

Lemma call_cmd_lst_ext self self' :
  _line self' = _line self → _idx self' = _idx self →
  call_cmd_lst self' = call_cmd_lst self.
Proof. unfold call_cmd_lst. by intros -> ->. Qed.

(** What [translate] appends, by the function the command is sent to. *)
Lemma translate_appended depth st st' self :
  translate (S depth) st self = Ok st' →
  ∃ f func_name pattern_name self' raw_code body,
    _func_mappings st !! _cmd self = Some f
    ∧ attr_name f = Ok func_name
    ∧ pattern_name_of self func_name = Ok pattern_name
    ∧ (if bool_decide (_cmd self ∈ ["pop"; "push"])
       then _pop_push_helper self else Ok self) = Ok self'
    ∧ _code_patterns st !! pattern_name = Some raw_code
    ∧ _asm_code st' = _asm_code st +:+ comment_of self +:+ body
    ∧ match f with
      | A_function =>
          ∃ cmd_lst, function_cmd_lst self = Ok cmd_lst
                     ∧ blocks depth st cmd_lst = Ok body
      | A_call =>
          ∃ cmd_lst, call_cmd_lst self = Ok cmd_lst
                     ∧ blocks depth st cmd_lst = Ok body
      | A_return =>
          ∃ sub code,
            blocks depth st return_cmd_lst = Ok sub
            ∧ format raw_code [("var_1", pretty ret_addr)] = Ok code
            ∧ body = sub +:+ code +:+ newline
      | _ =>
          ∃ kw code,
            pattern_kwargs f self' st = Ok kw
            ∧ format raw_code kw = Ok code ∧ body = code +:+ newline
      end.
Proof.
  intros H. rewrite translate_S in H. unfold translate_body in H.
  set (st1 := if bool_decide (_cmd self ≠ "label")
              then _make_comm self st else st) in H.
  assert (_asm_code st1 = _asm_code st +:+ comment_of self) as Hst1
    by apply make_comm_asm.
  assert (with_asm "" st1 = with_asm "" st) as Hw by apply make_comm_with_asm.
  assert (_func_mappings st1 = _func_mappings st) as Hm
    by (unfold st1; by destruct (bool_decide (_cmd self ≠ "label"))).
  assert (_code_patterns st1 = _code_patterns st) as Hp
    by (unfold st1; by destruct (bool_decide (_cmd self ≠ "label"))).
  rewrite Hm, Hp in H.
  destruct (_func_mappings st !! _cmd self) as [f|] eqn:Hf; [|discriminate].
  rewrite or_raise_Some, bind_Ok_l in H.
  destruct (attr_name f) as [func_name|] eqn:Hn; [|discriminate].
  rewrite bind_Ok_l in H.
  destruct (pattern_name_of self func_name) as [pattern_name|] eqn:Hpn;
    [|discriminate].
  rewrite bind_Ok_l in H.
  destruct (if bool_decide (_cmd self ∈ ["pop"; "push"])
            then _pop_push_helper self else Ok self) as [self'|] eqn:Hself;
    [|discriminate].
  pose proof (helper_same _ _ Hself) as [Hline Hidx].
  rewrite bind_Ok_l in H.
  destruct (_code_patterns st !! pattern_name) as [raw_code|] eqn:Hraw;
    [|discriminate].
  rewrite or_raise_Some, bind_Ok_l in H.
  destruct (call_attr (translate depth) f self' raw_code st1) as [r|] eqn:Hr;
    [|discriminate].
  rewrite bind_Ok_l in H. injection H as <-.
  exists f, func_name, pattern_name, self', raw_code.
  destruct (expanding f) eqn:Hexp.
  - destruct f; try discriminate; unfold call_attr in Hr.
    + unfold _function in Hr. ok_steps Hr. subst r.
      rewrite (function_cmd_lst_ext self self' Hline) in E.
      apply translate_lines_blocks in E0 as (body & Hb & Ha).
      unfold blocks in Hb. rewrite Hw in Hb.
      exists body. do 5 (split; [done|]). split; [|by eauto].
      simpl. by rewrite append_nil_r, Ha, Hst1, append_assoc.
    + unfold _call in Hr. ok_steps Hr. subst r.
      rewrite (call_cmd_lst_ext self self' Hline Hidx) in E.
      apply translate_lines_blocks in E0 as (body & Hb & Ha).
      unfold blocks in Hb. rewrite Hw in Hb.
      exists body. do 5 (split; [done|]). split; [|by eauto].
      simpl. by rewrite append_nil_r, Ha, Hst1, append_assoc.
    + unfold _return in Hr. ok_steps Hr. subst r.
      apply translate_lines_blocks in E as (sub & Hb & Ha).
      unfold blocks in Hb. rewrite Hw in Hb.
      exists (sub +:+ x0 +:+ newline). do 5 (split; [done|]). split.
      * simpl. by rewrite Ha, Hst1, !append_assoc.
      * exists sub, x0. done.
  - destruct (call_attr_flat_code _ _ _ _ _ _ Hexp Hr)
      as (Ha & kw & code & Hkw & Hfmt & Hcode).
    unfold st1 in Hkw. rewrite pattern_kwargs_comm in Hkw.
    exists (code +:+ newline). do 5 (split; [done|]). split.
    + simpl. by rewrite Ha, Hst1, Hcode, append_assoc.
    + destruct f; try discriminate; eauto.
Qed.

(** C8 (amended). [translate] only appends to the output: a translated
    command adds one block, the same text it would put on an empty output.
    The block starts with the comment line of the command, except for a
    label, which has none.  After the comment comes, for a function that
    fills one pattern, the pattern that the table holds for the command,
    filled with the [variables] of that function, and a line break; for
    [function] and [call], the blocks of the synthesized commands, one
    after the other; for [return], the blocks of the synthesized commands
    followed by the pattern of [return] itself, filled with the register
    of the return address, and a line break.  The blocks of a list of
    commands are the block of its first command followed by the blocks of
    the others. *)
Theorem output_blocks (depth : nat) (st st' : state) (self : Translator) :
  translate (S depth) st self = Ok st' →
  ∃ f func_name pattern_name self' raw_code body,
    _func_mappings st !! _cmd self = Some f
    ∧ attr_name f = Ok func_name
    ∧ pattern_name_of self func_name = Ok pattern_name
    ∧ (if bool_decide (_cmd self ∈ ["pop"; "push"])
       then _pop_push_helper self else Ok self) = Ok self'
    ∧ _code_patterns st !! pattern_name = Some raw_code
    ∧ _asm_code st' = _asm_code st +:+ comment_of self +:+ body
    ∧ block (S depth) st self = Ok (comment_of self +:+ body)
    ∧ match f with
      | A_function =>
          ∃ cmd_lst, function_cmd_lst self = Ok cmd_lst
                     ∧ blocks depth st cmd_lst = Ok body
      | A_call =>
          ∃ cmd_lst, call_cmd_lst self = Ok cmd_lst
                     ∧ blocks depth st cmd_lst = Ok body
      | A_return =>
          ∃ sub code,
            blocks depth st return_cmd_lst = Ok sub
            ∧ format raw_code [("var_1", pretty ret_addr)] = Ok code
            ∧ body = sub +:+ code +:+ newline
      | _ =>
          ∃ kw code,
            pattern_kwargs f self' st = Ok kw
            ∧ format raw_code kw = Ok code ∧ body = code +:+ newline
      end
    ∧ (∀ st0, blocks depth st0 [] = Ok "")
    ∧ (∀ st0 line cmd_lst,
         blocks depth st0 (line :: cmd_lst)
         = (line_translator ← __init__ line "" 0;
            st1 ← translate depth (with_asm "" st0) line_translator;
            rest ← blocks depth st1 cmd_lst;
            Ok (_asm_code st1 +:+ rest))).
Proof.
  intros Htr.
  destruct (translate_appended depth st st' self Htr)
    as (f & func_name & pattern_name & self' & raw_code & body
        & Hf & Hn & Hpn & Hself & Hraw & Hasm & Hbody).
  exists f, func_name, pattern_name, self', raw_code, body.
  do 6 (split; [done|]).
  split; [|split; [exact Hbody|split; [done|intros; apply blocks_cons]]].
  unfold block. rewrite translate_block in Htr.
  apply fmap_Ok in Htr as (s & Hs & ->). rewrite Hs. simpl in *.
  apply (inj (String.append (_asm_code st))) in Hasm. by rewrite Hasm.
Qed.

Lemma output_blocks_witness :
  ∃ st' sub,
    translate 2 loaded (MkTranslator ["return"] "Main" "return" 9 None) = Ok st'
    ∧ blocks 1 loaded return_cmd_lst = Ok sub
    ∧ _asm_code st'
      = _asm_code loaded +:+ "// return" +:+ newline +:+ sub
        +:+ join newline ["@R15"; "A=M"; "0;JMP"; ""; ""].
Proof.
  destruct (translate 2 loaded (MkTranslator ["return"] "Main" "return" 9 None))
    as [st'|e] eqn:E.
  - destruct (output_blocks 1 loaded st' _ E)
      as (f & func_name & pattern_name & self' & raw_code & body
          & Hf & Hn & Hpn & _ & Hraw & Ha & _ & Hbody & _).
    vm_compute in Hf. injection Hf as <-.
    vm_compute in Hn. injection Hn as <-.
    vm_compute in Hpn. injection Hpn as <-.
    vm_compute in Hraw. injection Hraw as <-.
    destruct Hbody as (sub & code & Hsub & Hfmt & ->).
    vm_compute in Hfmt. injection Hfmt as <-.
    exists st', sub. split; [reflexivity|]. split; [exact Hsub|].
    rewrite Ha. reflexivity.
  - vm_compute in E. discriminate E.
Defined.

(** The claim as stated fails: the block of a [return] is not the blocks of
    its synthesized commands, with or without the comment line; the jump
    through the saved return address follows them. *)
Lemma return_block_exceeds_its_commands :
  ∃ b sub,
    block 2 loaded (MkTranslator ["return"] "Main" "return" 9 None) = Ok b
    ∧ blocks 1 loaded return_cmd_lst = Ok sub
    ∧ b = "// return" +:+ newline +:+ sub
          +:+ join newline ["@R15"; "A=M"; "0;JMP"; ""; ""]
    ∧ b ≠ sub
    ∧ b ≠ "// return" +:+ newline +:+ sub.
Proof.
  eexists _, _. split; [vm_compute; reflexivity|].
  split; [vm_compute; reflexivity|].
  split; [vm_compute; reflexivity|]. split; solve_elem.
Qed.

(** ** C7 *)

Lemma link_commands_ok func_name cmd_lst :
  ∀ m1 m2, is_ok (link_commands func_name cmd_lst m1)
           = is_ok (link_commands func_name cmd_lst m2).
Proof.
  induction cmd_lst as [|command cmd_lst IH]; intros m1 m2; simpl; [done|].
  destruct (getattr func_name) as [f|]; simpl; [|done]. apply IH.
Qed.

(** Whether [create_mappings] succeeds does not depend on the class state
    it starts from. *)
Lemma create_mappings_ok dir :
  ∀ st1 st2, is_ok (create_mappings dir st1) = is_ok (create_mappings dir st2).
Proof.
  induction dir as [|[filename file] dir IH]; intros st1 st2; simpl; [done|].
  destruct (endswith filename ".txt"); [|apply IH].
  destruct (read_pattern file) as [pattern_code|]; simpl; [|done].
  destruct (pattern_commands _) as [pc|]; simpl; [|done].
  pose proof (link_commands_ok pc.1 pc.2 (_func_mappings st1) (_func_mappings st2))
    as Hl.
  destruct (link_commands pc.1 pc.2 (_func_mappings st1)),
           (link_commands pc.1 pc.2 (_func_mappings st2));
    simpl in *; first [discriminate|done|apply IH].
Qed.

Lemma create_mappings_cons_ok entry dir st :
  is_ok (create_mappings (entry :: dir) st) = true →
  is_ok (create_mappings dir st) = true.
Proof.
  destruct entry as [filename file]. simpl.
  destruct (endswith filename ".txt"); [|done].
  destruct (read_pattern file) as [pattern_code|]; simpl; [|done].
  destruct (pattern_commands _) as [pc|]; simpl; [|done].
  destruct (link_commands _ _ _) as [m|]; simpl; [|done].
  by rewrite (create_mappings_ok dir _ st).
Qed.

Lemma create_mappings_cons_keep entry dir dir' st :
  (∀ st0, is_ok (create_mappings dir st0) = true →
          is_ok (create_mappings dir' st0) = true) →
  is_ok (create_mappings (entry :: dir) st) = true →
  is_ok (create_mappings (entry :: dir') st) = true.
Proof.
  intros IH. destruct entry as [filename file]. simpl.
  destruct (endswith filename ".txt"); [|apply IH].
  destruct (read_pattern file) as [pattern_code|]; simpl; [|done].
  destruct (pattern_commands _) as [pc|]; simpl; [|done].
  destruct (link_commands _ _ _) as [m|]; simpl; [|done].
  apply IH.
Qed.

(** Taking files away from a directory that loads gives a directory that
    loads. *)
Lemma create_mappings_sublist dir' dir :
  sublist dir' dir →
  ∀ st, is_ok (create_mappings dir st) = true →
        is_ok (create_mappings dir' st) = true.
Proof.
  induction 1 as [|entry dir' dir _ IH|entry dir' dir _ IH]; intros st H.
  - done.
  - by apply (create_mappings_cons_keep entry dir dir' st IH).
  - apply IH. by apply create_mappings_cons_ok in H.
Qed.

Lemma main_loop_tables depth lines :
  ∀ st curr_class st',
    main_loop depth st curr_class lines = Ok st' → same_tables st st'.
Proof.
  induction lines as [|[idx line] lines IH]; intros st curr_class st' H;
    simpl in H.
  - by injection H as <-.
  - ok_steps H. eapply same_tables_trans; [|eapply IH; exact H].
    eapply translate_tables. eassumption.
Qed.

(** C7 (amended). [create_mappings] validates nothing about the set of
    patterns: it reads whatever files the directory holds, so a directory
    that loads still loads after any of its files is removed, and the
    empty directory loads and leaves the class as it was.  Several
    commands may share one pattern: add, sub, or and and are all looked up
    under [_add_sub_or_and].  A pattern that is missing is found only when
    a command that needs it is translated ([KeyError]).  After loading,
    the tables are read-only: neither [translate] nor the loop of [main]
    changes the pattern table or the dispatch table. *)
Theorem tables_read_only_not_validated :
  (∀ dir dir' st,
     sublist dir' dir →
     is_ok (create_mappings dir st) = true →
     is_ok (create_mappings dir' st) = true)
  ∧ (∀ st, create_mappings [] st = Ok st)
  ∧ (∀ self,
       _cmd self ∈ ["add"; "sub"; "or"; "and"] →
       attr_name A_add_sub_or_and ≫= pattern_name_of self = Ok "_add_sub_or_and")
  ∧ (∀ depth st self f func_name,
       _cmd self ∉ ["pop"; "push"; "label"; "goto"; "if-goto"] →
       _func_mappings st !! _cmd self = Some f →
       attr_name f = Ok func_name →
       _code_patterns st !! func_name = None →
       translate (S depth) st self = Err KeyError)
  ∧ (∀ depth st self st',
       translate depth st self = Ok st' →
       _code_patterns st' = _code_patterns st
       ∧ _func_mappings st' = _func_mappings st)
  ∧ (∀ depth st curr_class lines st',
       main_loop depth st curr_class lines = Ok st' →
       _code_patterns st' = _code_patterns st
       ∧ _func_mappings st' = _func_mappings st).
Proof.
  split; [|split; [|split; [|split; [|split]]]].
  - intros dir dir' st Hsub. by apply create_mappings_sublist.
  - done.
  - intros self Hcmd. simpl. unfold pattern_name_of.
    elem_cases Hcmd; rewrite Hcmd; by vm_compute.
  - intros depth st self f func_name Hcmd Hf Hn Hraw.
    rewrite translate_S. unfold translate_body, pattern_name_of.
    rewrite (bool_decide_eq_true_2 (_cmd self ≠ "label")) by not_elem Hcmd.
    rewrite (bool_decide_eq_false_2 (_cmd self ∈ ["pop"; "push"]))
      by not_elem Hcmd.
    rewrite (bool_decide_eq_false_2 (_cmd self ∈ ["label"; "goto"; "if-goto"]))
      by not_elem Hcmd.
    change (_func_mappings (_make_comm self st)) with (_func_mappings st).
    change (_code_patterns (_make_comm self st)) with (_code_patterns st).
    rewrite Hf. simpl. rewrite Hn. simpl. by rewrite Hraw.
  - intros depth st self st' H. by apply (translate_tables depth st self).
  - intros depth st curr_class lines st' H.
    by apply (main_loop_tables depth lines st curr_class).
Qed.

Lemma tables_read_only_not_validated_witness :
  sublist (take 14 pattern_dir) pattern_dir
  ∧ is_ok (create_mappings pattern_dir class_init) = true
  ∧ is_ok (create_mappings (take 14 pattern_dir) class_init) = true.
Proof.
  assert (sublist (take 14 pattern_dir) pattern_dir) as Hsub
    by apply sublist_take.
  assert (is_ok (create_mappings pattern_dir class_init) = true) as Hok
    by (vm_compute; reflexivity).
  split; [exact Hsub|]. split; [exact Hok|].
  exact (proj1 tables_read_only_not_validated
           pattern_dir (take 14 pattern_dir) class_init Hsub Hok).
Defined.

(** The claim as stated fails: a directory without the patterns of
    if-goto, function, call and return is loaded without complaint, as is
    the empty directory; the gap shows only when such a command is
    translated. *)
Lemma loading_checks_no_completeness :
  create_mappings [] class_init = Ok class_init
  ∧ ∃ st, create_mappings (take 14 pattern_dir) class_init = Ok st
          ∧ _func_mappings st !! "return" = None
          ∧ _code_patterns st !! "_return" = None
          ∧ main 2 st [["return"]] false = Err KeyError.
Proof.
  split; [reflexivity|]. eexists.
  split; [vm_compute; reflexivity|]. split; [|split]; vm_compute; reflexivity.
Qed.

(** ** C3 *)

Lemma return_label_inj (a b : Z) :
  "RETURN_" +:+ pretty (a + 1) = "RETURN_" +:+ pretty (b + 1) → a = b.
Proof.
  intros H. apply (inj (String.append "RETURN_")) in H.
  apply (inj pretty) in H. lia.
Qed.

Lemma filter_cons {A} (f : A → bool) x l :
  List.filter f (x :: l) = if f x then x :: List.filter f l else List.filter f l.
Proof. done. Qed.

Lemma call_sites_sorted (lines : list (list string)) :
  ∀ k,
    Forall (λ p : Z * list string, k ≤ p.1)
      (List.filter (λ p : Z * list string, bool_decide (head p.2 = Some "call"))
         (enumerate_from k lines))
    ∧ StronglySorted (λ p q : Z * list string, p.1 < q.1)
        (List.filter (λ p : Z * list string, bool_decide (head p.2 = Some "call"))
           (enumerate_from k lines)).
Proof.
  induction lines as [|line lines IH]; intros k; simpl.
  - split; constructor.
  - destruct (IH (k + 1)) as [Hge Hs].
    assert (Forall (λ p : Z * list string, k < p.1)
              (List.filter
                 (λ p : Z * list string, bool_decide (head p.2 = Some "call"))
                 (enumerate_from (k + 1) lines))) as Hgt.
    { eapply Forall_impl; [exact Hge|]. simpl. intros; lia. }
    destruct (bool_decide (head line = Some "call")).
    + split.
      * constructor; [simpl; lia|]. eapply Forall_impl; [exact Hgt|].
        simpl. intros; lia.
      * by constructor.
    + split; [|done]. eapply Forall_impl; [exact Hgt|]. simpl. intros; lia.
Qed.

Lemma sorted_labels_NoDup (sites : list (Z * list string)) :
  StronglySorted (λ p q : Z * list string, p.1 < q.1) sites →
  NoDup ((λ p : Z * list string, "RETURN_" +:+ pretty (p.1 + 1)) <$> sites).
Proof.
  induction 1 as [|p sites _ IH Hlt]; simpl; constructor; [|done].
  intros Hin. apply list_elem_of_fmap in Hin as (q & Heq & Hq).
  apply return_label_inj in Heq.
  rewrite Forall_forall in Hlt. specialize (Hlt q Hq). lia.
Qed.

Lemma sorted_numbers (sites : list (Z * list string)) :
  StronglySorted (λ p q : Z * list string, p.1 < q.1) sites →
  StronglySorted Z.lt ((λ p : Z * list string, p.1 + 1) <$> sites).
Proof.
  induction 1 as [|p sites _ IH Hlt]; simpl; constructor; [done|].
  apply Forall_fmap. eapply Forall_impl; [exact Hlt|]. simpl. intros; lia.
Qed.

Lemma call_sites_length (lines : list (list string)) :
  ∀ k,
    length (List.filter
              (λ p : Z * list string, bool_decide (head p.2 = Some "call"))
              (enumerate_from k lines))
    = length (List.filter (λ l, bool_decide (head l = Some "call")) lines).
Proof.
  induction lines as [|line lines IH]; intros k; simpl; [done|].
  destruct (bool_decide (head line = Some "call")); simpl; by rewrite IH.
Qed.

(** A label, goto or if-goto. *)
Lemma translate_jump depth st self name raw_code :
  _cmd self ∈ ["label"; "goto"; "if-goto"] →
  _line self !! 1%nat = Some name →
  _func_mappings st !! _cmd self = Some A_label_goto_if_goto →
  _code_patterns st !! ("_" +:+ _cmd self) = Some raw_code →
  translate (S depth) st self
  = (code ← format raw_code [("var_1", name)];
     Ok (emit (code +:+ newline)
           (if bool_decide (_cmd self ≠ "label") then _make_comm self st else st))).
Proof.
  intros Hcmd Hname Hf Hraw. rewrite translate_S.
  unfold translate_body, pattern_name_of.
  rewrite (bool_decide_eq_false_2 (_cmd self ∈ ["pop"; "push"]))
    by (intros Hin; elem_cases Hcmd; rewrite Hcmd in Hin;
        apply (bool_decide_pack _) in Hin; by vm_compute in Hin).
  rewrite (bool_decide_eq_true_2 (_cmd self ∈ ["label"; "goto"; "if-goto"]))
    by done.
  set (st1 := if bool_decide (_cmd self ≠ "label")
              then _make_comm self st else st).
  assert (_func_mappings st1 = _func_mappings st) as ->
    by (unfold st1; by destruct (bool_decide (_cmd self ≠ "label"))).
  assert (_code_patterns st1 = _code_patterns st) as ->
    by (unfold st1; by destruct (bool_decide (_cmd self ≠ "label"))).
  rewrite Hf, or_raise_Some, !bind_Ok_l. cbn [attr_name].
  rewrite !bind_Ok_l, Hraw, or_raise_Some, !bind_Ok_l.
  unfold call_attr, no_state, _label_goto_if_goto.
  rewrite Hname, or_raise_Some, !bind_Ok_l.
  by destruct (format raw_code _).
Qed.

Lemma enumerate_from_app {A} (l1 l2 : list A) :
  ∀ k, enumerate_from k (l1 ++ l2)
       = (enumerate_from k l1
          ++ enumerate_from (k + Z.of_nat (length l1)) l2)%list.
Proof.
  induction l1 as [|x l1 IH]; intros k; simpl.
  - by rewrite Z.add_0_r.
  - rewrite IH. do 3 f_equal. lia.
Qed.

Lemma main_loop_app depth lines1 lines2 :
  ∀ st curr_class st2,
    main_loop depth st curr_class (lines1 ++ lines2) = Ok st2 →
    ∃ st1 class1,
      main_loop depth st curr_class lines1 = Ok st1
      ∧ main_loop depth st1 class1 lines2 = Ok st2.
Proof.
  induction lines1 as [|[idx line] lines1 IH]; intros st curr_class st2 H.
  - by exists st, curr_class.
  - simpl in H. ok_steps H. destruct (IH _ _ _ H) as (st1 & class1 & H1 & H2).
    exists st1, class1. split; [|exact H2]. simpl.
    repeat match goal with
    | E : ?m = Ok _ |- context [?m] => rewrite E, bind_Ok_l
    end.
    exact H1.
Qed.

Lemma main_loop_extends depth lines :
  ∀ st curr_class st',
    main_loop depth st curr_class lines = Ok st' →
    ∃ tail, _asm_code st' = _asm_code st +:+ tail.
Proof.
  induction lines as [|[idx line] lines IH]; intros st curr_class st' H;
    simpl in H.
  - injection H as <-. exists "". by rewrite append_nil_r.
  - ok_steps H. destruct (IH _ _ _ H) as (tail & Htail).
    match goal with
    | Ht : translate _ _ _ = Ok _ |- _ =>
        rewrite translate_block in Ht; apply fmap_Ok in Ht as (s & _ & ->)
    end.
    simpl in Htail. exists (_asm_code s +:+ tail).
    by rewrite Htail, append_assoc.
Qed.

Lemma translate_lines_app tr l1 l2 :
  ∀ st,
    translate_lines tr (l1 ++ l2) st
    = (st1 ← translate_lines tr l1 st; translate_lines tr l2 st1).
Proof.
  induction l1 as [|line l1 IH]; intros st; [done|].
  rewrite <-app_comm_cons, !translate_lines_cons.
  destruct (__init__ line "" 0) as [t|e]; [|reflexivity].
  rewrite !bind_Ok_l.
  destruct (tr st t) as [st'|e]; [|reflexivity].
  rewrite !bind_Ok_l. apply IH.
Qed.

Lemma translate_call_Ok depth st self st2 :
  _cmd self = "call" →
  _func_mappings st !! "call" = Some A_call →
  translate (S depth) st self = Ok st2 →
  ∃ cmd_lst,
    call_cmd_lst self = Ok cmd_lst
    ∧ translate_lines (translate depth) cmd_lst (_make_comm self st) = Ok st2.
Proof.
  intros Hcmd Hf H. rewrite translate_S in H.
  unfold translate_body, pattern_name_of in H. rewrite Hcmd in H.
  rewrite (bool_decide_eq_true_2 ("call" ≠ "label")) in H by discriminate.
  change (_func_mappings (_make_comm self st)) with (_func_mappings st) in H.
  rewrite Hf, or_raise_Some, bind_Ok_l in H. cbn [attr_name] in H.
  rewrite bind_Ok_l in H.
  rewrite (bool_decide_eq_false_2 ("call" ∈ ["pop"; "push"])) in H
    by (intros Hin; apply (bool_decide_pack _) in Hin; by vm_compute in Hin).
  rewrite (bool_decide_eq_false_2 ("call" ∈ ["label"; "goto"; "if-goto"])) in H
    by (intros Hin; apply (bool_decide_pack _) in Hin; by vm_compute in Hin).
  rewrite !bind_Ok_l in H.
  destruct (or_raise KeyError (_code_patterns (_make_comm self st) !! "_call"))
    as [raw_code|]; [|discriminate].
  rewrite bind_Ok_l in H. unfold call_attr, _call in H.
  destruct (call_cmd_lst self) as [cmd_lst|]; [|discriminate].
  rewrite bind_Ok_l in H. exists cmd_lst. split; [reflexivity|].
  destruct (translate_lines (translate depth) cmd_lst (_make_comm self st))
    as [st'|]; [|discriminate].
  rewrite bind_Ok_l in H. simpl in H. rewrite emit_empty in H. exact H.
Qed.

Lemma translate_call_label depth st self st2 raw_label :
  _cmd self = "call" →
  _func_mappings st !! "call" = Some A_call →
  _func_mappings st !! "label" = Some A_label_goto_if_goto →
  _code_patterns st !! "_label" = Some raw_label →
  translate (S depth) st self = Ok st2 →
  let return_label := "RETURN_" +:+ pretty (_idx self + 1) in
  ∃ cmd_lst st_mid label_code,
    call_cmd_lst self = Ok (cmd_lst ++ [["label"; return_label]])%list
    ∧ translate_lines (translate depth) cmd_lst (_make_comm self st) = Ok st_mid
    ∧ format raw_label [("var_1", return_label)] = Ok label_code
    ∧ st2 = emit (label_code +:+ newline) st_mid.
Proof.
  intros Hcmd Hfc Hfl Hraw H return_label.
  destruct (translate_call_Ok depth st self st2 Hcmd Hfc H) as (cmd_lst & Hlst & Htr).
  destruct (call_cmd_lst_Ok self cmd_lst Hlst) as (c & f & n & rest & Hline).
  set (body := [["push"; "constant"; return_label];
                ["push"; "pointer"; "-2"]; ["push"; "pointer"; "-1"];
                ["push"; "pointer"; "0"]; ["push"; "pointer"; "1"];
                ["push"; "pointer"; "-3"]; ["push"; "constant"; "5"]; ["sub"];
                ["push"; "constant"; n]; ["sub"]; ["pop"; "pointer"; "-1"];
                ["push"; "pointer"; "-3"]; ["pop"; "pointer"; "-2"];
                ["goto"; f]]).
  assert (cmd_lst = (body ++ [["label"; return_label]])%list) as ->.
  { unfold call_cmd_lst in Hlst. rewrite Hline in Hlst.
    change ((c :: f :: n :: rest) !! 1%nat) with (Some f) in Hlst.
    change ((c :: f :: n :: rest) !! 2%nat) with (Some n) in Hlst.
    rewrite !or_raise_Some, !bind_Ok_l in Hlst. by injection Hlst as <-. }
  rewrite translate_lines_app in Htr.
  apply bind_Ok in Htr as (st_mid & Hmid & Hlast).
  rewrite translate_lines_cons in Hlast.
  change (__init__ ["label"; return_label] "" 0)
    with (Ok (MkTranslator ["label"; return_label] "" "label" 0 None)) in Hlast.
  rewrite bind_Ok_l in Hlast.
  pose proof (translate_lines_tables _ (translate_tables depth) _ _ _ Hmid)
    as [Hp Hm].
  change (_code_patterns (_make_comm self st)) with (_code_patterns st) in Hp.
  change (_func_mappings (_make_comm self st)) with (_func_mappings st) in Hm.
  destruct depth as [|depth]; [discriminate Hlast|].
  rewrite (translate_jump depth st_mid _ return_label raw_label) in Hlast;
    [|solve_elem|reflexivity|by rewrite Hm|by rewrite Hp].
  rewrite (bool_decide_eq_false_2 (_ ≠ "label")) in Hlast
    by (intros Hne; by apply Hne).
  destruct (format raw_label [("var_1", return_label)]) as [label_code|];
    [|discriminate Hlast].
  rewrite !bind_Ok_l in Hlast. change (translate_lines _ [] ?s) with (Ok s) in Hlast.
  exists body, st_mid, label_code. repeat split; [exact Hlst|exact Hmid|].
  congruence.
Qed.

Lemma call_sites_lookup (lines : list (list string)) :
  ∀ k idx line,
    (idx, line) ∈ List.filter
                    (λ p : Z * list string, bool_decide (head p.2 = Some "call"))
                    (enumerate_from k lines) →
    k ≤ idx ∧ lines !! Z.to_nat (idx - k) = Some line ∧ head line = Some "call".
Proof.
  induction lines as [|l lines IH]; intros k idx line Hin; simpl in Hin.
  - by apply elem_of_nil in Hin.
  - assert ((idx, line) = (k, l) ∧ head l = Some "call"
            ∨ (idx, line) ∈ List.filter
                 (λ p : Z * list string, bool_decide (head p.2 = Some "call"))
                 (enumerate_from (k + 1) lines)) as [[Heq Hl]|Hin'].
    { case_bool_decide; [|by right].
      apply elem_of_cons in Hin as [Heq|Hin]; [by left|by right]. }
    + injection Heq as -> ->. rewrite Z.sub_diag. split; [lia|done].
    + destruct (IH _ _ _ Hin') as (Hle & Hl & Hh).
      split; [lia|]. split; [|done].
      replace (Z.to_nat (idx - k)) with (S (Z.to_nat (idx - (k + 1)))) by lia.
      done.
Qed.

Lemma main_loop_call_site depth before line after :
  ∀ st curr_class st',
    head line = Some "call" →
    main_loop depth st curr_class (enumerate (before ++ line :: after)) = Ok st' →
    ∃ st1 cls st2,
      main_loop depth st curr_class (enumerate before) = Ok st1
      ∧ translate depth st1
          (MkTranslator line cls "call" (Z.of_nat (length before)) None)
        = Ok st2
      ∧ main_loop depth st2 cls
          (enumerate_from (Z.of_nat (length before) + 1) after)
        = Ok st'.
Proof.
  intros st curr_class st' Hhead H. unfold enumerate in *.
  rewrite enumerate_from_app in H.
  apply main_loop_app in H as (st1 & cls & H1 & H2).
  exists st1, cls. rewrite Z.add_0_l in H2. cbn [enumerate_from main_loop] in H2.
  destruct line as [|cmd args]; [discriminate Hhead|].
  injection Hhead as ->.
  change (("call" :: args) !! 0%nat) with (Some "call") in H2.
  rewrite or_raise_Some, bind_Ok_l in H2.
  rewrite (decide_False (P := "call" = "function")) in H2 by discriminate.
  rewrite bind_Ok_l in H2. unfold __init__ in H2.
  change (("call" :: args) !! 0%nat) with (Some "call") in H2.
  rewrite or_raise_Some, !bind_Ok_l in H2.
  apply bind_Ok in H2 as (st2 & Ht & H2).
  by exists st2.
Qed.

(** C3. In a translated program every [call] emits the declaration of the
    return label [RETURN_<idx + 1>], where [idx] is the position of the
    call among the lines the loop of [main] translates, its counter: the
    output of the lines before the call, the comment and the commands of
    the call, then the filled [_label] pattern for that name, then the
    output of the lines after it.  There are as many call sites as the
    program has calls, no two of them get the same label, and the numbers
    grow with the order of the call sites. *)
Theorem return_labels_emitted (depth : nat) (st st' : state) (curr_class : string)
    (parsed_vm : list (list string)) (raw_label : string) :
  _func_mappings st !! "call" = Some A_call →
  _func_mappings st !! "label" = Some A_label_goto_if_goto →
  _code_patterns st !! "_label" = Some raw_label →
  main_loop (S depth) st curr_class (enumerate parsed_vm) = Ok st' →
  (∀ idx line,
     (idx, line) ∈ call_sites parsed_vm →
     let return_label := "RETURN_" +:+ pretty (idx + 1) in
     let before := take (Z.to_nat idx) parsed_vm in
     let after := drop (S (Z.to_nat idx)) parsed_vm in
     ∃ st1 cls cmd_lst st_mid label_code post,
       parsed_vm = (before ++ line :: after)%list
       ∧ main_loop (S depth) st curr_class (enumerate before) = Ok st1
       ∧ call_cmd_lst (MkTranslator line cls "call" idx None)
         = Ok (cmd_lst ++ [["label"; return_label]])%list
       ∧ translate_lines (translate depth) cmd_lst
           (_make_comm (MkTranslator line cls "call" idx None) st1)
         = Ok st_mid
       ∧ format raw_label [("var_1", return_label)] = Ok label_code
       ∧ main_loop (S depth) (emit (label_code +:+ newline) st_mid) cls
           (enumerate_from (idx + 1) after)
         = Ok st'
       ∧ _asm_code st' = _asm_code st_mid +:+ label_code +:+ newline +:+ post)
  ∧ Z.of_nat (length (call_sites parsed_vm)) = occurrences "call" parsed_vm
  ∧ NoDup ((λ p : Z * list string, "RETURN_" +:+ pretty (p.1 + 1))
             <$> call_sites parsed_vm)
  ∧ StronglySorted Z.lt ((λ p : Z * list string, p.1 + 1) <$> call_sites parsed_vm).
Proof.
  intros Hfc Hfl Hraw H.
  destruct (call_sites_sorted parsed_vm 0) as [_ Hs].
  split; [|split; [|split]].
  - intros idx line Hin return_label before after.
    destruct (call_sites_lookup parsed_vm 0 idx line Hin) as (Hle & Hl & Hh).
    rewrite Z.sub_0_r in Hl.
    assert (parsed_vm = (before ++ line :: after)%list) as Hsplit
      by (symmetry; by apply take_drop_middle).
    assert (Z.of_nat (length before) = idx) as Hlen.
    { unfold before. rewrite length_take.
      apply lookup_lt_Some in Hl. lia. }
    pose proof H as H'. rewrite Hsplit in H'.
    apply main_loop_call_site in H' as (st1 & cls & st2 & H1 & Ht & H2);
      [|exact Hh].
    rewrite Hlen in Ht, H2.
    pose proof (main_loop_tables _ _ _ _ _ H1) as [Hp Hm].
    rewrite <-Hm in Hfc, Hfl. rewrite <-Hp in Hraw.
    destruct (translate_call_label depth st1
                (MkTranslator line cls "call" idx None) st2 raw_label
                eq_refl Hfc Hfl Hraw Ht)
      as (cmd_lst & st_mid & label_code & Hlst & Hmid & Hfmt & ->).
    pose proof (main_loop_extends _ _ _ _ _ H2) as (post & Hpost).
    exists st1, cls, cmd_lst, st_mid, label_code, post.
    repeat split; try done.
    rewrite Hpost. unfold emit. simpl. by rewrite !append_assoc.
  - unfold call_sites, occurrences, enumerate. f_equal. apply call_sites_length.
  - by apply sorted_labels_NoDup.
  - by apply sorted_numbers.
Qed.

Lemma return_labels_emitted_witness :
  ∃ st' st_mid,
    main_loop 2 loaded ""
      (enumerate [["call"; "Main.f"; "0"]; ["push"; "constant"; "1"];
                  ["call"; "Main.g"; "1"]]) = Ok st'
    ∧ st' = emit ("(RETURN_3)" +:+ newline +:+ newline) st_mid
    ∧ (λ p : Z * list string, "RETURN_" +:+ pretty (p.1 + 1))
        <$> call_sites [["call"; "Main.f"; "0"]; ["push"; "constant"; "1"];
                        ["call"; "Main.g"; "1"]]
      = ["RETURN_1"; "RETURN_3"].
Proof.
  destruct (main_loop 2 loaded ""
              (enumerate [["call"; "Main.f"; "0"]; ["push"; "constant"; "1"];
                          ["call"; "Main.g"; "1"]])) as [st'|e] eqn:E.
  - destruct (return_labels_emitted 1 loaded st' "" _ ("({var_1})" +:+ newline)
                ltac:(vm_compute; reflexivity) ltac:(vm_compute; reflexivity)
                ltac:(vm_compute; reflexivity) E) as (Hsites & _).
    destruct (Hsites 2 ["call"; "Main.g"; "1"] ltac:(solve_elem))
      as (st1 & cls & cmd_lst & st_mid & label_code & post
          & _ & _ & _ & _ & Hfmt & Hloop & _).
    vm_compute in Hfmt. injection Hfmt as <-.
    simpl in Hloop. injection Hloop as <-.
    exists (emit ("(RETURN_3)" +:+ newline +:+ newline) st_mid), st_mid.
    split; [reflexivity|]. split; [reflexivity|]. vm_compute. reflexivity.
  - vm_compute in E. discriminate E.
Defined.

(** A label of the source is emitted as it is: one that is named like the
    return label of a call site is declared twice in the output. *)
Lemma return_label_declared_twice :
  ∃ out,
    main 2 loaded [["label"; "RETURN_2"]; ["call"; "Main.f"; "0"]] false = Ok out
    ∧ count_lines "(RETURN_2)" out = 2%nat.
Proof. eexists. split; vm_compute; reflexivity. Qed.

(** ** C4 *)

Lemma helper_same_cmd self self' :
  (if bool_decide (_cmd self ∈ ["pop"; "push"])
   then _pop_push_helper self else Ok self) = Ok self' →
  _cmd self' = _cmd self.
Proof.
  destruct (bool_decide _); [|by intros [= <-]].
  unfold _pop_push_helper. intros H. ok_steps H. by subst self'.
Qed.

Lemma primitive_not_comparison cmd :
  cmd ∈ primitive_opcodes → cmd ∉ comparisons.
Proof.
  unfold primitive_opcodes. intros H Hc.
  elem_cases H; subst cmd; apply (bool_decide_pack _) in Hc; by vm_compute in Hc.
Qed.

Lemma counting_ok_same st st' :
  same_tables st st' → _lt_eq_gt_counter st' = _lt_eq_gt_counter st →
  counting_ok st → counting_ok st'.
Proof. unfold counting_ok. intros [_ ->] ->. done. Qed.

(** The commands of an expansion leave the counters alone. *)
Lemma translate_lines_counter tr cmd_lst :
  (∀ st self st', counting_ok st → _cmd self ∉ comparisons →
                  tr st self = Ok st' →
                  same_tables st st'
                  ∧ _lt_eq_gt_counter st' = _lt_eq_gt_counter st) →
  Forall primitive cmd_lst →
  ∀ st st', counting_ok st → translate_lines tr cmd_lst st = Ok st' →
            _lt_eq_gt_counter st' = _lt_eq_gt_counter st.
Proof.
  intros Htr. induction 1 as [|line cmd_lst Hline _ IH]; intros st st' Hok H.
  - simpl in H. by injection H as <-.
  - rewrite translate_lines_cons in H. ok_steps H.
    apply init_cmd in E as (Hhead & _).
    destruct Hline as (cmd & Hcmd & Hprim).
    assert (cmd = _cmd x) as -> by congruence.
    destruct (Htr _ _ _ Hok (primitive_not_comparison _ Hprim) E0) as [Ht Hc].
    rewrite <-Hc. apply IH; [|done]. by apply (counting_ok_same st).
Qed.

(** [translate] counts the comparisons, each on its own counter, and
    nothing else. *)
Lemma translate_counter depth :
  ∀ st self st',
    counting_ok st → translate depth st self = Ok st' →
    (_cmd self ∈ comparisons →
     ∃ n, _lt_eq_gt_counter st !! _cmd self = Some n
          ∧ _lt_eq_gt_counter st'
            = <[ _cmd self := n + 1 ]> (_lt_eq_gt_counter st))
    ∧ (_cmd self ∉ comparisons →
       _lt_eq_gt_counter st' = _lt_eq_gt_counter st).
Proof.
  induction depth as [|depth IH]; intros st self st' Hok H; [discriminate|].
  assert (∀ st self st', counting_ok st → _cmd self ∉ comparisons →
            translate depth st self = Ok st' →
            same_tables st st'
            ∧ _lt_eq_gt_counter st' = _lt_eq_gt_counter st) as Hsub.
  { intros st0 self0 st0' Hok0 Hc0 H0. split; [by eapply translate_tables|].
    by apply (IH st0 self0 st0' Hok0 H0). }
  rewrite translate_S in H. unfold translate_body in H.
  set (st1 := if bool_decide (_cmd self ≠ "label")
              then _make_comm self st else st) in H.
  assert (_func_mappings st1 = _func_mappings st) as Hm
    by (unfold st1; by destruct (bool_decide (_cmd self ≠ "label"))).
  assert (_lt_eq_gt_counter st1 = _lt_eq_gt_counter st) as Hc
    by (unfold st1; by destruct (bool_decide (_cmd self ≠ "label"))).
  assert (counting_ok st1) as Hok1.
  { destruct Hok as [Ha Hb]. split; [by rewrite Hm|by rewrite Hc]. }
  rewrite Hm in H.
  destruct (_func_mappings st !! _cmd self) as [f|] eqn:Hf; [|discriminate].
  rewrite or_raise_Some, bind_Ok_l in H.
  destruct (attr_name f) as [func_name|]; [|discriminate].
  rewrite bind_Ok_l in H.
  destruct (pattern_name_of self func_name) as [pattern_name|]; [|discriminate].
  rewrite bind_Ok_l in H.
  destruct (if bool_decide (_cmd self ∈ ["pop"; "push"])
            then _pop_push_helper self else Ok self) as [self'|] eqn:Hself;
    [|discriminate].
  apply helper_same_cmd in Hself.
  rewrite bind_Ok_l in H.
  destruct (or_raise KeyError (_code_patterns st1 !! pattern_name))
    as [raw_code|]; [|discriminate].
  rewrite bind_Ok_l in H.
  destruct (call_attr (translate depth) f self' raw_code st1) as [r|] eqn:Hr;
    [|discriminate].
  rewrite bind_Ok_l in H. injection H as <-.
  change (_lt_eq_gt_counter (emit r.2 r.1)) with (_lt_eq_gt_counter r.1).
  rewrite <-Hc. split.
  - intros Hcmp. destruct Hok as [Ha _].
    rewrite (Ha _ Hcmp) in Hf. injection Hf as <-.
    unfold call_attr, _lt_eq_gt in Hr. rewrite Hself in Hr.
    ok_steps Hr. subst r. apply or_raise_Ok in E. by exists x.
  - intros Hcmp. destruct f; unfold call_attr in Hr.
    1-3, 5: unfold no_state in Hr; ok_steps Hr; by subst r.
    + unfold _lt_eq_gt in Hr. rewrite Hself in Hr. ok_steps Hr.
      apply or_raise_Ok in E. destruct Hok1 as [_ Hb].
      destruct Hcmp. apply Hb. by eexists.
    + unfold _function in Hr. ok_steps Hr. subst r. simpl.
      eapply (translate_lines_counter _ _ Hsub); [|exact Hok1|eassumption].
      by eapply function_primitive.
    + unfold _call in Hr. ok_steps Hr. subst r. simpl.
      eapply (translate_lines_counter _ _ Hsub); [|exact Hok1|eassumption].
      by eapply call_primitive.
    + unfold _return in Hr. ok_steps Hr. subst r. simpl.
      eapply (translate_lines_counter _ _ Hsub); [|exact Hok1|eassumption].
      apply return_primitive.
    + repeat case_decide; discriminate.
    + discriminate.
Qed.

Lemma occurrences_cons cmd line lines :
  occurrences cmd (line :: lines)
  = (if bool_decide (head line = Some cmd) then 1 else 0) + occurrences cmd lines.
Proof.
  unfold occurrences. rewrite filter_cons.
  destruct (bool_decide (head line = Some cmd)); simpl length; lia.
Qed.

Lemma occurrences_app cmd l1 l2 :
  occurrences cmd (l1 ++ l2) = occurrences cmd l1 + occurrences cmd l2.
Proof.
  induction l1 as [|line l1 IH]; [done|].
  change ((line :: l1) ++ l2)%list with (line :: (l1 ++ l2))%list.
  rewrite !occurrences_cons, IH. lia.
Qed.

Lemma occurrences_nonneg cmd lines : 0 ≤ occurrences cmd lines.
Proof. unfold occurrences. lia. Qed.

Lemma snd_enumerate_from {A} (l : list A) :
  ∀ k, snd <$> enumerate_from k l = l.
Proof. induction l as [|x l IH]; intros k; simpl; [done|]. by rewrite IH. Qed.

(** After the loop of [main], every comparison counter has grown by the
    number of times its comparison stands in the program. *)
Lemma main_loop_counter depth lines :
  ∀ st curr_class st',
    counting_ok st →
    main_loop depth st curr_class lines = Ok st' →
    counting_ok st'
    ∧ ∀ op, op ∈ comparisons →
        _lt_eq_gt_counter st' !! op
        = (λ n, n + occurrences op (snd <$> lines)) <$> _lt_eq_gt_counter st !! op.
Proof.
  induction lines as [|[idx line] lines IH]; intros st curr_class st' Hok H;
    simpl in H.
  - injection H as <-. split; [done|]. intros op _.
    destruct (_lt_eq_gt_counter st !! op) as [n|]; simpl; [|done].
    f_equal. unfold occurrences. simpl. lia.
  - ok_steps H.
    match goal with
    | Hi : __init__ _ _ _ = Ok ?t, Ht : translate _ _ ?t = Ok ?s |- _ =>
        apply init_cmd in Hi as (Hhead & _);
        rename t into self; rename s into st1; rename Ht into Htr
    end.
    destruct (translate_counter depth st self st1 Hok Htr) as [Hin Hout].
    pose proof (translate_tables _ _ _ _ Htr) as Htab.
    assert (counting_ok st1) as Hok1.
    { destruct (decide (_cmd self ∈ comparisons)) as [Hc|Hc].
      - destruct (Hin Hc) as (n & Hn & Hst1). destruct Hok as [Ha Hb].
        destruct Htab as [_ Hm]. split; [by rewrite Hm|].
        intros c. rewrite Hst1.
        destruct (decide (_cmd self = c)) as [<-|Hne]; [done|].
        rewrite lookup_insert_ne by done. apply Hb.
      - by apply (counting_ok_same st); [|apply Hout|]. }
    destruct (IH st1 _ st' Hok1 H) as [Hok' Hcount].
    split; [exact Hok'|]. intros op Hop. rewrite (Hcount op Hop).
    rewrite fmap_cons, occurrences_cons. simpl snd. rewrite Hhead.
    destruct (decide (_cmd self ∈ comparisons)) as [Hc|Hc].
    + destruct (Hin Hc) as (n & Hn & Hst1). rewrite Hst1.
      destruct (decide (_cmd self = op)) as [<-|Hne].
      * rewrite lookup_insert_eq, Hn, bool_decide_eq_true_2 by done.
        simpl. f_equal. lia.
      * rewrite lookup_insert_ne by done.
        rewrite bool_decide_eq_false_2 by congruence.
        destruct (_lt_eq_gt_counter st !! op); simpl; [|done]. f_equal.
    + rewrite (Hout Hc).
      rewrite bool_decide_eq_false_2 by (intros [= Heq]; by rewrite Heq in Hc).
      destruct (_lt_eq_gt_counter st !! op); simpl; [|done]. f_equal.
Qed.

(** The translation of a comparison whose counter stands at [n]. *)
Lemma translate_comparison depth st self n raw_code :
  _cmd self ∈ comparisons →
  _lt_eq_gt_counter st !! _cmd self = Some n →
  _func_mappings st !! _cmd self = Some A_lt_eq_gt →
  _code_patterns st !! "_lt_eq_gt" = Some raw_code →
  ∃ jump,
    translate (S depth) st self
    = (code ← format raw_code
                [("var_1", upper (_cmd self)); ("var_2", jump);
                 ("var_3", pretty n)];
       Ok (emit (code +:+ newline)
             (set_counter (<[ _cmd self := n + 1 ]> (_lt_eq_gt_counter st))
                (_make_comm self st)))).
Proof.
  intros Hcmd Hn Hf Hraw.
  assert (_cmd self ∉ ["pop"; "push"; "label"; "goto"; "if-goto"]) as Hplain.
  { intros Hin. unfold comparisons in Hcmd.
    elem_cases Hcmd; rewrite Hcmd in Hin; apply (bool_decide_pack _) in Hin;
      by vm_compute in Hin. }
  rewrite translate_S,
    (translate_body_plain _ st self A_lt_eq_gt "_lt_eq_gt" raw_code) by done.
  unfold call_attr, _lt_eq_gt.
  change (_lt_eq_gt_counter (_make_comm self st)) with (_lt_eq_gt_counter st).
  rewrite Hn, or_raise_Some, bind_Ok_l.
  assert (∃ jump,
            ({[ "lt" := "JGT"; "eq" := "JEQ"; "gt" := "JLT" ]} : gmap string string)
              !! _cmd self = Some jump) as (jump & Hj).
  { unfold comparisons in Hcmd.
    elem_cases Hcmd; rewrite Hcmd; eexists; by vm_compute. }
  exists jump. rewrite Hj, or_raise_Some, bind_Ok_l.
  change (_lt_eq_gt_counter (set_counter ?c _)) with c.
  rewrite lookup_insert_eq, or_raise_Some, bind_Ok_l.
  unfold lt_eq_gt_kwargs. rewrite Z.add_simpl_r.
  by destruct (format raw_code _).
Qed.

Lemma class_init_counter_keys c :
  is_Some (_lt_eq_gt_counter class_init !! c) → c ∈ comparisons.
Proof.
  intros Hc. destruct (decide (c ∈ comparisons)) as [|Hn]; [done|].
  assert (c ≠ "lt") by (intros ->; apply Hn; solve_elem).
  assert (c ≠ "eq") by (intros ->; apply Hn; solve_elem).
  assert (c ≠ "gt") by (intros ->; apply Hn; solve_elem).
  destruct Hc as [n Hc]. simpl in Hc.
  rewrite !lookup_insert_ne in Hc by done.
  by rewrite lookup_singleton_ne in Hc.
Qed.

Lemma class_init_counter_zero c :
  c ∈ comparisons → _lt_eq_gt_counter class_init !! c = Some 0.
Proof. unfold comparisons. intros Hc. elem_cases Hc; by rewrite Hc. Qed.

(** C4 (amended). The counters of lt, eq and gt are independent, and each
    grows by one with every occurrence of its own comparison, before the
    labels are built: a comparison that comes after [prefix] in a program
    translated from the initial counters is translated with [var_3] equal
    to the number of occurrences of the same comparison in [prefix] (the
    n-th occurrence gets n - 1), and only its own counter changes.  Any
    later occurrence of the same comparison gets a greater number, so the
    labels of one operator never collide.  The commands eq, gt, eq, lt, eq
    get the numbers 0, 0, 1, 0, 2. *)
Theorem comparison_label_indices (depth depth' : nat) (st st1 : state)
    (curr_class : string) (prefix : list (list string))
    (line : list string) (class_name : string) (idx : Z)
    (self : Translator) (raw_code : string) :
  _lt_eq_gt_counter st = _lt_eq_gt_counter class_init →
  (∀ c, c ∈ comparisons → _func_mappings st !! c = Some A_lt_eq_gt) →
  _code_patterns st !! "_lt_eq_gt" = Some raw_code →
  main_loop depth st curr_class (enumerate prefix) = Ok st1 →
  __init__ line class_name idx = Ok self →
  _cmd self ∈ comparisons →
  let n := occurrences (_cmd self) prefix in
  (∃ jump,
     translate (S depth') st1 self
     = (code ← format raw_code
                 [("var_1", upper (_cmd self)); ("var_2", jump);
                  ("var_3", pretty n)];
        Ok (emit (code +:+ newline)
              (set_counter (<[ _cmd self := n + 1 ]> (_lt_eq_gt_counter st1))
                 (_make_comm self st1)))))
  ∧ (∀ more, n < occurrences (_cmd self) (prefix ++ line :: more))
  ∧ label_indices
      <$> main_trace 2 loaded ""
            (enumerate [["eq"]; ["gt"]; ["eq"]; ["lt"]; ["eq"]])
    = Ok [0; 0; 1; 0; 2].
Proof.
  intros Hc0 Hmap Hraw Hloop Hinit Hcmd n.
  assert (counting_ok st) as Hok.
  { split; [exact Hmap|]. intros c. rewrite Hc0. apply class_init_counter_keys. }
  destruct (main_loop_counter depth _ st curr_class st1 Hok Hloop)
    as [[Hmap1 _] Hcount].
  pose proof (Hcount _ Hcmd) as Hn.
  unfold enumerate in Hn. rewrite snd_enumerate_from in Hn.
  rewrite Hc0, (class_init_counter_zero _ Hcmd) in Hn. simpl in Hn.
  fold n in Hn.
  destruct (main_loop_tables _ _ _ _ _ Hloop) as [Hpat _].
  rewrite <-Hpat in Hraw.
  split; [|split].
  - by apply translate_comparison; [|exact Hn|apply Hmap1|].
  - intros more. apply init_cmd in Hinit as (Hhead & _).
    rewrite occurrences_app, occurrences_cons.
    rewrite bool_decide_eq_true_2 by done.
    pose proof (occurrences_nonneg (_cmd self) more). fold n. lia.
  - vm_compute. reflexivity.
Qed.

Lemma comparison_label_indices_witness :
  ∃ st1,
    main_loop 2 loaded "" (enumerate [["eq"]; ["gt"]; ["eq"]; ["lt"]]) = Ok st1
    ∧ ∃ jump,
        translate 1 st1 (MkTranslator ["eq"] "" "eq" 4 None)
        = (code ← format (default "" (_code_patterns loaded !! "_lt_eq_gt"))
                    [("var_1", "EQ"); ("var_2", jump); ("var_3", "2")];
           Ok (emit (code +:+ newline)
                 (set_counter (<[ "eq" := 3 ]> (_lt_eq_gt_counter st1))
                    (_make_comm (MkTranslator ["eq"] "" "eq" 4 None) st1)))).
Proof.
  destruct (main_loop 2 loaded "" (enumerate [["eq"]; ["gt"]; ["eq"]; ["lt"]]))
    as [st1|e] eqn:E.
  - exists st1. split; [reflexivity|].
    refine (proj1 (comparison_label_indices 2 0 loaded st1 ""
                     [["eq"]; ["gt"]; ["eq"]; ["lt"]] ["eq"] "" 4
                     (MkTranslator ["eq"] "" "eq" 4 None)
                     (default "" (_code_patterns loaded !! "_lt_eq_gt"))
                     _ _ _ E _ _)).
    + reflexivity.
    + intros c Hc. unfold comparisons in Hc.
      elem_cases Hc; rewrite Hc; vm_compute; reflexivity.
    + vm_compute. reflexivity.
    + reflexivity.
    + solve_elem.
  - assert (is_ok (main_loop 2 loaded ""
                     (enumerate [["eq"]; ["gt"]; ["eq"]; ["lt"]])) = true) as H
      by (vm_compute; reflexivity).
    rewrite E in H. discriminate H.
Defined.

(** The claim as stated fails on its own example: the third eq of
    eq, gt, eq, lt, eq gets the number 2, not 0. *)
Lemma interleaved_comparisons_indices :
  label_indices
    <$> main_trace 2 loaded ""
          (enumerate [["eq"]; ["gt"]; ["eq"]; ["lt"]; ["eq"]])
  = Ok [0; 0; 1; 0; 2]
  ∧ label_indices
      <$> main_trace 2 loaded ""
            (enumerate [["eq"]; ["gt"]; ["eq"]; ["lt"]; ["eq"]])
    ≠ Ok [0; 0; 1; 0; 0].
Proof.
  assert (label_indices
            <$> main_trace 2 loaded ""
                  (enumerate [["eq"]; ["gt"]; ["eq"]; ["lt"]; ["eq"]])
          = Ok [0; 0; 1; 0; 2]) as H by (vm_compute; reflexivity).
  split; [exact H|]. rewrite H. discriminate.
Qed.

(** * Further properties of the code *)

(** ** The parser *)

Lemma all_chars_app r a b :
  all_chars r (a +:+ b) = all_chars r a && all_chars r b.
Proof.
  induction a as [|c a IH]; [done|].
  rewrite append_cons, !all_chars_cons, IH. by destruct (r c).
Qed.

Lemma all_chars_rev_app r a b :
  all_chars r (String.rev_app a b) = all_chars r a && all_chars r b.
Proof.
  revert b. induction a as [|c a IH]; intros b; [done|].
  simpl String.rev_app. rewrite IH, !all_chars_cons.
  destruct (r c), (all_chars r a), (all_chars r b); done.
Qed.

Lemma all_chars_rev r a : all_chars r (String.rev a) = all_chars r a.
Proof.
  unfold String.rev. rewrite all_chars_rev_app.
  by destruct (all_chars r a).
Qed.

Lemma rev_app_rev_app a b c :
  String.rev_app (String.rev_app a b) c = String.rev_app b (a +:+ c).
Proof.
  revert b c. induction a as [|x a IH]; intros b c; [done|].
  simpl String.rev_app. by rewrite IH.
Qed.

Lemma rev_rev a : String.rev (String.rev a) = a.
Proof.
  unfold String.rev. rewrite rev_app_rev_app. simpl. apply append_nil_r.
Qed.

(** The pieces [split_go] cuts are made of the characters it is given,
    less the separators. *)
Lemma split_go_chars (r p : ascii → bool) s :
  ∀ cur,
    all_chars r cur = true →
    all_chars (λ c, p c || r c) s = true →
    Forall (λ t, all_chars r t = true) (split_go p cur s).
Proof.
  induction s as [|c s IH]; intros cur Hcur Hs; simpl.
  - constructor; [|constructor]. by rewrite all_chars_rev.
  - rewrite all_chars_cons in Hs. apply andb_true_iff in Hs as [Hc Hs].
    destruct (p c) eqn:Hp.
    + constructor; [by rewrite all_chars_rev|]. by apply IH.
    + apply IH; [|done]. rewrite all_chars_cons. simpl in Hc. by rewrite Hc.
Qed.

Lemma remove_comm_no_slash line : all_chars not_slash (_remove_comm_ line) = true.
Proof.
  induction line as [|c line IH]; [done|]. simpl.
  case_decide; [done|]. rewrite all_chars_cons, IH.
  unfold not_slash. by rewrite bool_decide_eq_false_2.
Qed.

Lemma all_chars_true r s : (∀ c, r c = true) → all_chars r s = true.
Proof.
  intros Hr. induction s as [|c s IH]; [done|].
  by rewrite all_chars_cons, Hr, IH.
Qed.

Lemma all_chars_impl (r1 r2 : ascii → bool) s :
  (∀ c, r1 c = true → r2 c = true) →
  all_chars r1 s = true → all_chars r2 s = true.
Proof.
  intros Hr. induction s as [|c s IH]; [done|].
  rewrite !all_chars_cons. intros [Hc Hs]%andb_true_iff.
  by rewrite (Hr c Hc), IH.
Qed.

Lemma Forall_filter_nonempty (P : string → Prop) l :
  Forall P l → Forall (λ t, nonempty t = true ∧ P t) (List.filter nonempty l).
Proof.
  induction 1 as [|t l Ht _ IH]; simpl; [constructor|].
  destruct (nonempty t) eqn:E; [constructor|]; done.
Qed.

Lemma parse_clean line_str :
  Forall (λ t, clean_token t = true) (parse line_str).
Proof.
  unfold parse, split_ws.
  assert (Forall (λ t, all_chars not_space t = true ∧ all_chars not_slash t = true)
            (split_go is_py_space "" (_remove_comm_ line_str))) as H.
  { apply Forall_and. split.
    - apply split_go_chars; [done|]. apply all_chars_true. intros c.
      unfold not_space. by destruct (is_py_space c).
    - apply split_go_chars; [done|].
      eapply all_chars_impl; [|apply remove_comm_no_slash].
      intros c ->. by destruct (is_py_space c). }
  apply Forall_filter_nonempty in H. eapply Forall_impl; [exact H|].
  intros t (Hn & Hs & Hl). unfold clean_token. by rewrite Hn, Hs, Hl.
Qed.

(** X1. The words [Parser.parse] hands out are never empty and never hold
    white space or a slash, whatever the line. *)
Theorem parse_tokens_clean (line_str : string) :
  Forall (λ t, clean_token t = true) (parse line_str).
Proof. exact (parse_clean line_str). Qed.

Lemma remove_comm_cut a b :
  all_chars not_slash a = true → _remove_comm_ (a +:+ "/" +:+ b) = a.
Proof.
  induction a as [|c a IH]; intros Ha; [done|].
  rewrite all_chars_cons in Ha. apply andb_true_iff in Ha as [Hc Ha].
  rewrite append_cons. simpl. unfold not_slash in Hc.
  case_decide as Heq; [by rewrite bool_decide_eq_true_2 in Hc|].
  by rewrite IH.
Qed.

Lemma remove_comm_id a : all_chars not_slash a = true → _remove_comm_ a = a.
Proof.
  induction a as [|c a IH]; intros Ha; [done|].
  rewrite all_chars_cons in Ha. apply andb_true_iff in Ha as [Hc Ha].
  simpl. unfold not_slash in Hc.
  case_decide as Heq; [by rewrite bool_decide_eq_true_2 in Hc|].
  by rewrite IH.
Qed.

(** X2. [Parser] drops a line from its first slash on: a single slash is
    enough, the text before it is parsed as if it were the whole line, and
    a line that starts with a slash gives no word at all. *)
Theorem parse_ignores_comment (code comment : string) :
  all_chars not_slash code = true →
  parse (code +:+ "/" +:+ comment) = parse code
  ∧ parse code = split_ws code
  ∧ parse ("/" +:+ comment) = [].
Proof.
  intros H. unfold parse.
  rewrite (remove_comm_cut code comment H), (remove_comm_id code H). done.
Qed.

Lemma parse_ignores_comment_witness :
  parse ("push constant 7 " +:+ "/" +:+ "/ the first argument")
  = parse "push constant 7 ".
Proof.
  refine (proj1 (parse_ignores_comment "push constant 7 "
                   "/ the first argument" _)).
  vm_compute. reflexivity.
Defined.

Lemma split_go_token p t :
  all_chars (λ c, negb (p c)) t = true →
  ∀ cur s, split_go p cur (t +:+ s) = split_go p (String.rev_app t cur) s.
Proof.
  induction t as [|c t IH]; intros Ht cur s; [done|].
  rewrite all_chars_cons in Ht. apply andb_true_iff in Ht as [Hc Ht].
  rewrite append_cons. simpl. destruct (p c); [done|]. by apply IH.
Qed.

Lemma split_ws_join tokens :
  Forall (λ t, clean_token t = true) tokens →
  split_ws (join " " tokens) = tokens.
Proof.
  unfold split_ws, join.
  induction 1 as [|t tokens Ht Hts IH]; [done|].
  unfold clean_token in Ht.
  apply andb_true_iff in Ht as [[Hn Hs]%andb_true_iff _].
  assert (String.rev (String.rev_app t "") = t) as Hrev by apply rev_rev.
  destruct tokens as [|t' tokens].
  - simpl String.concat. rewrite <-(append_nil_r t) at 1.
    rewrite (split_go_token _ t Hs). simpl. by rewrite Hrev, Hn.
  - change (String.concat " " (t :: t' :: tokens))
      with (t +:+ String " " (String.concat " " (t' :: tokens))).
    set (rest := String.concat " " (t' :: tokens)) in *.
    rewrite (split_go_token _ t Hs).
    change (split_go is_py_space (String.rev_app t "") (String " " rest))
      with (String.rev (String.rev_app t "") :: split_go is_py_space "" rest).
    rewrite Hrev, filter_cons, Hn. by rewrite IH.
Qed.

Lemma join_no_slash tokens :
  Forall (λ t, clean_token t = true) tokens →
  all_chars not_slash (join " " tokens) = true.
Proof.
  unfold join. induction 1 as [|t tokens Ht Hts IH]; [done|].
  unfold clean_token in Ht. apply andb_true_iff in Ht as [_ Hl].
  destruct tokens as [|t' tokens]; [done|].
  change (String.concat " " (t :: t' :: tokens))
    with (t +:+ String " " (String.concat " " (t' :: tokens))).
  by rewrite all_chars_app, all_chars_cons, Hl, IH.
Qed.

(** X3. Round trip: clean words of 7-bit characters, joined by single
    blanks as [_make_comm] joins them, are parsed back to the same words;
    and the words of a parsed line, joined, are parsed back to the same
    words. *)
Theorem parse_join_round_trip (line_str : string) (tokens : list string) :
  Forall (λ t, clean_token t = true) tokens →
  Forall (λ t, is_ascii t = true) tokens →
  parse (join " " tokens) = tokens
  ∧ parse (join " " (parse line_str)) = parse line_str.
Proof.
  assert (∀ l, Forall (λ t, clean_token t = true) l → parse (join " " l) = l)
    as Hrt.
  { intros l Hl. unfold parse.
    rewrite (remove_comm_id _ (join_no_slash l Hl)). by apply split_ws_join. }
  intros H _. split; [by apply Hrt|]. apply Hrt, parse_clean.
Qed.

Lemma parse_join_round_trip_witness :
  parse (join " " ["push"; "constant"; "7"]) = ["push"; "constant"; "7"].
Proof.
  refine (proj1 (parse_join_round_trip "" ["push"; "constant"; "7"] _ _));
    repeat constructor.
Defined.

(** ** [vm_parser] *)

Lemma vm_parser_line_ok line acc acc' :
  parsed_ok acc → vm_parser_line line acc = Ok acc' → parsed_ok acc'.
Proof.
  intros [Hall Hinit]. unfold vm_parser_line.
  pose proof (parse_clean line) as Hclean.
  destruct (parse line) as [|first [|second rest]] eqn:Hp; simpl.
  - by intros [= <-].
  - case_decide; [discriminate|]. intros [= <-]. split; simpl.
    + apply Forall_app. split; [done|]. constructor; [|constructor].
      split; [done|]. split; [done|]. by intros [= ?].
    + rewrite existsb_app, Hinit. simpl. unfold declares_init.
      rewrite (bool_decide_eq_false_2 (take 2 [first] = _)) by by intros [= ?].
      by destruct (existsb _ acc.1).
  - case_decide as Hf.
    + intros [= <-]. split; simpl.
      * apply Forall_app. split; [done|]. constructor; [|constructor].
        split; [done|]. split; [done|]. intros _. by eexists.
      * rewrite existsb_app, Hinit. simpl. unfold declares_init. subst first.
        case_decide as Hs.
        -- subst second. rewrite bool_decide_eq_true_2 by done.
           by destruct (existsb _ acc.1).
        -- rewrite bool_decide_eq_false_2 by (simpl; congruence).
           by destruct (existsb _ acc.1), acc.2.
    + intros [= <-]. split; simpl.
      * apply Forall_app. split; [done|]. constructor; [|constructor].
        split; [done|]. split; [done|]. intros [= ?]. done.
      * rewrite existsb_app, Hinit. simpl. unfold declares_init.
        rewrite bool_decide_eq_false_2 by (simpl; congruence).
        by destruct (existsb _ acc.1).
Qed.

Lemma vm_parser_file_ok file :
  ∀ acc acc', parsed_ok acc → vm_parser_file file acc = Ok acc' → parsed_ok acc'.
Proof.
  induction file as [|line file IH]; intros acc acc' Hacc H; simpl in H.
  - by injection H as <-.
  - ok_steps H. eapply IH; [|exact H]. by eapply vm_parser_line_ok.
Qed.

Lemma vm_parser_dir_ok dir :
  ∀ acc acc', parsed_ok acc → vm_parser_dir dir acc = Ok acc' → parsed_ok acc'.
Proof.
  induction dir as [|[name [file|]] dir IH]; intros acc acc' Hacc H; simpl in H.
  - by injection H as <-.
  - ok_steps H. eapply IH; [|exact H]. by eapply vm_parser_file_ok.
  - by eapply IH.
Qed.

(** X4. What [vm_parser] returns is fit for [main]: no parsed line is empty,
    every word is clean, every line that starts with [function] has a
    second word (so neither [Translator.__init__] nor the class-name update
    of [main] can raise [IndexError] on it), and [has_init] is set exactly
    when some line starts with the words [function Sys.init]. *)
Theorem vm_parser_output (dir : list (string * option (list string)))
    (parsed_vm : list (list string)) (has_init : bool) :
  vm_parser dir = Ok (parsed_vm, has_init) →
  Forall (λ l, l ≠ [] ∧ Forall (λ t, clean_token t = true) l) parsed_vm
  ∧ (∀ l, l ∈ parsed_vm → head l = Some "function" → is_Some (l !! 1%nat))
  ∧ (∀ l class_name idx,
       l ∈ parsed_vm → is_ok (__init__ l class_name idx) = true)
  ∧ has_init = existsb declares_init parsed_vm.
Proof.
  intros H. unfold vm_parser in H.
  assert (parsed_ok ([], false)) as H0 by (split; [constructor|done]).
  destruct (vm_parser_dir_ok dir _ _ H0 H) as [Hall Hinit]. simpl in *.
  rewrite Forall_forall in Hall.
  split; [|split; [|split]].
  - apply Forall_forall. intros l Hl. by destruct (Hall l Hl) as (? & ? & _).
  - intros l Hl. by destruct (Hall l Hl) as (_ & _ & ?).
  - intros l class_name idx Hl. destruct (Hall l Hl) as (Hne & _).
    by destruct l.
  - exact Hinit.
Qed.

Lemma vm_parser_output_witness :
  existsb declares_init
    [["function"; "Sys.init"; "0"]; ["push"; "constant"; "1"]] = true.
Proof.
  refine (eq_sym (proj2 (proj2 (proj2
    (vm_parser_output
       [("Sys.vm", Some ["function Sys.init 0 // entry"; ""; "push constant 1"]);
        ("lib", None)]
       [["function"; "Sys.init"; "0"]; ["push"; "constant"; "1"]] true _))))).
  vm_compute. reflexivity.
Defined.

Lemma vm_parser_file_app file1 file2 :
  ∀ acc, vm_parser_file (file1 ++ file2) acc
         = vm_parser_file file1 acc ≫= vm_parser_file file2.
Proof.
  induction file1 as [|line file1 IH]; intros acc; [done|].
  simpl. destruct (vm_parser_line line acc) as [acc'|]; simpl; [|done].
  apply IH.
Qed.

(** X5. [vm_parser] reads every regular file of the directory, whatever
    its name or extension, and skips what is not a regular file; the
    boundaries between files do not matter: the result is that of parsing
    the lines of the regular files, taken in the order of the listing, as
    one file. *)
Theorem vm_parser_concatenates (dir : list (string * option (list string))) :
  vm_parser dir = vm_parser_file (all_lines dir) ([], false).
Proof.
  unfold vm_parser. generalize (([], false) : list (list string) * bool).
  induction dir as [|[name [file|]] dir IH]; intros acc; [done|..].
  - unfold all_lines. rewrite fmap_cons. simpl mjoin.
    rewrite vm_parser_file_app. simpl vm_parser_dir.
    destruct (vm_parser_file file acc) as [acc'|]; [|done].
    rewrite !bind_Ok_l. apply IH.
  - apply IH.
Qed.

(** X6. A line adds nothing to [parsed_vm] when it has no word before its
    first slash, and [vm_parser] raises (an [IndexError]) on exactly one
    kind of line: the single word [function]. *)
Theorem vm_parser_line_edges (line : string) (acc : list (list string) * bool) :
  (parse line = [] → vm_parser_line line acc = Ok acc)
  ∧ (vm_parser_line line acc = Err IndexError ↔ parse line = ["function"])
  ∧ (∀ e, vm_parser_line line acc = Err e → e = IndexError).
Proof.
  unfold vm_parser_line.
  destruct (parse line) as [|first [|second rest]]; simpl.
  - split; [done|]. split; [split; discriminate|discriminate].
  - split; [discriminate|]. case_decide as Hf.
    + subst first. split; [done|]. by intros e [= <-].
    + split; [split; [discriminate|intros [= ?]; done]|discriminate].
  - split; [discriminate|]. case_decide; (split; [split|]; discriminate).
Qed.

(** ** The loop of [main] *)

Lemma main_prefix_flag depth st prefix more has_init out :
  main depth st (prefix ++ more) has_init = Ok out →
  ∃ out1 tail,
    main depth st prefix has_init = Ok out1 ∧ out = out1 +:+ tail.
Proof.
  unfold main. intros H. ok_steps H. subst out.
  set (lines := if has_init then ["goto"; "Sys.init"] :: prefix else prefix).
  assert ((if has_init then ["goto"; "Sys.init"] :: (prefix ++ more)%list
           else (prefix ++ more)%list) = (lines ++ more)%list) as Heq
    by (unfold lines; by destruct has_init).
  rewrite Heq in E. unfold enumerate in *. rewrite enumerate_from_app in E.
  apply main_loop_app in E as (st1 & class1 & H1 & H2).
  apply main_loop_extends in H2 as (tail & Htail).
  exists (_asm_code st1), tail. by rewrite H1.
Qed.

(** X7. The translation of a program starts with the translation of any
    of its prefixes that has the same entry flag, the flag being what
    [vm_parser] derives from the lines (some line declares [Sys.init]):
    when the program is translated, so is the prefix, and the output of
    the program is the output of the prefix with more text after it.  The
    flags agree when the rest declares no entry function, and when the
    prefix declares one. *)
Theorem main_prefix (depth : nat) (st : state)
    (prefix more : list (list string)) (out : string) :
  let has_init := existsb declares_init in
  main depth st (prefix ++ more)%list (has_init (prefix ++ more)%list) = Ok out →
  has_init prefix = has_init (prefix ++ more)%list →
  (∃ out1 tail,
     main depth st prefix (has_init prefix) = Ok out1 ∧ out = out1 +:+ tail)
  ∧ (has_init more = false → has_init prefix = has_init (prefix ++ more)%list)
  ∧ (has_init prefix = true → has_init prefix = has_init (prefix ++ more)%list).
Proof.
  intros has_init H Heq. split; [|split].
  - rewrite Heq. by apply main_prefix_flag with more.
  - unfold has_init. rewrite existsb_app. intros ->. by rewrite orb_false_r.
  - unfold has_init. rewrite existsb_app. by intros ->.
Qed.

Lemma main_prefix_witness :
  ∃ out1 tail,
    main 2 loaded [["function"; "Sys.init"; "0"]] true = Ok out1
    ∧ default "" (match main 2 loaded
                          ([["function"; "Sys.init"; "0"]]
                           ++ [["call"; "Sys.f"; "1"]])%list
                          true with Ok out => Some out | Err _ => None end)
      = out1 +:+ tail.
Proof.
  destruct (main 2 loaded
              ([["function"; "Sys.init"; "0"]] ++ [["call"; "Sys.f"; "1"]])%list true)
    as [out|e] eqn:E.
  - exact (proj1 (main_prefix 2 loaded [["function"; "Sys.init"; "0"]]
                    [["call"; "Sys.f"; "1"]] out E eq_refl)).
  - assert (is_ok (main 2 loaded
                     ([["function"; "Sys.init"; "0"]] ++ [["call"; "Sys.f"; "1"]])%list
                     true) = true) as H by (vm_compute; reflexivity).
    rewrite E in H. discriminate H.
Defined.

(** X8. With an entry function, the first thing [main] adds to the output
    is the comment line of the bootstrap jump to [Sys.init]; without one,
    an empty program adds nothing. *)
Theorem main_bootstrap_first (depth : nat) (st : state)
    (parsed_vm : list (list string)) (out : string) :
  main depth st parsed_vm true = Ok out →
  (∃ rest, out = _asm_code st +:+ "// goto Sys.init" +:+ newline +:+ rest)
  ∧ main depth st [] false = Ok (_asm_code st).
Proof.
  intros H. split; [|done].
  unfold main, enumerate in H. simpl in H. ok_all. subst out.
  destruct depth as [|depth]; [discriminate|].
  match goal with
  | Ht : translate _ _ _ = Ok ?s, Hl : main_loop _ ?s _ _ = Ok _ |- _ =>
      destruct (translate_appended _ _ _ _ Ht)
        as (f & ? & ? & ? & ? & body & _ & _ & _ & _ & _ & Ha & _);
      apply main_loop_extends in Hl as (tail & Htail)
  end.
  simpl in Ha. exists (body +:+ tail). rewrite Htail, Ha.
  unfold comment_of. simpl. by rewrite !append_assoc.
Qed.

Lemma main_bootstrap_first_witness :
  ∃ rest,
    default "" (match main 2 loaded [["function"; "Sys.init"; "0"]] true with
                | Ok out => Some out | Err _ => None end)
    = _asm_code loaded +:+ "// goto Sys.init" +:+ newline +:+ rest.
Proof.
  destruct (main 2 loaded [["function"; "Sys.init"; "0"]] true)
    as [out|e] eqn:E.
  - exact (proj1 (main_bootstrap_first 2 loaded _ out E)).
  - assert (is_ok (main 2 loaded [["function"; "Sys.init"; "0"]] true) = true)
      as H by (vm_compute; reflexivity).
    rewrite E in H. discriminate H.
Defined.

Lemma main_loop_depth depth lines :
  ∀ st curr_class,
    dispatch_ok (_func_mappings st) →
    main_loop (S (S depth)) st curr_class lines = main_loop 2 st curr_class lines
    ∧ shallow (main_loop 2 st curr_class lines).
Proof.
  induction lines as [|[idx line] lines IH]; intros st curr_class Hok.
  { split; [reflexivity|]. unfold shallow. discriminate. }
  cbn [main_loop].
  destruct (line !! 0%nat) as [cmd|].
  2: { cbn [or_raise]. rewrite !bind_Err_l. split; [reflexivity|].
       unfold shallow. discriminate. }
  cbn [or_raise]. rewrite !bind_Ok_l.
  assert (∃ r : result string,
            (if decide (cmd = "function")
             then before_dot <$> or_raise IndexError (line !! 1%nat)
             else Ok curr_class) = r ∧ r ≠ Err RecursionError) as (r & -> & Hr).
  { eexists. split; [reflexivity|]. case_decide; [|discriminate].
    destruct (line !! 1%nat); discriminate. }
  destruct r as [class1|e].
  2: { rewrite !bind_Err_l. split; [reflexivity|]. unfold shallow. congruence. }
  rewrite !bind_Ok_l.
  destruct (__init__ line class1 idx) as [self|e] eqn:E3.
  2: { rewrite !bind_Err_l. split; [reflexivity|].
       pose proof (init_shallow line class1 idx) as Hs.
       rewrite E3 in Hs. unfold shallow in *. congruence. }
  rewrite !bind_Ok_l.
  destruct (translate_depth depth st self Hok) as [-> Hs].
  destruct (translate 2 st self) as [st1|e] eqn:E4.
  - rewrite !bind_Ok_l. apply IH. eapply dispatch_ok_same; [|exact Hok].
    eapply translate_tables. exact E4.
  - rewrite !bind_Err_l. split; [reflexivity|]. unfold shallow in *. congruence.
Qed.

(** X9. With a dispatch table that sends no primitive command to an
    expanding function, a whole program needs two levels of [translate]
    and no more: [main] at any greater depth gives what it gives at depth
    two, and that is never the exhaustion of the depth. *)
Theorem main_depth (depth : nat) (st : state) (parsed_vm : list (list string))
    (has_init : bool) :
  dispatch_ok (_func_mappings st) →
  main (2 + depth) st parsed_vm has_init = main 2 st parsed_vm has_init
  ∧ main 2 st parsed_vm has_init ≠ Err RecursionError.
Proof.
  intros Hok. unfold main.
  destruct (main_loop_depth depth
              (enumerate (if has_init then ["goto"; "Sys.init"] :: parsed_vm
                          else parsed_vm))
              st (if has_init then "Sys" else "") Hok) as [Heq Hs].
  change (2 + depth)%nat with (S (S depth)). rewrite Heq. split; [reflexivity|].
  destruct (main_loop 2 st _ _) as [st'|e].
  - rewrite bind_Ok_l. discriminate.
  - unfold shallow in Hs. rewrite bind_Err_l. congruence.
Qed.

Lemma main_depth_witness :
  main (2 + 5) loaded [["call"; "Main.f"; "0"]; ["return"]] true
  = main 2 loaded [["call"; "Main.f"; "0"]; ["return"]] true.
Proof.
  refine (proj1 (main_depth 5 loaded [["call"; "Main.f"; "0"]; ["return"]]
                   true _)).
  intros cmd f Hcmd Hf. unfold primitive_opcodes in Hcmd.
  repeat (apply elem_of_cons in Hcmd as [->|Hcmd];
          [vm_compute in Hf; by injection Hf as <-|]).
  destruct (proj1 (elem_of_nil cmd) Hcmd).
Defined.

(** ** The sign of an offset *)

Lemma int_space_py_space c : is_int_space c = true → is_py_space c = true.
Proof. destruct c as [[] [] [] [] [] [] [] []]; done. Qed.

Lemma lstrip_clean s : all_chars not_space s = true → lstrip s = s.
Proof.
  destruct s as [|c s]; [done|]. rewrite all_chars_cons.
  intros [Hc _]%andb_true_iff. simpl. unfold not_space in Hc.
  destruct (is_int_space c) eqn:E; [|done].
  by rewrite (int_space_py_space c E) in Hc.
Qed.

Lemma strip_clean s : all_chars not_space s = true → strip s = s.
Proof.
  intros H. unfold strip. rewrite (lstrip_clean s H).
  rewrite lstrip_clean by by rewrite all_chars_rev. apply rev_rev.
Qed.

Lemma digit_val_nonneg c d : digit_val c = Some d → 0 ≤ d.
Proof.
  unfold digit_val. destruct (Ascii.is_nat c); [|done]. intros [= <-]. lia.
Qed.

Lemma int_digits_nonneg s :
  ∀ acc b z, 0 ≤ acc → int_digits acc b s = Some z → 0 ≤ z.
Proof.
  induction s as [|c s IH]; intros acc b z Hacc H; simpl in H.
  - destruct b; [done|]. by injection H as <-.
  - case_decide.
    + destruct b; [done|]. by eapply IH.
    + destruct (digit_val c) as [d|] eqn:Hd; [|done].
      apply digit_val_nonneg in Hd. eapply IH; [|exact H]. lia.
Qed.

Lemma int_unsigned_nonneg s z : int_unsigned s = Some z → 0 ≤ z.
Proof.
  unfold int_unsigned. destruct s as [|c s]; [done|].
  destruct (digit_val c) as [d|] eqn:Hd; [|done].
  apply digit_val_nonneg in Hd. by apply int_digits_nonneg.
Qed.

Lemma int_unsigned_head c s z :
  int_unsigned (String c s) = Some z → is_Some (digit_val c).
Proof. unfold int_unsigned. destruct (digit_val c); [by eexists|done]. Qed.

(** [int()] finds an ASCII string as it is. *)
Lemma ascii_to_ascii s :
  is_ascii s = true → decimal_and_space_to_ascii s = Some s.
Proof.
  induction s as [|c s IH]; [done|]. unfold is_ascii. simpl.
  intros [Hc Hs]%andb_true_iff. rewrite (IH Hs).
  destruct c as [[] [] [] [] [] [] [] []]; try done.
Qed.

(** [int] on an ASCII word without white space: the sign, then the
    digits, unless there are too many of them. *)
Lemma py_int_clean c s :
  is_ascii (String c s) = true →
  all_chars not_space (String c s) = true →
  py_int (String c s)
  = if bool_decide (max_str_digits < count_digits (String c s)) then None
    else if decide (c = "-"%char) then Z.opp <$> int_unsigned s
    else if decide (c = "+"%char) then int_unsigned s
    else int_unsigned (String c s).
Proof.
  intros Ha H. unfold py_int. rewrite (ascii_to_ascii _ Ha). simpl.
  rewrite (strip_clean _ H). case_bool_decide; [done|].
  destruct c as [[] [] [] [] [] [] [] []]; reflexivity.
Qed.

Lemma count_digits_minus k : count_digits (String "-" k) = count_digits k.
Proof. done. Qed.

(** A clean ASCII word that [int] reads as a negative number is a minus
    sign followed by a word that [int] reads as its opposite. *)
Lemma negative_token i z :
  is_ascii i = true → clean_token i = true → py_int i = Some z → z < 0 →
  ∃ k, i = String "-" k ∧ py_int k = Some (- z) ∧ is_neg_token k = false.
Proof.
  unfold clean_token.
  intros Ha [[_ Hs]%andb_true_iff _]%andb_true_iff Hi Hz.
  destruct i as [|c k]; [done|]. rewrite (py_int_clean c k Ha Hs) in Hi.
  case_bool_decide as Hmax; [done|].
  case_decide as Hc.
  2: { case_decide; apply int_unsigned_nonneg in Hi; lia. }
  subst c. exists k. split; [done|].
  destruct (int_unsigned k) as [n|] eqn:Hk; [|done].
  simpl in Hi. injection Hi as <-.
  rewrite all_chars_cons in Hs. apply andb_true_iff in Hs as [_ Hs].
  assert (is_ascii k = true) as Hak
    by (unfold is_ascii in *; simpl in Ha; exact Ha).
  rewrite count_digits_minus in Hmax.
  destruct k as [|d k]; [done|].
  assert (py_int (String d k) = Some n) as Hpy.
  { rewrite (py_int_clean d k Hak Hs).
    rewrite bool_decide_eq_false_2 by done.
    destruct (int_unsigned_head d k n Hk) as [v Hv].
    case_decide as H1; [subst d; done|].
    case_decide as H2; [subst d; done|]. exact Hk. }
  split; [rewrite Hpy; f_equal; lia|].
  unfold is_neg_token. rewrite Hpy. apply bool_decide_eq_false_2.
  apply int_unsigned_nonneg in Hk. lia.
Qed.

(** X10. On [constant] and [temp] the sign of a negative offset (an ASCII
    word, as the parser hands it out, that [int] reads as negative) is lost:
    [_pop_push_helper] strips it and these segments pass no operator to
    the pattern, so [push constant -5] is translated to the very code of
    [push constant 5]; only the comment line keeps the sign. *)
Theorem negative_sign_dropped (depth : nat) (st : state)
    (cmd segm i : string) (z : Z) (rest : list string)
    (class_name : string) (idx : Z) :
  cmd ∈ ["pop"; "push"] →
  segm ∈ ["constant"; "temp"] →
  is_ascii i = true →
  clean_token i = true →
  py_int i = Some z → z < 0 →
  _func_mappings st !! cmd = Some A_pop_push →
  ∃ k,
    i = String "-" k ∧ py_int k = Some (- z)
    ∧ let signed := MkTranslator (cmd :: segm :: i :: rest) class_name cmd idx None in
      let unsigned := MkTranslator (cmd :: segm :: k :: rest) class_name cmd idx None in
      let body :=
        raw_code ← or_raise KeyError
                     (_code_patterns st !! ("_" +:+ cmd +:+ " " +:+ segm));
        code ← format raw_code
                 [("var_1", k); ("var_2", "None"); ("var_3", "None")];
        Ok (code +:+ newline) in
      translate (S depth) st signed
      = (code ← body; Ok (emit code (_make_comm signed st)))
      ∧ translate (S depth) st unsigned
        = (code ← body; Ok (emit code (_make_comm unsigned st))).
Proof.
  intros Hcmd Hsegm Hascii Hclean Hi Hz Hf.
  destruct (negative_token i z Hascii Hclean Hi Hz) as (k & -> & Hk & Hneg).
  exists k. split; [done|]. split; [done|]. intros signed unsigned body.
  assert (pop_push_pattern cmd segm = "_" +:+ cmd +:+ " " +:+ segm) as Hpat.
  { unfold pop_push_pattern. elem_cases Hsegm; by subst segm. }
  pose proof (helper_constant_temp signed cmd segm (String "-" k) rest eq_refl
                Hsegm) as Hs.
  rewrite (is_neg_token_true _ z Hi Hz) in Hs.
  pose proof (helper_constant_temp unsigned cmd segm k rest eq_refl Hsegm) as Hu.
  rewrite Hneg in Hu.
  rewrite (translate_pop_push depth st signed segm _ Hcmd eq_refl Hf Hs).
  rewrite (translate_pop_push depth st unsigned segm _ Hcmd eq_refl Hf Hu).
  unfold body. simpl. rewrite Hpat.
  destruct (or_raise KeyError _) as [raw_code|]; [|done].
  rewrite !bind_Ok_l. by destruct (format raw_code _).
Qed.

Lemma negative_sign_dropped_witness :
  ∃ k, "-5" = String "-" k ∧ py_int k = Some (- -5).
Proof.
  destruct (negative_sign_dropped 1 loaded "push" "constant" "-5" (-5) []
              "Main" 2) as (k & Hk & Hpy & _).
  - solve_elem.
  - solve_elem.
  - reflexivity.
  - reflexivity.
  - vm_compute. reflexivity.
  - lia.
  - vm_compute. reflexivity.
  - exists k. split; [exact Hk|exact Hpy].
Defined.

(** ** Labels, jumps and the expansion of [function] *)





(** ** The class of a static variable *)

Lemma before_dot_cut class_name name :
  all_chars (λ c, negb (bool_decide (c = "."%char))) class_name = true →
  before_dot (class_name +:+ "." +:+ name) = class_name.
Proof.
  induction class_name as [|c s IH]; [done|].
  rewrite all_chars_cons. intros [Hc Hs]%andb_true_iff.
  rewrite append_cons. simpl.
  case_decide as Heq; [by rewrite bool_decide_eq_true_2 in Hc|].
  by rewrite IH.
Qed.

Lemma before_dot_id name :
  all_chars (λ c, negb (bool_decide (c = "."%char))) name = true →
  before_dot name = name.
Proof.
  induction name as [|c s IH]; [done|].
  rewrite all_chars_cons. intros [Hc Hs]%andb_true_iff. simpl.
  case_decide as Heq; [by rewrite bool_decide_eq_true_2 in Hc|].
  by rewrite IH.
Qed.

(** The loop of [main] on a list of lines and one more line. *)
Lemma main_loop_snoc depth before line :
  ∀ st curr_class k,
    main_loop depth st curr_class (enumerate_from k (before ++ [line]))
    = (st1 ← main_loop depth st curr_class (enumerate_from k before);
       main_loop depth st1 (class_after curr_class before)
         [(k + Z.of_nat (length before), line)]).
Proof.
  induction before as [|l before IH]; intros st curr_class k.
  - simpl app. cbn [enumerate_from length class_after]. rewrite Z.add_0_r.
    reflexivity.
  - rewrite <-app_comm_cons. cbn [enumerate_from main_loop class_after length].
    destruct l as [|c args]; [reflexivity|].
    change ((c :: args) !! 0%nat) with (Some c).
    change (head (c :: args)) with (Some c).
    rewrite or_raise_Some, !bind_Ok_l.
    assert (∀ cls,
              (line_translator ← __init__ (c :: args) cls k;
               st' ← translate depth st line_translator;
               main_loop depth st' cls (enumerate_from (k + 1) (before ++ [line])))
              = (st1 ← (line_translator ← __init__ (c :: args) cls k;
                        st' ← translate depth st line_translator;
                        main_loop depth st' cls (enumerate_from (k + 1) before));
                 main_loop depth st1 (class_after cls before)
                   [(k + Z.of_nat (S (length before)), line)])) as Hstep.
    { intros cls. destruct (__init__ (c :: args) cls k) as [t|]; [|reflexivity].
      rewrite !bind_Ok_l.
      destruct (translate depth st t) as [st'|]; [|reflexivity].
      rewrite !bind_Ok_l, IH.
      by replace (k + Z.of_nat (S (length before)))
        with (k + 1 + Z.of_nat (length before)) by lia. }
    destruct (decide (c = "function")) as [->|Hc].
    + rewrite (decide_True (P := Some "function" = Some "function")) by done.
      destruct (args !! 0%nat) as [F|] eqn:HF.
      * change (("function" :: args) !! 1%nat) with (args !! 0%nat).
        rewrite HF. cbn [fmap option_fmap option_map default].
        rewrite or_raise_Some. cbn [fmap result_fmap]. rewrite !bind_Ok_l.
        apply Hstep.
      * change (("function" :: args) !! 1%nat) with (args !! 0%nat).
        rewrite HF. reflexivity.
    + rewrite (decide_False (P := Some c = Some "function")) by congruence.
      rewrite !bind_Ok_l. apply Hstep.
Qed.

Lemma class_after_app cls l1 l2 :
  class_after cls (l1 ++ l2) = class_after (class_after cls l1) l2.
Proof. revert cls. induction l1 as [|l l1 IH]; intros cls; [done|]. apply IH. Qed.

Lemma class_after_same cls lines :
  Forall (λ l, head l ≠ Some "function") lines → class_after cls lines = cls.
Proof.
  induction 1 as [|l lines Hl _ IH]; [done|]. simpl.
  by rewrite decide_False.
Qed.

(** X12. A static variable is named after the class of the enclosing
    function: a push or pop on [static] fills its pattern with the class
    name of its [Translator] as [var_1] and the offset as [var_2]; the loop
    of [main] gives it the class that the lines before it leave, which is
    the name of the last [function] among them up to its first dot (the
    whole name when it has no dot), however many other lines follow that
    [function], and the class the loop started with when there is none. *)
Theorem static_named_after_class (depth : nat) (st : state)
    (cmd i : string) (rest : list string) (class_name : string) (idx : Z) :
  cmd ∈ ["pop"; "push"] →
  _func_mappings st !! cmd = Some A_pop_push →
  let static := MkTranslator (cmd :: "static" :: i :: rest) in
  translate (S depth) st (static class_name cmd idx None)
  = (raw_code ← or_raise KeyError
                  (_code_patterns st !! ("_" +:+ cmd +:+ " static"));
     code ← format raw_code
              [("var_1", class_name);
               ("var_2", if is_neg_token i then tail_str i else i);
               ("var_3", "None")];
     Ok (emit (code +:+ newline)
           (_make_comm (static class_name cmd idx None) st)))
  ∧ (∀ before curr_class k st0,
       main_loop depth st0 curr_class
         (enumerate_from k (before ++ [cmd :: "static" :: i :: rest]))
       = (st1 ← main_loop depth st0 curr_class (enumerate_from k before);
          translate depth st1
            (static (class_after curr_class before) cmd
               (k + Z.of_nat (length before)) None)))
  ∧ (∀ curr_class before F rest' others,
       Forall (λ l, head l ≠ Some "function") others →
       class_after curr_class (before ++ ("function" :: F :: rest') :: others)
       = before_dot F
       ∧ class_after curr_class others = curr_class)
  ∧ (∀ cls name,
       all_chars (λ c, negb (bool_decide (c = "."%char))) cls = true →
       before_dot (cls +:+ "." +:+ name) = cls ∧ before_dot cls = cls).
Proof.
  intros Hcmd Hf static. split; [|split; [|split]].
  - exact (translate_pop_push depth st (static class_name cmd idx None)
             "static" _ Hcmd eq_refl Hf
             (helper_static (static class_name cmd idx None) cmd i rest eq_refl)).
  - intros before curr_class k st0. rewrite main_loop_snoc.
    destruct (main_loop depth st0 curr_class (enumerate_from k before))
      as [st1|]; [|reflexivity].
    rewrite !bind_Ok_l. cbn [main_loop]. unfold __init__.
    change ((cmd :: "static" :: i :: rest) !! 0%nat) with (Some cmd).
    rewrite !or_raise_Some, !bind_Ok_l.
    rewrite (decide_False (P := cmd = "function"))
      by (intros ->; elem_cases Hcmd; discriminate).
    rewrite !bind_Ok_l. by destruct (translate depth st1 _).
  - intros curr_class before F rest' others Hothers.
    split; [|by apply class_after_same].
    rewrite class_after_app. cbn [class_after].
    change (head ("function" :: F :: rest')) with (Some "function").
    rewrite (decide_True (P := Some "function" = Some "function")) by done.
    change (("function" :: F :: rest') !! 1%nat) with (Some F).
    cbn [fmap option_fmap option_map default].
    by apply class_after_same.
  - intros cls name H. split; [by apply before_dot_cut|by apply before_dot_id].
Qed.

Lemma static_named_after_class_witness :
  _asm_code
    <$> main_loop 2 loaded ""
          (enumerate [["function"; "Main.f"; "0"]; ["push"; "constant"; "1"];
                      ["push"; "static"; "3"]])
  = Ok (join newline
          ["// function Main.f 0"; "(Main.f)"; "";
           "// push constant 1"; "@1"; "D=A"; "@SP"; "A=M"; "M=D"; "@SP";
           "M=M+1"; "";
           "// push static 3"; "@Main.3"; "D=M"; "@SP"; "A=M"; "M=D"; "@SP";
           "M=M+1"; ""; ""]).
Proof.
  refine (eq_trans (f_equal (fmap _asm_code) (proj1 (proj2
    (static_named_after_class 2 loaded "push" "3" [] "" 0 _ _))
    [["function"; "Main.f"; "0"]; ["push"; "constant"; "1"]] "" 0 loaded)) _);
    [solve_elem|vm_compute; reflexivity|vm_compute; reflexivity].
Defined.

(** ** Loading the patterns, and the script as a whole *)

Lemma read_pattern_shallow file : shallow (read_pattern file).
Proof.
  induction file as [|line file IH]; cbn [read_pattern]; [apply shallow_Ok|].
  apply shallow_bind; [apply shallow_or_raise; discriminate|]. intros c _.
  apply shallow_bind; [exact IH|]. intros rest _. apply shallow_Ok.
Qed.

Lemma getattr_shallow name : shallow (getattr name).
Proof.
  unfold getattr. repeat (case_decide; [apply shallow_Ok|]).
  repeat (case_bool_decide; [apply shallow_Ok|]). unfold shallow. discriminate.
Qed.

Lemma link_commands_shallow func_name cmd_lst :
  ∀ m, shallow (link_commands func_name cmd_lst m).
Proof.
  induction cmd_lst as [|command cmd_lst IH]; intros m; cbn [link_commands];
    [apply shallow_Ok|].
  apply shallow_bind; [apply getattr_shallow|]. intros f _. apply IH.
Qed.

Lemma pattern_commands_shallow pattern_name : shallow (pattern_commands pattern_name).
Proof.
  unfold pattern_commands.
  destruct (existsb _ ["pop"; "push"]); [shallow_steps|].
  destruct (existsb _ _); apply shallow_Ok.
Qed.

Lemma create_mappings_shallow dir : ∀ st, shallow (create_mappings dir st).
Proof.
  induction dir as [|[filename file] dir IH]; intros st; cbn [create_mappings];
    [apply shallow_Ok|].
  destruct (endswith filename ".txt"); [|apply IH].
  apply shallow_bind; [apply read_pattern_shallow|]. intros code _.
  apply shallow_bind; [apply pattern_commands_shallow|]. intros pc _.
  apply shallow_bind; [apply link_commands_shallow|]. intros m _. apply IH.
Qed.

Lemma vm_parser_line_shallow line acc : shallow (vm_parser_line line acc).
Proof.
  unfold vm_parser_line. cbv zeta.
  destruct (bool_decide _); [|apply shallow_Ok].
  apply shallow_bind; [apply shallow_or_raise; discriminate|]. intros first _.
  case_decide; [|apply shallow_Ok].
  apply shallow_bind; [apply shallow_or_raise; discriminate|]. intros second _.
  apply shallow_Ok.
Qed.

Lemma vm_parser_file_shallow file : ∀ acc, shallow (vm_parser_file file acc).
Proof.
  induction file as [|line file IH]; intros acc; cbn [vm_parser_file];
    [apply shallow_Ok|].
  apply shallow_bind; [apply vm_parser_line_shallow|]. intros acc' _. apply IH.
Qed.

Lemma vm_parser_dir_shallow dir : ∀ acc, shallow (vm_parser_dir dir acc).
Proof.
  induction dir as [|[name [file|]] dir IH]; intros acc; cbn [vm_parser_dir];
    [apply shallow_Ok| |apply IH].
  apply shallow_bind; [apply vm_parser_file_shallow|]. intros acc' _. apply IH.
Qed.

(** X13. The script as a whole, from the pattern directory and the
    directory of VM files to the output text, needs two levels of
    [translate] whatever the two directories hold: with any greater depth
    it gives what it gives with two, and it never ends by the exhaustion of
    the depth.  No pattern file can make the translation recurse further,
    since [create_mappings] maps a command to [_function], [_call] or
    [_return] only under the names function, call and return. *)
Theorem main_script_depth (depth : nat) (patterns : list (string * list string))
    (vm_dir : list (string * option (list string))) :
  main_script (2 + depth) patterns vm_dir = main_script 2 patterns vm_dir
  ∧ main_script 2 patterns vm_dir ≠ Err RecursionError.
Proof.
  unfold main_script.
  pose proof (create_mappings_shallow patterns class_init) as Hc.
  destruct (create_mappings patterns class_init) as [st|e] eqn:E.
  2: { rewrite !bind_Err_l. split; [reflexivity|]. unfold shallow in Hc.
       congruence. }
  rewrite !bind_Ok_l.
  pose proof (vm_parser_dir_shallow vm_dir ([], false)) as Hp.
  fold (vm_parser vm_dir) in Hp.
  destruct (vm_parser vm_dir) as [parsed|e].
  2: { rewrite !bind_Err_l. split; [reflexivity|]. unfold shallow in Hp.
       congruence. }
  rewrite !bind_Ok_l.
  assert (dispatch_ok (_func_mappings st)) as Hok.
  { eapply create_mappings_dispatch_ok; [|exact E].
    intros cmd f _ Hf. simpl in Hf. rewrite lookup_empty in Hf.
    discriminate Hf. }
  unfold main.
  destruct (main_loop_depth depth
              (enumerate (if parsed.2 then ["goto"; "Sys.init"] :: parsed.1
                          else parsed.1))
              st (if parsed.2 then "Sys" else "") Hok) as [Heq Hs].
  change (2 + depth)%nat with (S (S depth)). rewrite Heq.
  split; [reflexivity|].
  destruct (main_loop 2 st _ _) as [st'|e].
  - rewrite bind_Ok_l. discriminate.
  - rewrite bind_Err_l. unfold shallow in Hs. congruence.
Qed.

Lemma create_mappings_app d1 d2 :
  ∀ st, create_mappings (d1 ++ d2) st
        = create_mappings d1 st ≫= create_mappings d2.
Proof.
  induction d1 as [|[filename file] d1 IH]; intros st; [reflexivity|].
  rewrite <-app_comm_cons. cbn [create_mappings].
  destruct (endswith filename ".txt"); [|apply IH].
  destruct (read_pattern file) as [code|]; [|reflexivity].
  rewrite !bind_Ok_l.
  destruct (pattern_commands _) as [pc|]; [|reflexivity].
  rewrite !bind_Ok_l.
  destruct (link_commands _ _ _) as [m|]; [|reflexivity].
  rewrite !bind_Ok_l. apply IH.
Qed.

Lemma create_mappings_output dir :
  ∀ st st', create_mappings dir st = Ok st' →
            _asm_code st' = _asm_code st
            ∧ _lt_eq_gt_counter st' = _lt_eq_gt_counter st.
Proof.
  induction dir as [|[filename file] dir IH]; intros st st' H;
    cbn [create_mappings] in H.
  - injection H as <-. by split.
  - destruct (endswith filename ".txt"); [|by apply IH].
    ok_steps H. by destruct (IH _ _ H).
Qed.

(** X14. Loading composes: loading a directory listing in two parts, the
    second from the class state the first has left, is loading it in one
    go.  Loading only fills the two tables: it leaves the output text and
    the comparison counters as they were. *)
Theorem create_mappings_composes (d1 d2 : list (string * list string))
    (st : state) :
  create_mappings (d1 ++ d2) st = create_mappings d1 st ≫= create_mappings d2
  ∧ (∀ st', create_mappings d1 st = Ok st' →
            _asm_code st' = _asm_code st
            ∧ _lt_eq_gt_counter st' = _lt_eq_gt_counter st).
Proof.
  split; [apply create_mappings_app|]. intros st'. apply create_mappings_output.
Qed.

Lemma remove_spaces_no_blank s :
  all_chars (λ c, negb (bool_decide (c = " "%char))) (remove_spaces s) = true.
Proof.
  induction s as [|c s IH]; [reflexivity|]. simpl.
  case_decide as Hc; [exact IH|].
  rewrite all_chars_cons, IH. by rewrite bool_decide_eq_false_2.
Qed.

Lemma read_pattern_no_blank file :
  ∀ code, read_pattern file = Ok code →
          all_chars (λ c, negb (bool_decide (c = " "%char))) code = true.
Proof.
  induction file as [|line file IH]; intros code H; cbn [read_pattern] in H.
  - by injection H as <-.
  - ok_steps H. subst code. destruct (bool_decide _); [|by apply IH].
    rewrite all_chars_app, remove_spaces_no_blank. by apply IH.
Qed.

Lemma read_pattern_drops file1 line file2 c :
  head (list_ascii_of_string line) = Some c →
  c ∈ ["/"; "010"; " "]%char →
  read_pattern (file1 ++ line :: file2) = read_pattern (file1 ++ file2).
Proof.
  intros Hc Hin. induction file1 as [|l file1 IH].
  - simpl. rewrite Hc. simpl.
    rewrite (bool_decide_eq_false_2 (c ∉ _)) by (intros Hn; by apply Hn).
    by destruct (read_pattern file2).
  - rewrite <-!app_comm_cons. cbn [read_pattern]. by rewrite IH.
Qed.

Lemma read_pattern_error file :
  ∀ e, read_pattern file = Err e ↔ e = IndexError ∧ "" ∈ file.
Proof.
  induction file as [|line file IH]; intros e.
  - simpl. split; [discriminate|]. intros [_ H].
    destruct (proj1 (elem_of_nil _) H).
  - rewrite elem_of_cons. destruct line as [|c s].
    + simpl. split; [intros [= <-]; by split; [|left]|by intros [-> _]].
    + cbn [read_pattern list_ascii_of_string head].
      rewrite or_raise_Some, bind_Ok_l.
      destruct (read_pattern file) as [rest|e0].
      * rewrite bind_Ok_l. split; [discriminate|].
        intros [-> [H|H]]; [discriminate H|].
        discriminate (proj2 (IH IndexError) (conj eq_refl H)).
      * rewrite bind_Err_l. split.
        -- intros [= <-]. destruct (proj1 (IH e0) eq_refl) as [-> H].
           split; [reflexivity|by right].
        -- intros [-> [H|H]]; [discriminate H|].
           exact (proj2 (IH IndexError) (conj eq_refl H)).
Qed.

(** X15. What [create_mappings] keeps of a pattern file: the text has no
    blank left in it; a line that starts with a slash, a line break or a
    blank is dropped, wherever it stands in the file; and a file whose
    lines all have a first character, as the iteration over an open file
    hands them out, is read without an error. *)
Theorem read_pattern_kept (file : list string) :
  (∀ code, read_pattern file = Ok code →
           all_chars (λ c, negb (bool_decide (c = " "%char))) code = true)
  ∧ (∀ file1 line file2 c,
       head (list_ascii_of_string line) = Some c →
       c ∈ ["/"; "010"; " "]%char →
       read_pattern (file1 ++ line :: file2) = read_pattern (file1 ++ file2))
  ∧ ("" ∉ file → ∃ code, read_pattern file = Ok code).
Proof.
  split; [apply read_pattern_no_blank|]. split.
  - intros file1 line file2 c. apply read_pattern_drops.
  - intros Hfile. destruct (read_pattern file) as [code|e] eqn:E; [by exists code|].
    apply read_pattern_error in E as [_ Hin]. by destruct Hfile.
Qed.

(** X16. The pattern table after loading: the file that comes last in the
    listing decides the pattern of its name (the file name without its
    extension), which is the kept text of that file; the patterns of the
    other names are those the files before it have left. *)
Theorem pattern_last_file_wins (dir : list (string * list string))
    (filename : string) (file : list string) (st st' : state) :
  endswith filename ".txt" = true →
  create_mappings (dir ++ [(filename, file)]) st = Ok st' →
  ∃ st1 code,
    create_mappings dir st = Ok st1
    ∧ read_pattern file = Ok code
    ∧ _code_patterns st' !! splitext_root filename = Some code
    ∧ (∀ name, name ≠ splitext_root filename →
               _code_patterns st' !! name = _code_patterns st1 !! name).
Proof.
  intros Hext H. rewrite create_mappings_app in H.
  destruct (create_mappings dir st) as [st1|] eqn:E1; [|discriminate H].
  rewrite bind_Ok_l in H. cbn [create_mappings] in H. rewrite Hext in H.
  ok_steps H. subst st'. exists st1. eexists. split; [reflexivity|].
  split; [eassumption|]. cbn [_code_patterns]. split.
  - apply lookup_insert_eq.
  - intros name Hne. by apply lookup_insert_ne.
Qed.

Lemma pattern_last_file_wins_witness :
  ∃ st1 code,
    create_mappings [("_neg_not.txt", ["D=M" +:+ newline])] class_init = Ok st1
    ∧ read_pattern ["// negate" +:+ newline; "M = {var_1}M" +:+ newline] = Ok code.
Proof.
  destruct (create_mappings
              ([("_neg_not.txt", ["D=M" +:+ newline])]
               ++ [("_neg_not.txt",
                    ["// negate" +:+ newline; "M = {var_1}M" +:+ newline])])
              class_init) as [st'|e] eqn:E.
  - destruct (pattern_last_file_wins
                [("_neg_not.txt", ["D=M" +:+ newline])] "_neg_not.txt"
                ["// negate" +:+ newline; "M = {var_1}M" +:+ newline]
                class_init st' eq_refl E) as (st1 & code & H1 & H2 & _).
    exists st1, code. split; [exact H1|exact H2].
  - assert (is_ok (create_mappings
              ([("_neg_not.txt", ["D=M" +:+ newline])]
               ++ [("_neg_not.txt",
                    ["// negate" +:+ newline; "M = {var_1}M" +:+ newline])])
              class_init) = true) as H by (vm_compute; reflexivity).
    rewrite E in H. discriminate H.
Defined.

(** ** What [translate] raises *)

Lemma op_dict_unknown (segm : string) (a b c d e : pop_push_expr) :
  segm ∉ ["static"; "temp"; "pointer"; "local"; "argument"; "this"; "that";
          "constant"] →
  ({[ "static" := a; "temp" := b; "pointer" := c; "local" := d;
      "argument" := d; "this" := d; "that" := d; "constant" := e ]}
     : gmap string pop_push_expr) !! segm = None.
Proof.
  intros Hnot.
  rewrite !lookup_insert_ne by (apply not_eq_sym; not_elem Hnot).
  apply lookup_singleton_ne. apply not_eq_sym. not_elem Hnot.
Qed.

(** X17. The operands of a push or pop: without a segment, or without an
    offset, [translate] raises [IndexError]; with a segment that is none of
    the eight, [KeyError]; each of them whatever the pattern table holds. *)
Theorem push_pop_operand_errors (depth : nat) (st : state) (self : Translator) :
  _cmd self ∈ ["pop"; "push"] →
  _func_mappings st !! _cmd self = Some A_pop_push →
  (_line self !! 1%nat = None → translate (S depth) st self = Err IndexError)
  ∧ (_line self !! 2%nat = None → translate (S depth) st self = Err IndexError)
  ∧ (∀ segm i,
       _line self !! 1%nat = Some segm →
       _line self !! 2%nat = Some i →
       segm ∉ ["static"; "temp"; "pointer"; "local"; "argument"; "this";
               "that"; "constant"] →
       translate (S depth) st self = Err KeyError).
Proof.
  intros Hcmd Hf. rewrite translate_S.
  unfold translate_body, pattern_name_of.
  rewrite (bool_decide_eq_true_2 (_cmd self ≠ "label"))
    by (intros E; rewrite E in Hcmd; elem_cases Hcmd; discriminate).
  rewrite !(bool_decide_eq_true_2 (_cmd self ∈ ["pop"; "push"])) by done.
  change (_func_mappings (_make_comm self st)) with (_func_mappings st).
  change (_code_patterns (_make_comm self st)) with (_code_patterns st).
  rewrite Hf, or_raise_Some, bind_Ok_l. cbn [attr_name]. rewrite bind_Ok_l.
  unfold _pop_push_helper.
  split; [|split].
  - intros ->. reflexivity.
  - intros ->. destruct (_line self !! 1%nat); reflexivity.
  - intros segm i -> -> Hnot. rewrite !or_raise_Some, !bind_Ok_l. cbv zeta.
    rewrite (op_dict_unknown segm _ _ _ _ _ Hnot). reflexivity.
Qed.

Lemma push_pop_operand_errors_witness :
  translate 1 loaded (MkTranslator ["push"; "constant"] "" "push" 0 None)
  = Err IndexError.
Proof.
  refine (proj1 (proj2 (push_pop_operand_errors 0 loaded
                   (MkTranslator ["push"; "constant"] "" "push" 0 None) _ _)) _).
  - solve_elem.
  - vm_compute. reflexivity.
  - reflexivity.
Defined.

(** X18. The operands of [function]: with the command in the dispatch
    table and its pattern loaded, a missing count of locals raises
    [IndexError] and a count that [int] does not read raises
    [ValueError]. *)
Theorem function_operand_errors (depth : nat) (st : state) (self : Translator) :
  _cmd self = "function" →
  _func_mappings st !! "function" = Some A_function →
  is_Some (_code_patterns st !! "_function") →
  (_line self !! 2%nat = None → translate (S depth) st self = Err IndexError)
  ∧ (∀ n, _line self !! 2%nat = Some n → py_int n = None →
          translate (S depth) st self = Err ValueError).
Proof.
  intros Hcmd Hf [raw_code Hraw]. rewrite translate_S.
  rewrite (translate_body_plain _ st self A_function "_function" raw_code);
    [|rewrite Hcmd; intros Hin; apply (bool_decide_pack _) in Hin;
      by vm_compute in Hin
     |by rewrite Hcmd|done|done].
  unfold call_attr, _function, function_cmd_lst. split.
  - intros ->. reflexivity.
  - intros n -> Hn. rewrite or_raise_Some, bind_Ok_l, Hn. reflexivity.
Qed.

Lemma function_operand_errors_witness :
  translate 1 loaded
    (MkTranslator ["function"; "Main.f"; "two"] "Main" "function" 0 None)
  = Err ValueError.
Proof.
  refine (proj2 (function_operand_errors 0 loaded
                   (MkTranslator ["function"; "Main.f"; "two"] "Main" "function"
                      0 None) eq_refl _ _) "two" eq_refl eq_refl).
  - vm_compute. reflexivity.
  - eexists. vm_compute. reflexivity.
Defined.

(** X19. A command that the dispatch table does not hold raises
    [KeyError], whatever its operands; so a program with an entry function
    cannot be translated before the patterns are loaded: the bootstrap
    [goto] already fails. *)
Theorem unknown_command_error (depth : nat) (st : state) :
  (∀ self, _func_mappings st !! _cmd self = None →
           translate (S depth) st self = Err KeyError)
  ∧ (∀ parsed_vm, _func_mappings st !! "goto" = None →
                  main (S depth) st parsed_vm true = Err KeyError)
  ∧ (∀ cmd rest more,
       cmd ≠ "function" → _func_mappings st !! cmd = None →
       main (S depth) st ((cmd :: rest) :: more) false = Err KeyError).
Proof.
  assert (∀ self, _func_mappings st !! _cmd self = None →
                  translate (S depth) st self = Err KeyError) as Hun.
  { intros self H. rewrite translate_S. unfold translate_body.
    assert (_func_mappings (if bool_decide (_cmd self ≠ "label")
                            then _make_comm self st else st)
            = _func_mappings st) as ->
      by (by destruct (bool_decide (_cmd self ≠ "label"))).
    rewrite H. reflexivity. }
  split; [exact Hun|]. split.
  - intros parsed_vm H. unfold main, enumerate. cbn [enumerate_from main_loop].
    change ((["goto"; "Sys.init"] : list string) !! 0%nat) with (Some "goto").
    rewrite or_raise_Some, bind_Ok_l.
    rewrite (decide_False (P := "goto" = "function")) by discriminate.
    rewrite bind_Ok_l. unfold __init__.
    change ((["goto"; "Sys.init"] : list string) !! 0%nat) with (Some "goto").
    rewrite or_raise_Some, !bind_Ok_l.
    rewrite (Hun (MkTranslator ["goto"; "Sys.init"] "Sys" "goto" 0 None) H).
    reflexivity.
  - intros cmd rest more Hne H. unfold main, enumerate.
    cbn [enumerate_from main_loop].
    change ((cmd :: rest) !! 0%nat) with (Some cmd).
    rewrite or_raise_Some, bind_Ok_l.
    rewrite (decide_False (P := cmd = "function")) by done.
    rewrite bind_Ok_l. unfold __init__.
    change ((cmd :: rest) !! 0%nat) with (Some cmd).
    rewrite or_raise_Some, !bind_Ok_l.
    rewrite (Hun (MkTranslator (cmd :: rest) "" cmd 0 None) H).
    reflexivity.
Qed.
